(** * The flowchart engine of app_end.py: text, graph, repair passes, history

    A shallow embedding of the Mermaid <-> graph synchronisation core of
    [app_end.py] together with the properties stated about it.

    Conventions.
    - A Python [str] is a list of Unicode code points ([list N]).  String
      literals are written in UTF-8 and decoded by [u].
    - A Python dict is a [gmap], a Python set a [gset].
    - Code that can raise is written in the [result] monad.
    - Presentation attributes of nodes and edges (CSS style dictionaries,
      marker shapes, handle sides, colour overrides) are not part of the
      records below: no function modelled here reads them. *)

From Stdlib Require Import ZArith NArith QArith Qround List String Ascii Lia Bool.
From stdpp Require Import gmap list.

Local Open Scope N_scope.

(** ** Python strings *)

Abbreviation str := (list N) (only parsing).

(** Bytes of a literal, then UTF-8 decoding of well-formed text. *)
Definition bytes_of_string (s : string) : list N :=
  map N_of_ascii (list_ascii_of_string s).

Fixpoint utf8_decode (bs : list N) : str :=
  match bs with
  | [] => []
  | b :: r =>
    if b <? 128 then b :: utf8_decode r
    else if b <? 224 then
      match r with
      | c1 :: r1 => ((b mod 32) * 64 + c1 mod 64) :: utf8_decode r1
      | _ => []
      end
    else if b <? 240 then
      match r with
      | c1 :: c2 :: r2 =>
        ((b mod 16) * 4096 + (c1 mod 64) * 64 + c2 mod 64) :: utf8_decode r2
      | _ => []
      end
    else
      match r with
      | c1 :: c2 :: c3 :: r3 =>
        ((b mod 8) * 262144 + (c1 mod 64) * 4096 + (c2 mod 64) * 64 + c3 mod 64)
          :: utf8_decode r3
      | _ => []
      end
  end.

Definition u (s : string) : str := utf8_decode (bytes_of_string s).

(** [str.encode("utf-8")]. *)
Definition utf8_encode_cp (c : N) : list N :=
  if c <? 128 then [c]
  else if c <? 2048 then [192 + c / 64; 128 + c mod 64]
  else if c <? 65536 then [224 + c / 4096; 128 + (c / 64) mod 64; 128 + c mod 64]
  else [240 + c / 262144; 128 + (c / 4096) mod 64; 128 + (c / 64) mod 64; 128 + c mod 64].

Definition utf8_encode (s : str) : list N := flat_map utf8_encode_cp s.

(** Truthiness and equality of strings. *)
Definition nonempty (s : str) : bool :=
  match s with [] => false | _ => true end.

Definition str_eqb (s t : str) : bool := bool_decide (s = t).

(** [a or b] on strings. *)
Definition str_or (a b : str) : str := if nonempty a then a else b.

(** [str.isspace] of one character; also the class [\s] of [re] on [str]
    patterns. *)
Definition py_isspace (c : N) : bool :=
  ((9 <=? c) && (c <=? 13)) || ((28 <=? c) && (c <=? 32)) ||
  (c =? 133) || (c =? 160) || (c =? 5760) ||
  ((8192 <=? c) && (c <=? 8202)) || (c =? 8232) || (c =? 8233) ||
  (c =? 8239) || (c =? 8287) || (c =? 12288).

Fixpoint lstrip (s : str) : str :=
  match s with
  | c :: r => if py_isspace c then lstrip r else s
  | [] => []
  end.

Definition rstrip (s : str) : str := rev (lstrip (rev s)).

(** [s.strip()]. *)
Definition strip (s : str) : str := rstrip (lstrip s).

Fixpoint starts_with (p s : str) : bool :=
  match p, s with
  | [], _ => true
  | a :: p', b :: s' => (a =? b) && starts_with p' s'
  | _ :: _, [] => false
  end.

(** [needle in hay]. *)
Fixpoint contains (needle hay : str) : bool :=
  starts_with needle hay ||
  match hay with
  | [] => false
  | _ :: r => contains needle r
  end.

(** [s.replace(old, new)] for a non-empty [old]: leftmost occurrences,
    not overlapping.  [skip] counts the characters of a match still to drop. *)
Fixpoint replace_from (old new : str) (skip : nat) (s : str) : str :=
  match s with
  | [] => []
  | c :: r =>
    match skip with
    | S k => replace_from old new k r
    | O =>
      if starts_with old s
      then new ++ replace_from old new (Nat.pred (length old)) r
      else c :: replace_from old new 0 r
    end
  end.

Definition replace (old new s : str) : str := replace_from old new 0 s.

(** [sep.join(parts)]. *)
Fixpoint join (sep : str) (parts : list str) : str :=
  match parts with
  | [] => []
  | [p] => p
  | p :: ps => p ++ sep ++ join sep ps
  end.

(** [s.split()]: maximal runs of non-space characters. *)
Fixpoint split_ws_from (cur : str) (s : str) : list str :=
  match s with
  | [] => if nonempty cur then [rev cur] else []
  | c :: r =>
    if py_isspace c
    then (if nonempty cur then rev cur :: split_ws_from [] r else split_ws_from [] r)
    else split_ws_from (c :: cur) r
  end.

Definition split_ws (s : str) : list str := split_ws_from [] s.

(** [s.splitlines()]: the line boundaries of Python, with [\r\n] as one. *)
Definition is_linebreak (c : N) : bool :=
  ((10 <=? c) && (c <=? 13)) || ((28 <=? c) && (c <=? 30)) ||
  (c =? 133) || (c =? 8232) || (c =? 8233).

Fixpoint splitlines_from (cur : str) (s : str) : list str :=
  match s with
  | [] => if nonempty cur then [rev cur] else []
  | c :: r =>
    if is_linebreak c then
      match c, r with
      | 13, 10 :: r' => rev cur :: splitlines_from [] r'
      | _, _ => rev cur :: splitlines_from [] r
      end
    else splitlines_from (c :: cur) r
  end.

Definition splitlines (s : str) : list str := splitlines_from [] s.

(** Comparison of strings by code points, as [<] on [str]. *)
Fixpoint str_ltb (s t : str) : bool :=
  match s, t with
  | [], [] => false
  | [], _ :: _ => true
  | _ :: _, [] => false
  | a :: s', b :: t' => (a <? b) || ((a =? b) && str_ltb s' t')
  end.

(** [str(n)] of a non-negative integer. *)
Fixpoint digits_fuel (fuel : nat) (n : N) (acc : str) : str :=
  match fuel with
  | O => acc
  | S f =>
    let acc' := (48 + n mod 10) :: acc in
    if n <? 10 then acc' else digits_fuel f (n / 10) acc'
  end.

Definition str_of_N (n : N) : str := digits_fuel (S (N.to_nat (N.log2 n))) n [].

(** [sorted(l, key=...)]: a stable insertion sort; [lt a b] says that the key
    of [a] is strictly below the key of [b].  An element is placed before the
    elements of equal key that followed it in the input. *)
Section Sorted.
Context {A : Type} (lt : A -> A -> bool).

Fixpoint insert_sorted (x : A) (l : list A) : list A :=
  match l with
  | [] => [x]
  | y :: r => if lt y x then y :: insert_sorted x r else x :: l
  end.

Definition sorted (l : list A) : list A :=
  fold_right insert_sorted [] l.
End Sorted.


(** ** Unicode tables of the Python runtime

    [str.lower], [str.upper] and the class [\w] of [re] depend on the
    Unicode database of the interpreter.  The engine is written against this
    interface; [latin_unicode] below is the instance used to run it. *)
Class PyUnicode := {
  py_lower : str -> str;
  py_upper : str -> str;
  py_isalnum : N -> bool
}.

(** The tables on U+0000..U+017F (Basic Latin, Latin-1 Supplement, Latin
    Extended-A, which holds the Turkish letters).  Code points above are
    left unchanged and classed as non-alphanumeric. *)
Definition latin_lower_cp (c : N) : str :=
  if (65 <=? c) && (c <=? 90) then [c + 32]
  else if (192 <=? c) && (c <=? 222) && negb (c =? 215) then [c + 32]
  else if c =? 304 then [105; 775]
  else if (((256 <=? c) && (c <=? 311)) || ((330 <=? c) && (c <=? 375)))
          && N.even c then [c + 1]
  else if (((313 <=? c) && (c <=? 328)) || ((377 <=? c) && (c <=? 382)))
          && N.odd c then [c + 1]
  else if c =? 376 then [255]
  else [c].

Definition latin_upper_cp (c : N) : str :=
  if (97 <=? c) && (c <=? 122) then [c - 32]
  else if c =? 181 then [924]
  else if c =? 223 then [83; 83]
  else if (224 <=? c) && (c <=? 254) && negb (c =? 247) then [c - 32]
  else if c =? 255 then [376]
  else if c =? 305 then [73]
  else if c =? 329 then [700; 78]
  else if c =? 383 then [83]
  else if (((256 <=? c) && (c <=? 311)) || ((330 <=? c) && (c <=? 375)))
          && N.odd c then [c - 1]
  else if (((313 <=? c) && (c <=? 328)) || ((377 <=? c) && (c <=? 382)))
          && N.even c then [c - 1]
  else [c].

Definition latin_isalnum (c : N) : bool :=
  ((48 <=? c) && (c <=? 57)) || ((65 <=? c) && (c <=? 90)) ||
  ((97 <=? c) && (c <=? 122)) ||
  (c =? 170) || (c =? 178) || (c =? 179) || (c =? 181) || (c =? 185) ||
  (c =? 186) || (c =? 188) || (c =? 189) || (c =? 190) ||
  ((192 <=? c) && (c <=? 383) && negb (c =? 215) && negb (c =? 247)).

#[export] Instance latin_unicode : PyUnicode := {|
  py_lower s := flat_map latin_lower_cp s;
  py_upper s := flat_map latin_upper_cp s;
  py_isalnum := latin_isalnum
|}.

(** ** hashlib.md5 *)
Module MD5.

Definition mask32 : N := 4294967295.
Definition add32 (a b : N) : N := N.land (a + b) mask32.
Definition not32 (a : N) : N := N.lxor a mask32.
Definition rotl32 (x c : N) : N :=
  N.land (N.lor (N.shiftl x c) (N.shiftr x (32 - c))) mask32.

Definition K : list N := [
  3614090360; 3905402710; 606105819; 3250441966;
  4118548399; 1200080426; 2821735955; 4249261313;
  1770035416; 2336552879; 4294925233; 2304563134;
  1804603682; 4254626195; 2792965006; 1236535329;
  4129170786; 3225465664; 643717713; 3921069994;
  3593408605; 38016083; 3634488961; 3889429448;
  568446438; 3275163606; 4107603335; 1163531501;
  2850285829; 4243563512; 1735328473; 2368359562;
  4294588738; 2272392833; 1839030562; 4259657740;
  2763975236; 1272893353; 4139469664; 3200236656;
  681279174; 3936430074; 3572445317; 76029189;
  3654602809; 3873151461; 530742520; 3299628645;
  4096336452; 1126891415; 2878612391; 4237533241;
  1700485571; 2399980690; 4293915773; 2240044497;
  1873313359; 4264355552; 2734768916; 1309151649;
  4149444226; 3174756917; 718787259; 3951481745 ].

Definition R : list N := [
  7; 12; 17; 22; 7; 12; 17; 22; 7; 12; 17; 22; 7; 12; 17; 22;
  5; 9; 14; 20; 5; 9; 14; 20; 5; 9; 14; 20; 5; 9; 14; 20;
  4; 11; 16; 23; 4; 11; 16; 23; 4; 11; 16; 23; 4; 11; 16; 23;
  6; 10; 15; 21; 6; 10; 15; 21; 6; 10; 15; 21; 6; 10; 15; 21 ].

Definition state : Type := N * N * N * N.

Definition step (M : list N) (st : state) (i : nat) : state :=
  let '(A, B, C, D) := st in
  let '(F, g) :=
    if (i <? 16)%nat then
      (N.lor (N.land B C) (N.land (not32 B) D), i)
    else if (i <? 32)%nat then
      (N.lor (N.land D B) (N.land (not32 D) C), ((5 * i + 1) mod 16)%nat)
    else if (i <? 48)%nat then
      (N.lxor (N.lxor B C) D, ((3 * i + 5) mod 16)%nat)
    else
      (N.lxor C (N.lor B (not32 D)), ((7 * i) mod 16)%nat) in
  let F' := add32 (add32 (add32 F A) (nth i K 0)) (nth g M 0) in
  (D, add32 B (rotl32 F' (nth i R 0)), B, C).

Fixpoint words (n : nat) (bs : list N) : list N :=
  match n, bs with
  | S k, b0 :: b1 :: b2 :: b3 :: r =>
    (b0 + 256 * b1 + 65536 * b2 + 16777216 * b3) :: words k r
  | _, _ => []
  end.

Definition chunk (st : state) (bs : list N) : state :=
  let '(a0, b0, c0, d0) := st in
  let '(A, B, C, D) := fold_left (step (words 16 bs)) (seq 0 64) st in
  (add32 a0 A, add32 b0 B, add32 c0 C, add32 d0 D).

Fixpoint chunks (n : nat) (st : state) (bs : list N) : state :=
  match n with
  | O => st
  | S k => chunks k (chunk st (firstn 64 bs)) (skipn 64 bs)
  end.

Definition le_bytes (n : nat) (x : N) : list N :=
  map (fun i => N.land (N.shiftr x (8 * N.of_nat i)) 255) (seq 0 n).

Definition pad (msg : list N) : list N :=
  let len := N.of_nat (length msg) in
  msg ++ [128] ++ repeat 0 (N.to_nat ((119 - len mod 64) mod 64))
      ++ le_bytes 8 (8 * len).

Definition digest (msg : list N) : list N :=
  let p := pad msg in
  let '(a, b, c, d) :=
    chunks (length p / 64)
           (1732584193, 4023233417, 2562383102, 271733878) p in
  le_bytes 4 a ++ le_bytes 4 b ++ le_bytes 4 c ++ le_bytes 4 d.

Definition hex_digit (d : N) : N := if d <? 10 then 48 + d else 87 + d.

Definition hexdigest (msg : list N) : str :=
  flat_map (fun b => [hex_digit (b / 16); hex_digit (b mod 16)]) (digest msg).

End MD5.

(** [build_edge_id]: [e_<first 8 hex digits of md5>_<source>_<target>]. *)
Definition build_edge_id (source target label variant salt : str) : str :=
  let base := source ++ u "|" ++ target ++ u "|" ++ label ++ u "|"
                     ++ variant ++ u "|" ++ salt in
  let hid := firstn 8 (MD5.hexdigest (utf8_encode base)) in
  u "e_" ++ hid ++ u "_" ++ source ++ u "_" ++ target.

(** ** Graph model

    A node carries the three entries of its [data] dictionary that the engine
    reads ([label], [content], [kind]); the empty string stands for an absent
    or empty entry, which every reader treats alike.  The same holds for the
    [label], [edge_type] and [variant] of an edge. *)
Record StreamlitFlowNode := make_flow_node {
  n_id : str;
  n_pos : Q * Q;
  n_label : str;
  n_content : str;
  n_kind : str
}.

Record StreamlitFlowEdge := make_flow_edge {
  e_id : str;
  e_source : str;
  e_target : str;
  e_label : str;
  e_edge_type : str;
  e_variant : str
}.

Record StreamlitFlowState := make_flow_state {
  nodes : list StreamlitFlowNode;
  edges : list StreamlitFlowEdge
}.

Definition get_node_pos (n : StreamlitFlowNode) : Q * Q := n_pos n.

(** Falls back to the markdown [content] without its [**] marks. *)
Definition get_node_label (n : StreamlitFlowNode) : str :=
  let label := n_label n in
  if nonempty label then label
  else strip (replace (u "**") [] (n_content n)).

Definition get_node_kind (n : StreamlitFlowNode) : str :=
  str_or (n_kind n) (u "process").

Definition get_edge_label (e : StreamlitFlowEdge) : str := e_label e.

Definition get_edge_type (e : StreamlitFlowEdge) : str :=
  str_or (e_edge_type e) (u "default").

Definition get_edge_variant (e : StreamlitFlowEdge) : str :=
  str_or (e_variant e) (u "solid").

Definition set_label (lbl : str) (e : StreamlitFlowEdge) : StreamlitFlowEdge :=
  {| e_id := e_id e; e_source := e_source e; e_target := e_target e;
     e_label := lbl; e_edge_type := e_edge_type e; e_variant := e_variant e |}.

(** ** History (undo / redo) *)
Record NodeSnapshot := {
  ns_id : str; ns_pos : Q * Q; ns_label : str; ns_kind : str
}.

Record EdgeSnapshot := {
  es_id : str; es_source : str; es_target : str;
  es_label : str; es_edge_type : str; es_variant : str
}.

Definition serialize_nodes (ns : list StreamlitFlowNode) : list NodeSnapshot :=
  map (fun n => {| ns_id := n_id n; ns_pos := get_node_pos n;
                   ns_label := get_node_label n; ns_kind := get_node_kind n |}) ns.

Definition serialize_edges (es : list StreamlitFlowEdge) : list EdgeSnapshot :=
  map (fun e => {| es_id := e_id e; es_source := e_source e;
                   es_target := e_target e; es_label := get_edge_label e;
                   es_edge_type := get_edge_type e;
                   es_variant := get_edge_variant e |}) es.

Record HistoryEntry := {
  code_text : str;
  node_snapshot : list NodeSnapshot;
  edge_snapshot : list EdgeSnapshot;
  timestamp : Q;
  action : str
}.

Module HistoryManager.

Definition MAX_HISTORY : nat := 25.

(** Both stacks are Python lists: the top is the last element. *)
Record t := {
  undo_stack : list HistoryEntry;
  redo_stack : list HistoryEntry
}.

(** [__init__] *)
Definition init : t := {| undo_stack := []; redo_stack := [] |}.

(** [l.pop(0)] on a non-empty list. *)
Definition pop_front {A} (l : list A) : list A := tail l.

(** [l.pop()] on a non-empty list: the rest (the value is [last l]). *)
Definition pop_back {A} (l : list A) : list A := removelast l.

(** The arguments of one [push]; [now] is the reading of [time.time()]. *)
Record push_args := {
  pa_code_text : str;
  pa_flow_state : StreamlitFlowState;
  pa_action : str;
  pa_now : Q
}.

Definition push (a : push_args) (h : t) : t :=
  let entry := {| code_text := pa_code_text a;
                  node_snapshot := serialize_nodes (nodes (pa_flow_state a));
                  edge_snapshot := serialize_edges (edges (pa_flow_state a));
                  timestamp := pa_now a;
                  action := pa_action a |} in
  let undo1 := undo_stack h ++ [entry] in
  {| undo_stack := if (MAX_HISTORY <? length undo1)%nat
                   then pop_front undo1 else undo1;
     redo_stack := [] |}.

Definition can_undo (h : t) : bool := (2 <=? length (undo_stack h))%nat.
Definition can_redo (h : t) : bool := (0 <? length (redo_stack h))%nat.

Definition undo (h : t) : option HistoryEntry * t :=
  if (length (undo_stack h) <? 2)%nat then (None, h)
  else
    match last (undo_stack h) with
    | None => (None, h)
    | Some current =>
      let undo1 := pop_back (undo_stack h) in
      (last undo1,
       {| undo_stack := undo1; redo_stack := redo_stack h ++ [current] |})
    end.

Definition redo (h : t) : option HistoryEntry * t :=
  match last (redo_stack h) with
  | None => (None, h)
  | Some entry =>
    (Some entry,
     {| undo_stack := undo_stack h ++ [entry];
        redo_stack := pop_back (redo_stack h) |})
  end.

(** Pushing a sequence of snapshots, oldest first. *)
Definition push_all (ps : list push_args) (h : t) : t :=
  fold_left (fun h a => push a h) ps h.

(** [k] calls of [undo] in a row: what each returned, and the final state. *)
Fixpoint undo_calls (k : nat) (h : t) : list (option HistoryEntry) * t :=
  match k with
  | O => ([], h)
  | S k' =>
    let '(r, h1) := undo h in
    let '(rs, h2) := undo_calls k' h1 in
    (r :: rs, h2)
  end.

End HistoryManager.

(** ** The regular expressions of the [re] module

    A backtracking matcher with the priorities of [re]: alternatives left to
    right, greedy repetition longest first, lazy repetition shortest first.
    Repetition is over one-character classes, which is all the patterns of
    the engine use. *)
Module Re.

Inductive regex :=
| Chr (p : N -> bool)
| Eps
| Seq (a b : regex)
| Alt (a b : regex)
| Star (greedy : bool) (p : N -> bool)
| Group (name : string) (a : regex)
| Bos
| Eos.

(** Named groups, the most recent binding first. *)
Definition caps : Type := list (string * str).

Definition group (name : string) (c : caps) : str :=
  match find (fun '(n, _) => String.eqb n name) c with
  | Some (_, v) => v
  | None => []
  end.

(** [x+], [x+?], a literal, a sequence. *)
Definition Plus (greedy : bool) (p : N -> bool) : regex :=
  Seq (Chr p) (Star greedy p).
Definition Lit (s : str) : regex :=
  fold_right (fun c r => Seq (Chr (N.eqb c)) r) Eps s.
Definition Seqs (rs : list regex) : regex := fold_right Seq Eps rs.
Definition Alts (rs : list regex) : regex :=
  match rs with
  | [] => Eps
  | r :: rs' => fold_left Alt rs' r
  end.

(** Where [$] matches: at the end, or before a newline that ends the input. *)
Definition at_end (s : str) : bool :=
  match s with
  | [] => true
  | [x] => x =? 10
  | _ => false
  end.

Section Run.
Context {A : Type}.

(** A continuation receives the position reached, the rest of the input
    and the groups bound so far; [None] makes the matcher backtrack. *)
Definition cont : Type := nat -> str -> caps -> option A.

Fixpoint star_greedy (p : N -> bool) (k : cont) (pos : nat) (s : str) (c : caps)
  : option A :=
  match s with
  | x :: s' =>
    if p x then
      match star_greedy p k (S pos) s' c with
      | Some r => Some r
      | None => k pos s c
      end
    else k pos s c
  | [] => k pos s c
  end.

Fixpoint star_lazy (p : N -> bool) (k : cont) (pos : nat) (s : str) (c : caps)
  : option A :=
  match k pos s c with
  | Some r => Some r
  | None =>
    match s with
    | x :: s' => if p x then star_lazy p k (S pos) s' c else None
    | [] => None
    end
  end.

Fixpoint run (r : regex) (k : cont) (pos : nat) (s : str) (c : caps) : option A :=
  match r with
  | Chr p =>
    match s with
    | x :: s' => if p x then k (S pos) s' c else None
    | [] => None
    end
  | Eps => k pos s c
  | Seq a b => run a (run b k) pos s c
  | Alt a b =>
    match run a k pos s c with
    | Some r => Some r
    | None => run b k pos s c
    end
  | Star true p => star_greedy p k pos s c
  | Star false p => star_lazy p k pos s c
  | Group name a =>
    run a (fun pos' s' c' => k pos' s' ((name, firstn (pos' - pos) s) :: c')) pos s c
  | Bos => if (pos =? 0)%nat then k pos s c else None
  | Eos => if at_end s then k pos s c else None
  end.
End Run.

(** A match: where it ends and its groups. *)
Definition accept : @cont (nat * caps) := fun pos _ c => Some (pos, c).

(** [re.match(r, s)]: the groups of a match at the start of [s]. *)
Definition rmatch (r : regex) (s : str) : option caps :=
  snd <$> run r accept 0 s [].

(** [re.search(r, s)]: the start and the groups of the leftmost match. *)
Fixpoint search_from (r : regex) (pos : nat) (s : str) : option (nat * caps) :=
  match run r accept pos s [] with
  | Some (_, c) => Some (pos, c)
  | None =>
    match s with
    | _ :: s' => search_from r (S pos) s'
    | [] => None
    end
  end.

Definition search (r : regex) (s : str) : option (nat * caps) := search_from r 0 s.

(** [re.sub(r, repl, s)] for a pattern that matches no empty string: the
    leftmost matches, not overlapping, are replaced by [repl]. *)
Fixpoint sub_from (r : regex) (repl : str) (pos skip : nat) (s : str) : str :=
  match s with
  | [] => []
  | x :: s' =>
    match skip with
    | S k => sub_from r repl (S pos) k s'
    | O =>
      match run r accept pos s [] with
      | Some (e, _) =>
        if (pos <? e)%nat then repl ++ sub_from r repl (S pos) (e - pos - 1) s'
        else x :: sub_from r repl (S pos) 0 s'
      | None => x :: sub_from r repl (S pos) 0 s'
      end
    end
  end.

Definition sub (r : regex) (repl s : str) : str := sub_from r repl 0 0 s.

(** Character classes. *)
Definition one_of (cs : str) (c : N) : bool := existsb (N.eqb c) cs.
Definition dot (c : N) : bool := negb (c =? 10).
Definition space : N -> bool := py_isspace.
(** [[A-Za-z0-9_\-]] *)
Definition id_char (c : N) : bool :=
  ((65 <=? c) && (c <=? 90)) || ((97 <=? c) && (c <=? 122)) ||
  ((48 <=? c) && (c <=? 57)) || (c =? 95) || (c =? 45).
(** A letter under [re.IGNORECASE]; the letters used have no other
    case-equivalent than their ASCII counterpart. *)
Definition ascii_lower (c : N) : N :=
  if (65 <=? c) && (c <=? 90) then c + 32 else c.
Definition ci (c : N) (x : N) : bool := ascii_lower x =? ascii_lower c.
Definition LitCI (s : str) : regex :=
  fold_right (fun c r => Seq (Chr (ci c)) r) Eps s.

End Re.

(** ** Constant tables *)
Definition DEFAULT_DIRECTION : str := u "TD".

(** The keys of [NODE_KIND] with their [icon]. *)
Definition NODE_KIND : list (str * str) := [
  (u "terminal", [9210; 65039]);
  (u "process", [9881; 65039]);
  (u "decision", [10067]);
  (u "io", [9000; 65039]);
  (u "document", [128196]);
  (u "multi_document", [128209]);
  (u "data_storage", [128451; 65039]);
  (u "internal_storage", [129504]);
  (u "tape_data", [128252]);
  (u "subprocess", [129513]);
  (u "database", [128452; 65039]);
  (u "display", [128421; 65039]);
  (u "manual_operation", [9995]);
  (u "merge", [128315]);
  (u "manual_input", [9997; 65039]);
  (u "connector", [128279]);
  (u "comment", [128221]);
  (u "loop", [128257]);
  (u "function", [129504]) ].

(** [d.get(k)] on a table written as a list of pairs. *)
Definition table_get {V} (k : str) (d : list (str * V)) : option V :=
  snd <$> find (fun '(k', _) => str_eqb k' k) d.

(** [k in NODE_KIND], for a [k] that may be [None]. *)
Definition in_NODE_KIND (k : option str) : bool :=
  match k with
  | Some k => bool_decide (is_Some (table_get k NODE_KIND))
  | None => false
  end.

Definition EDGE_VARIANT_TO_ARROW : list (str * str) := [
  (u "solid", u "-->");
  (u "dotted", u "-.->");
  (u "thick", u "==>");
  (u "circle", u "--o");
  (u "cross", u "--x") ].

Definition ARROW_TO_EDGE_VARIANT : list (str * str) :=
  map (fun '(k, v) => (v, k)) EDGE_VARIANT_TO_ARROW.

(** A shape template [{id}<open>{label}<close>]. *)
Definition MERMAID_NODE_TEMPLATES : list (str * (str * str)) := [
  (u "terminal", (u "([ ", u " ])"));
  (u "process", (u "[", u "]"));
  (u "io", (u "[/ ", u " /]"));
  (u "decision", (u "{", u "}"));
  (u "document", (u "[", u "]:::document"));
  (u "multi_document", (u "[", u "]:::multi_document"));
  (u "data_storage", (u "[( ", u " )]:::data_storage"));
  (u "internal_storage", (u "[", u "]:::internal_storage"));
  (u "tape_data", (u "[", u "]:::tape_data"));
  (u "display", (u "[", u "]:::display"));
  (u "manual_operation", (u "[", u "]:::manual_operation"));
  (u "merge", (u "[", u "]:::merge"));
  (u "manual_input", (u "[/ ", u " /]:::manual_input"));
  (u "subprocess", (u "[[", u "]]"));
  (u "database", (u "[( ", u " )]"));
  (u "connector", (u "((", u "))"));
  (u "comment", (u "[", u "]:::comment"));
  (u "loop", (u "{", u "}:::loop"));
  (u "function", (u "[[", u "]]:::function") ) ].

Definition EXPORT_NODE_TEMPLATES : list (str * (str * str)) := [
  (u "terminal", (u "([ ", u " ])"));
  (u "process", (u "[", u "]"));
  (u "io", (u "[/ ", u " /]"));
  (u "decision", (u "{", u "}"));
  (u "document", (u "[", u "]"));
  (u "multi_document", (u "[", u "]"));
  (u "data_storage", (u "[( ", u " )]"));
  (u "internal_storage", (u "[", u "]"));
  (u "tape_data", (u "[", u "]"));
  (u "display", (u "[", u "]"));
  (u "manual_operation", (u "[", u "]"));
  (u "merge", (u "[", u "]"));
  (u "manual_input", (u "[/ ", u " /]"));
  (u "subprocess", (u "[[", u "]]"));
  (u "database", (u "[( ", u " )]"));
  (u "connector", (u "((", u "))"));
  (u "comment", (u "[", u "]"));
  (u "loop", (u "{", u "}"));
  (u "function", (u "[[", u "]]")) ].

(** [tpl.format(id=.., label=..)] *)
Definition format_template (tpl : str * str) (id label : str) : str :=
  id ++ fst tpl ++ label ++ snd tpl.

(** ** Exceptions *)
Inductive exn := IndexError.

Inductive result (A : Type) :=
| Ok (a : A)
| Raise (e : exn).
Arguments Ok {A} a.
Arguments Raise {A} e.

#[export] Instance result_ret : MRet result := @Ok.
#[export] Instance result_bind : MBind result := fun A B f m =>
  match m with
  | Ok a => f a
  | Raise e => Raise e
  end.

(** [try: m except Exception: pass], for a step that updates a state. *)
Definition try_pass {S} (m : result S) (s : S) : S :=
  match m with
  | Ok s' => s'
  | Raise _ => s
  end.

(** What the engine reads from [st.session_state]. *)
Record Session := {
  session_direction : str;      (* [get("direction", DEFAULT_DIRECTION)] *)
  enable_grid_snap : bool       (* [get("enable_grid_snap", False)] *)
}.

(** ** Node and edge constructors *)
Definition node_markdown (label kind : str) : str :=
  let icon := default (default [] (table_get (u "process") NODE_KIND))
                      (table_get kind NODE_KIND) in
  strip (u "**" ++ icon ++ u " " ++ label ++ u "**").

Definition make_node (node_id label kind : str) (pos : Q * Q) : StreamlitFlowNode :=
  {| n_id := node_id; n_pos := pos; n_label := label;
     n_content := node_markdown label kind; n_kind := kind |}.

Definition make_edge (edge_id source target label edge_type variant : str)
  : StreamlitFlowEdge :=
  {| e_id := edge_id; e_source := source; e_target := target;
     e_label := label; e_edge_type := edge_type; e_variant := variant |}.

(** [build_state_from_snapshot]: the state that a snapshot stands for. *)
Definition build_state_from_snapshot (node_snapshot : list NodeSnapshot)
    (edge_snapshot : list EdgeSnapshot) : StreamlitFlowState :=
  let nodes :=
    map (fun nd =>
           let nid := ns_id nd in
           let kind := str_or (ns_kind nd) (u "process") in
           let label := str_or (ns_label nd) nid in
           make_node nid label kind (ns_pos nd))
        node_snapshot in
  let edges :=
    map (fun ed =>
           let lbl := str_or (es_label ed) [] in
           let etype := str_or (es_edge_type ed) (u "smoothstep") in
           let variant := str_or (es_variant ed) (u "solid") in
           make_edge (es_id ed) (es_source ed) (es_target ed) lbl etype variant)
        edge_snapshot in
  make_flow_state nodes edges.

Definition build_state_from_history (entry : HistoryEntry) : StreamlitFlowState :=
  build_state_from_snapshot (node_snapshot entry) (edge_snapshot entry).

(** [round(q)]: to the nearest integer, ties to the even one. *)
Definition py_round (q : Q) : Z :=
  let f := Qfloor q in
  let d := (q - inject_Z f)%Q in
  match (d ?= 1 # 2)%Q with
  | Lt => f
  | Gt => (f + 1)%Z
  | Eq => if Z.even f then f else (f + 1)%Z
  end.

Definition snap_to_grid (x y : Q) (grid_size : Z) : Q * Q :=
  (inject_Z (py_round (x / inject_Z grid_size) * grid_size),
   inject_Z (py_round (y / inject_Z grid_size) * grid_size)).

(** [normalize_state]: completes [kind], [label], [content] of every node,
    snaps positions when asked to, and records the variant of every edge. *)
Definition normalize_node (ses : Session) (n : StreamlitFlowNode) : StreamlitFlowNode :=
  let kind := str_or (n_kind n) (u "process") in
  let label := str_or (n_label n) (str_or (n_content n) (n_id n)) in
  {| n_id := n_id n;
     n_pos := if enable_grid_snap ses
              then snap_to_grid (fst (get_node_pos n)) (snd (get_node_pos n)) 20
              else n_pos n;
     n_label := label;
     n_content := node_markdown label kind;
     n_kind := kind |}.

Definition normalize_edge (e : StreamlitFlowEdge) : StreamlitFlowEdge :=
  {| e_id := e_id e; e_source := e_source e; e_target := e_target e;
     e_label := e_label e; e_edge_type := e_edge_type e;
     e_variant := get_edge_variant e |}.

Definition normalize_state (ses : Session) (fs : StreamlitFlowState) : StreamlitFlowState :=
  {| nodes := map (normalize_node ses) (nodes fs);
     edges := map normalize_edge (edges fs) |}.

(** ** Mermaid text to state *)

(** [^\s*(?:flowchart|graph)\s+(TD|TB|LR|RL|BT)\s*$], ignoring case *)
Definition FLOW_HEADER_RE : Re.regex :=
  Re.Seqs [Re.Bos; Re.Star true Re.space;
           Re.Alt (Re.LitCI (u "flowchart")) (Re.LitCI (u "graph"));
           Re.Plus true Re.space;
           Re.Group "1" (Re.Alts [Re.LitCI (u "TD"); Re.LitCI (u "TB");
                                  Re.LitCI (u "LR"); Re.LitCI (u "RL");
                                  Re.LitCI (u "BT")]);
           Re.Star true Re.space; Re.Eos].

(** [(?P<arrow>-->|-\.->|==>|--o|--x|<-->)] *)
Definition ARROW_RE : Re.regex :=
  Re.Group "arrow" (Re.Alts [Re.Lit (u "-->"); Re.Lit (u "-.->"); Re.Lit (u "==>");
                             Re.Lit (u "--o"); Re.Lit (u "--x"); Re.Lit (u "<-->")]).

(** [^\s*(?P<src>.+?)\s*<arrow>\s*\|\s*(?P<label>[^|]+?)\s*\|\s*(?P<dst>.+?)\s*$] *)
Definition EDGE_WITH_PIPE_LABEL_RE : Re.regex :=
  Re.Seqs [Re.Bos; Re.Star true Re.space;
           Re.Group "src" (Re.Plus false Re.dot);
           Re.Star true Re.space; ARROW_RE; Re.Star true Re.space;
           Re.Lit (u "|"); Re.Star true Re.space;
           Re.Group "label" (Re.Plus false (fun c => negb (c =? 124)));
           Re.Star true Re.space; Re.Lit (u "|"); Re.Star true Re.space;
           Re.Group "dst" (Re.Plus false Re.dot);
           Re.Star true Re.space; Re.Eos].

(** [^\s*(?P<src>.+?)\s*<arrow>\s*(?P<dst>.+?)\s*$] *)
Definition EDGE_SIMPLE_RE : Re.regex :=
  Re.Seqs [Re.Bos; Re.Star true Re.space;
           Re.Group "src" (Re.Plus false Re.dot);
           Re.Star true Re.space; ARROW_RE; Re.Star true Re.space;
           Re.Group "dst" (Re.Plus false Re.dot);
           Re.Star true Re.space; Re.Eos].

(** [:::(?P<kind>[A-Za-z0-9_\-]+)\s*$] *)
Definition CLASS_RE : Re.regex :=
  Re.Seqs [Re.Lit (u ":::"); Re.Group "kind" (Re.Plus true Re.id_char);
           Re.Star true Re.space; Re.Eos].

(** [^(?P<id>[A-Za-z0-9_\-]+)\s*<open>\s*(?P<label>.*?)\s*<close>\s*$] *)
Definition SHAPE_RE (open close : str) : Re.regex :=
  Re.Seqs [Re.Bos; Re.Group "id" (Re.Plus true Re.id_char);
           Re.Star true Re.space; Re.Lit open; Re.Star true Re.space;
           Re.Group "label" (Re.Star false Re.dot);
           Re.Star true Re.space; Re.Lit close; Re.Star true Re.space; Re.Eos].

(** [^(?P<id>[A-Za-z0-9_\-]+)\s*$] *)
Definition BARE_ID_RE : Re.regex :=
  Re.Seqs [Re.Bos; Re.Group "id" (Re.Plus true Re.id_char);
           Re.Star true Re.space; Re.Eos].

(** The shapes in the order [split_node_token] tries them, each with its
    default kind. *)
Definition SHAPES : list (str * str * str) := [
  (u "([", u "])", u "terminal");
  (u "((", u "))", u "connector");
  (u "[[", u "]]", u "subprocess");
  (u "[(", u ")]", u "database");
  (u "[/", u "/]", u "io");
  (u "{", u "}", u "decision");
  (u "[", u "]", u "process");
  (u "(", u ")", u "process") ].

(** [kind = default; if kind_override in NODE_KIND: kind = kind_override] *)
Definition override_kind (kind_override : option str) (kind : str) : str :=
  match kind_override with
  | Some k => if in_NODE_KIND kind_override then k else kind
  | None => kind
  end.

Fixpoint match_shapes (shapes : list (str * str * str)) (s : str)
  : option (str * str * str) :=
  match shapes with
  | [] => None
  | (open, close, kind) :: rest =>
    match Re.rmatch (SHAPE_RE open close) s with
    | Some m => Some (Re.group "id" m, Re.group "label" m, kind)
    | None => match_shapes rest s
    end
  end.

(** [split_node_token]: a node expression as [(id, label, kind)]. *)
Definition split_node_token (token : str) : result (str * str * str) :=
  let s := strip token in
  let '(kind_override, s) :=
    match Re.search CLASS_RE s with
    | Some (start, m) => (Some (Re.group "kind" m), strip (firstn start s))
    | None => (None, s)
    end in
  match match_shapes SHAPES s with
  | Some (id, label, kind) => Ok (id, label, override_kind kind_override kind)
  | None =>
    match Re.rmatch BARE_ID_RE s with
    | Some m =>
      let nid := Re.group "id" m in
      Ok (nid, nid, override_kind kind_override (u "process"))
    | None =>
      let parts := split_ws s in
      match parts with
      | [] => Raise IndexError                       (* [parts[0]] *)
      | nid :: rest =>
        Ok (nid,
            if (1 <? length parts)%nat then join (u " ") rest else nid,
            override_kind kind_override (u "process"))
      end
    end
  end.

(** The mutable locals of [parse_mermaid]: [nodes] maps an id to its
    [label] and [kind]; [edges] collects (src, dst, label, variant). *)
Record ParseState := {
  p_nodes : gmap str (str * str);
  p_edges : list (str * str * str * str);
  p_alias_map : gmap (str * str * str) str
}.

Definition suffixed (nid : str) (idx : N) : str := nid ++ u "_" ++ str_of_N idx.

(** [while f"{nid}_{idx}" in nodes: idx += 1].  At most [size nodes] ids are
    taken, so [S (size nodes)] rounds reach a free one. *)
Fixpoint free_suffix (fuel : nat) (nds : gmap str (str * str)) (nid : str) (idx : N) : N :=
  match fuel with
  | O => idx
  | S f =>
    if bool_decide (is_Some (nds !! suffixed nid idx))
    then free_suffix f nds nid (idx + 1)
    else idx
  end.

Definition resolve_node_id (nid label kind : str) (ps : ParseState) : str * ParseState :=
  let key := (nid, label, kind) in
  let remember (v : str) :=
    (v, {| p_nodes := p_nodes ps; p_edges := p_edges ps;
           p_alias_map := <[key := v]> (p_alias_map ps) |}) in
  match p_alias_map ps !! key with
  | Some v => (v, ps)
  | None =>
    match p_nodes ps !! nid with
    | None => remember nid
    | Some _ =>
      remember (suffixed nid (free_suffix (S (size (p_nodes ps))) (p_nodes ps) nid 2))
    end
  end.

Definition upsert_node (nid label kind : str) (ps : ParseState) : ParseState :=
  let nds :=
    match p_nodes ps !! nid with
    | None => <[nid := (label, kind)]> (p_nodes ps)
    | Some (l0, k0) =>
      let l1 := if negb (nonempty l0) && nonempty label then label else l0 in
      let k1 := if negb (nonempty k0) && nonempty kind then kind else k0 in
      <[nid := (l1, k1)]> (p_nodes ps)
    end in
  {| p_nodes := nds; p_edges := p_edges ps; p_alias_map := p_alias_map ps |}.

Definition append_edges (es : list (str * str * str * str)) (ps : ParseState) : ParseState :=
  {| p_nodes := p_nodes ps; p_edges := p_edges ps ++ es;
     p_alias_map := p_alias_map ps |}.

(** The body shared by the two edge branches, for a given edge label. *)
Definition parse_edge (m : Re.caps) (lbl : str) (ps : ParseState) : result ParseState :=
  let src_token := strip (Re.group "src" m) in
  let dst_token := strip (Re.group "dst" m) in
  let arrow := Re.group "arrow" m in
  '(src_id_raw, src_label, src_kind) ← split_node_token src_token;
  '(dst_id_raw, dst_label, dst_kind) ← split_node_token dst_token;
  let '(src_id, ps) := resolve_node_id src_id_raw src_label src_kind ps in
  let '(dst_id, ps) := resolve_node_id dst_id_raw dst_label dst_kind ps in
  let ps := upsert_node src_id src_label src_kind ps in
  let ps := upsert_node dst_id dst_label dst_kind ps in
  let variant := default (u "solid") (table_get arrow ARROW_TO_EDGE_VARIANT) in
  Ok (if str_eqb arrow (u "<-->")
      then append_edges [(src_id, dst_id, lbl, variant); (dst_id, src_id, lbl, variant)] ps
      else append_edges [(src_id, dst_id, lbl, variant)] ps).

(** One round of [for line in lines]. *)
Definition parse_line (line : str) (ps : ParseState) : result ParseState :=
  match Re.rmatch EDGE_WITH_PIPE_LABEL_RE line with
  | Some m => parse_edge m (strip (Re.group "label" m)) ps
  | None =>
    match Re.rmatch EDGE_SIMPLE_RE line with
    | Some m => parse_edge m [] ps
    | None =>
      Ok (try_pass
            ('(nid_raw, lbl, kind) ← split_node_token line;
             let '(nid, ps1) := resolve_node_id nid_raw lbl kind ps in
             Ok (upsert_node nid lbl kind ps1))
            ps)
    end
  end.

Fixpoint parse_lines (lines : list str) (ps : ParseState) : result ParseState :=
  match lines with
  | [] => Ok ps
  | line :: rest => ps1 ← parse_line line ps; parse_lines rest ps1
  end.

(** The first loop of [parse_mermaid]: blank lines, [%%] comments and the
    header are dropped; a header sets the direction. *)
Section Engine.
Context `{PyUnicode}.

Fixpoint clean_lines (raws : list str) (direction : str) : list str * str :=
match raws with
| [] => ([], direction)
| raw :: rest =>
  let line := strip raw in
  if negb (nonempty line) then clean_lines rest direction
  else if starts_with (u "%%") line then clean_lines rest direction
  else
    match Re.rmatch FLOW_HEADER_RE line with
    | Some m => clean_lines rest (py_upper (Re.group "1" m))
    | None =>
      let '(lines, d) := clean_lines rest direction in
      (line :: lines, d)
    end
end.

Definition EMPTY_CODE_ERROR : str :=
u "⚠️ **Boş Kod:** Lütfen Mermaid kodu girin.".

Definition NO_NODES_ERROR : str :=
u "Mermaid içinden düğüm bulunamadı. (Desteklenen: `A[Metin]`, `B{Karar}`, `A --> B`, `A -->|Evet| B`)".

(** [enumerate(l)] *)
Definition enumerate {A} (l : list A) : list (nat * A) := imap (fun i x => (i, x)) l.

(** The grid of the parsed nodes, three to a row. *)
Definition build_flow_nodes (nds : gmap str (str * str)) : list StreamlitFlowNode :=
map (fun '(i, (nid, (label, kind))) =>
       let lbl := str_or label nid in
       let kind := str_or kind (u "process") in
       let pos := (0 + inject_Z (Z.of_nat (i mod 3)) * 220,
                   0 + inject_Z (Z.of_nat (i / 3)) * 120)%Q in
       make_node nid lbl kind pos)
    (enumerate (sorted (fun a b => str_ltb (fst a) (fst b)) (map_to_list nds))).

(** The key [(src, dst, label, variant)] of the edge sort. *)
Definition edge_tuple_ltb (a b : str * str * str * str) : bool :=
let '(a0, a1, a2, a3) := a in
let '(b0, b1, b2, b3) := b in
str_ltb a0 b0 || (str_eqb a0 b0 &&
 (str_ltb a1 b1 || (str_eqb a1 b1 &&
  (str_ltb a2 b2 || (str_eqb a2 b2 && str_ltb a3 b3))))).

Fixpoint build_flow_edges (es : list (str * str * str * str)) (seen_ids : gmap str N)
: list StreamlitFlowEdge :=
match es with
| [] => []
| (src, dst, lbl, variant) :: rest =>
  let base_id := build_edge_id src dst lbl variant [] in
  let '(eid, seen) :=
    match seen_ids !! base_id with
    | Some k => (build_edge_id src dst lbl variant (str_of_N (k + 1)),
                 <[base_id := k + 1]> seen_ids)
    | None => (base_id, <[base_id := 1]> seen_ids)
    end in
  let edge_type := if str_eqb variant (u "thick") then u "straight" else u "smoothstep" in
  make_edge eid src dst lbl edge_type variant :: build_flow_edges rest seen
end.

(** [parse_mermaid]: [(state, error, direction)]. *)
Definition parse_mermaid (ses : Session) (code_text : str)
: result (option StreamlitFlowState * option str * str) :=
if negb (nonempty code_text) || negb (nonempty (strip code_text)) then
  Ok (None, Some EMPTY_CODE_ERROR, session_direction ses)
else
  let '(lines, direction) := clean_lines (splitlines code_text) (session_direction ses) in
  ps ← parse_lines lines {| p_nodes := ∅; p_edges := []; p_alias_map := ∅ |};
  if bool_decide (p_nodes ps = ∅) then
    Ok (None, Some NO_NODES_ERROR, direction)
  else
    let flow_nodes := build_flow_nodes (p_nodes ps) in
    let flow_edges := build_flow_edges (sorted edge_tuple_ltb (p_edges ps)) ∅ in
    let state := make_flow_state flow_nodes flow_edges in
    Ok (Some (normalize_state ses state), None, direction).

(** ** State to Mermaid text *)

(** [[\[\]\(\)\{\}]] *)
Definition BRACKETS_RE : Re.regex := Re.Chr (Re.one_of (u "[](){}")).

(** [(-->|==>|-\\.->|--o|--x)]: in the third alternative the pattern asks
  for a backslash and then any character. *)
Definition ESCAPE_ARROWS_RE : Re.regex :=
Re.Alts [Re.Lit (u "-->"); Re.Lit (u "==>");
         Re.Seqs [Re.Lit (u "-\"); Re.Chr Re.dot; Re.Lit (u "->")];
         Re.Lit (u "--o"); Re.Lit (u "--x")].

(** [\s+] *)
Definition SPACES_RE : Re.regex := Re.Plus true Re.space.

Definition mermaid_escape_label (label : str) : str :=
let s := replace [13] (u " ") (replace [10] (u " ") label) in
let s := replace (u "|") (u "/") s in
let s := Re.sub BRACKETS_RE [] s in
let s := Re.sub ESCAPE_ARROWS_RE (u "→") s in
let s := replace (u "<-") (u "←") (replace (u "->") (u "→") s) in
strip (Re.sub SPACES_RE (u " ") s).

(** [[\[\]\(\)\{\}<>]] *)
Definition EXPORT_BRACKETS_RE : Re.regex := Re.Chr (Re.one_of (u "[](){}<>")).

(** [(-->|==>|-\\.->|--o|--x|<-->|->|<-)] *)
Definition EXPORT_ARROWS_RE : Re.regex :=
Re.Alts [Re.Lit (u "-->"); Re.Lit (u "==>");
         Re.Seqs [Re.Lit (u "-\"); Re.Chr Re.dot; Re.Lit (u "->")];
         Re.Lit (u "--o"); Re.Lit (u "--x"); Re.Lit (u "<-->");
         Re.Lit (u "->"); Re.Lit (u "<-")].

(** The class of the backquote, the double quote and the apostrophe. *)
Definition QUOTES_RE : Re.regex := Re.Chr (Re.one_of [96; 34; 39]).

(** [[^0-9A-Za-zÇĞİÖŞÜçğıöşü\\s.,;:!?+*/=%-]]: the class lists a backslash
  and the letter s, not the white space. *)
Definition UNSAFE_RE : Re.regex :=
Re.Chr (fun c =>
  negb (((48 <=? c) && (c <=? 57)) || ((65 <=? c) && (c <=? 90)) ||
        ((97 <=? c) && (c <=? 122)) ||
        Re.one_of (u "ÇĞİÖŞÜçğıöşü") c || Re.one_of (u "\s.,;:!?+*/=%-") c)).

Definition sanitize_export_label (label fallback : str) : str :=
let s := strip (replace [13] (u " ") (replace [10] (u " ") label)) in
let s := replace (u "|") (u "/") s in
let s := Re.sub EXPORT_BRACKETS_RE [] s in
let s := Re.sub EXPORT_ARROWS_RE [] s in
let s := replace (u "←") [] (replace (u "→") [] s) in
let s := Re.sub QUOTES_RE [] s in
let s := Re.sub UNSAFE_RE [] s in
let s := strip (Re.sub SPACES_RE (u " ") s) in
if negb (nonempty s) && nonempty fallback then fallback else s.

Definition template_for (tbl : list (str * (str * str))) (kind : str) : str * str :=
default (default ([], []) (table_get (u "process") tbl)) (table_get kind tbl).

Definition node_to_mermaid (n : StreamlitFlowNode) : str :=
let nid := n_id n in
let label := mermaid_escape_label (str_or (get_node_label n) nid) in
let kind := get_node_kind n in
format_template (template_for MERMAID_NODE_TEMPLATES kind) nid label.

Definition node_to_mermaid_export (n : StreamlitFlowNode) : str :=
let nid := n_id n in
let label := mermaid_escape_label (str_or (get_node_label n) nid) in
let kind := get_node_kind n in
format_template (template_for EXPORT_NODE_TEMPLATES kind) nid label.

Definition node_id_ltb (a b : StreamlitFlowNode) : bool := str_ltb (n_id a) (n_id b).

(** The key [(source, target, id)] of the edge sort. *)
Definition edge_ltb (a b : StreamlitFlowEdge) : bool :=
str_ltb (e_source a) (e_source b) || (str_eqb (e_source a) (e_source b) &&
 (str_ltb (e_target a) (e_target b) || (str_eqb (e_target a) (e_target b) &&
  str_ltb (e_id a) (e_id b)))).

Definition edge_line (src tgt arrow lbl : str) : str :=
if nonempty lbl
then u "    " ++ src ++ u " " ++ arrow ++ u "|" ++ lbl ++ u "| " ++ tgt
else u "    " ++ src ++ u " " ++ arrow ++ u " " ++ tgt.

Definition arrow_of (variant : str) : str :=
default (u "-->") (table_get variant EDGE_VARIANT_TO_ARROW).

Definition generate_mermaid (flow_state : StreamlitFlowState) (direction : str) : str :=
let direction := py_upper (str_or direction DEFAULT_DIRECTION) in
let header := [u "flowchart " ++ direction] in
let node_lines :=
  map (fun n => u "    " ++ node_to_mermaid n)
      (sorted node_id_ltb (nodes flow_state)) in
let edge_lines :=
  map (fun e => edge_line (e_source e) (e_target e)
                          (arrow_of (get_edge_variant e))
                          (mermaid_escape_label (get_edge_label e)))
      (sorted edge_ltb (edges flow_state)) in
join [10] (header ++ node_lines ++ edge_lines).

(** [{n.id: f"n{i + 1}" for i, n in enumerate(nodes_sorted)}]: a later node
  of the same id overwrites the entry. *)
Definition export_id_map (nodes_sorted : list StreamlitFlowNode) : gmap str str :=
fold_left (fun m '(i, n) => <[n_id n := u "n" ++ str_of_N (N.of_nat i + 1)]> m)
          (enumerate nodes_sorted) ∅.


End Engine.

(** ** Editing operations

    What the operations below read and write in [st.session_state]; the
    messages they show to the user are left out. *)
Record SessionState := {
  ss_flow_state : StreamlitFlowState;
  ss_direction : str;
  ss_enable_grid_snap : bool;
  ss_code_text : str;
  ss_last_code_hash : str;
  ss_history : HistoryManager.t;
  ss_last_active_node_id : option str;
  ss_auto_connect_anchor : option str;
  ss_edge_counter : N
}.

Definition session_of (ss : SessionState) : Session :=
  {| session_direction := ss_direction ss; enable_grid_snap := ss_enable_grid_snap ss |}.

(** [text_hash] *)
Definition text_hash (text : str) : str := MD5.hexdigest (utf8_encode text).

(** [if st.session_state.<field> == node_id: st.session_state.<field> = None] *)
Definition clear_if (node_id : str) (v : option str) : option str :=
  match v with
  | Some x => if str_eqb x node_id then None else v
  | None => None
  end.

(** [e.source, e.target = e.target, e.source] *)
Definition swap_ends (e : StreamlitFlowEdge) : StreamlitFlowEdge :=
  {| e_id := e_id e; e_source := e_target e; e_target := e_source e;
     e_label := e_label e; e_edge_type := e_edge_type e; e_variant := e_variant e |}.

(** [find_node], and [find_edge] as the reference to the edge found. *)
Definition find_node (node_id : str) (fs : StreamlitFlowState) : option StreamlitFlowNode :=
  find (fun n => str_eqb (n_id n) node_id) (nodes fs).

Definition find_edge (edge_id : str) (fs : StreamlitFlowState) : option nat :=
  fst <$> list_find (fun e => e_id e = edge_id) (edges fs).

Section Editing.
Context `{PyUnicode}.

(** The three lines that end every editing operation: [normalize_state],
    [sync_code_text(generate_mermaid(...))] and [history.push(...)], with
    [now] for the reading of the clock. *)
Definition normalize_sync_push (action : str) (now : Q) (fs : StreamlitFlowState)
    (ss : SessionState) : SessionState :=
let fs := normalize_state (session_of ss) fs in
let code := generate_mermaid fs (ss_direction ss) in
{| ss_flow_state := fs;
   ss_direction := ss_direction ss;
   ss_enable_grid_snap := ss_enable_grid_snap ss;
   ss_code_text := code;
   ss_last_code_hash := text_hash code;
   ss_history :=
     HistoryManager.push
       {| HistoryManager.pa_code_text := code; HistoryManager.pa_flow_state := fs;
          HistoryManager.pa_action := action; HistoryManager.pa_now := now |}
       (ss_history ss);
   ss_last_active_node_id := ss_last_active_node_id ss;
   ss_auto_connect_anchor := ss_auto_connect_anchor ss;
   ss_edge_counter := ss_edge_counter ss |}.

Definition delete_node (node_id : str) (now : Q) (ss : SessionState) : SessionState :=
let fs := ss_flow_state ss in
let fs1 :=
  {| nodes := List.filter (fun n => negb (str_eqb (n_id n) node_id)) (nodes fs);
     edges := List.filter (fun e => negb (str_eqb (e_source e) node_id)
                                    && negb (str_eqb (e_target e) node_id)) (edges fs) |} in
let ss1 :=
  {| ss_flow_state := fs1;
     ss_direction := ss_direction ss;
     ss_enable_grid_snap := ss_enable_grid_snap ss;
     ss_code_text := ss_code_text ss;
     ss_last_code_hash := ss_last_code_hash ss;
     ss_history := ss_history ss;
     ss_last_active_node_id := clear_if node_id (ss_last_active_node_id ss);
     ss_auto_connect_anchor := clear_if node_id (ss_auto_connect_anchor ss);
     ss_edge_counter := ss_edge_counter ss |} in
normalize_sync_push (u "delete_node") now fs1 ss1.

Definition delete_edge (edge_id : str) (now : Q) (ss : SessionState) : SessionState :=
let fs := ss_flow_state ss in
let fs1 :=
  {| nodes := nodes fs;
     edges := List.filter (fun e => negb (str_eqb (e_id e) edge_id)) (edges fs) |} in
normalize_sync_push (u "delete_edge") now fs1 ss.

Definition reverse_edge (edge_id : str) (now : Q) (ss : SessionState) : SessionState :=
let fs := ss_flow_state ss in
match find_edge edge_id fs with
| None => ss
| Some r =>
  let fs1 := {| nodes := nodes fs; edges := alter swap_ends r (edges fs) |} in
  normalize_sync_push (u "reverse_edge") now fs1 ss
end.

(** [next_edge_id] *)
Definition next_edge_id (source target : str) (counter : N) : str :=
u "e" ++ str_of_N counter ++ u "_" ++ source ++ u "_" ++ target.

Definition add_edge (source target label edge_type variant : str) (now : Q)
    (ss : SessionState) : SessionState :=
let fs := ss_flow_state ss in
if str_eqb source target then ss
else if negb (bool_decide (is_Some (find_node source fs)))
        || negb (bool_decide (is_Some (find_node target fs))) then ss
else if existsb (fun e => str_eqb (e_source e) source && str_eqb (e_target e) target
                          && str_eqb (get_edge_label e) label) (edges fs) then ss
else
  let counter := ss_edge_counter ss + 1 in
  let eid := next_edge_id source target counter in
  let fs1 :=
    {| nodes := nodes fs;
       edges := edges fs ++ [make_edge eid source target label edge_type variant] |} in
  let ss1 :=
    {| ss_flow_state := fs;
       ss_direction := ss_direction ss;
       ss_enable_grid_snap := ss_enable_grid_snap ss;
       ss_code_text := ss_code_text ss;
       ss_last_code_hash := ss_last_code_hash ss;
       ss_history := ss_history ss;
       ss_last_active_node_id := ss_last_active_node_id ss;
       ss_auto_connect_anchor := ss_auto_connect_anchor ss;
       ss_edge_counter := counter |} in
  normalize_sync_push (u "add_edge") now fs1 ss1.

End Editing.

(** ** Analysis and repair *)

(** An adjacency dictionary holds the edge objects of [flow_state.edges]
    themselves; a reference to such an object is its position in that list. *)
Abbreviation adjacency := (gmap (list N) (list nat)).

Section Analysis.
Context `{PyUnicode}.

Definition is_start_node (node : StreamlitFlowNode) : bool :=
let label := py_lower (get_node_label node) in
if negb (str_eqb (get_node_kind node) (u "terminal")) then false
else existsb (fun k => contains k label)
             [u "başla"; u "basla"; u "start"; u "giriş"; u "giris"].

Definition is_end_node (node : StreamlitFlowNode) : bool :=
let label := py_lower (get_node_label node) in
if negb (str_eqb (get_node_kind node) (u "terminal")) then false
else existsb (fun k => contains k label)
             [u "bitir"; u "son"; u "end"; u "çıkış"; u "cikis"].


(** [d.get(k, [])] *)
Definition adj_get (d : adjacency) (k : str) : list nat := default [] (d !! k).

(** [d[k].append(v)] on a [defaultdict(list)] *)
Definition adj_append (k : str) (v : nat) (d : adjacency) : adjacency :=
<[k := adj_get d k ++ [v]]> d.

Definition build_graph (flow_state : StreamlitFlowState) : adjacency * adjacency :=
fold_left (fun '(out_edges, in_edges) '(i, e) =>
             (adj_append (e_source e) i out_edges,
              adj_append (e_target e) i in_edges))
          (enumerate (edges flow_state)) (∅, ∅).

(** [[e.target for e in out_edges.get(nid, [])]] *)
Definition targets_of (out_edges : adjacency) (store : list StreamlitFlowEdge) (nid : str)
: list str :=
omap (fun i => e_target <$> store !! i) (adj_get out_edges nid).

(** The [while q:] loop of the reachability search.  [None]: the rounds
  allowed did not empty the queue. *)
Fixpoint bfs_loop (fuel : nat) (succ : str -> list str) (q : list str) (reachable : gset str)
: option (gset str) :=
match q with
| [] => Some reachable
| nid :: q' =>
  match fuel with
  | O => None
  | S f =>
    if bool_decide (nid ∈ reachable) then bfs_loop f succ q' reachable
    else bfs_loop f succ (q' ++ succ nid) ({[nid]} ∪ reachable)
  end
end.

(** Every round removes a queued id, and only the first visit of a node
  queues its targets: [length roots + length edges] rounds empty the queue. *)
Definition reachable_from (flow_state : StreamlitFlowState) (out_edges : adjacency)
  (roots : list StreamlitFlowNode) : option (gset str) :=
bfs_loop (length roots + length (edges flow_state))
         (targets_of out_edges (edges flow_state)) (map n_id roots) ∅.

(** The roots of the search: the start nodes, else the nodes without an
  incoming edge, else the first node. *)
Definition start_candidates (nds : list StreamlitFlowNode) (in_edges : adjacency)
: list StreamlitFlowNode :=
let start_nodes := List.filter is_start_node nds in
if (0 <? length start_nodes)%nat then start_nodes
else
  let roots := List.filter (fun n => (length (adj_get in_edges (n_id n)) =? 0)%nat) nds in
  if (0 <? length roots)%nat then roots else firstn 1 nds.

(** The edges of the first branch: [nodes[i] -> nodes[i + 1]]. *)
Definition chain_all (nds : list StreamlitFlowNode) : list StreamlitFlowEdge :=
omap (fun i =>
        match nds !! i, nds !! S i with
        | Some a, Some b =>
          let src := n_id a in
          let tgt := n_id b in
          let eid := build_edge_id src tgt [] (u "solid") (str_of_N (N.of_nat i)) in
          Some (make_edge eid src tgt [] (u "smoothstep") (u "solid"))
        | _, _ => None
        end)
     (seq 0 (length nds - 1)).

(** The loop that stitches the unreachable nodes after [tail]; [idx] counts
  them from 1. *)
Fixpoint stitch (idx : N) (tail : str) (unreachable : list StreamlitFlowNode)
: list StreamlitFlowEdge :=
match unreachable with
| [] => []
| n :: rest =>
  if str_eqb (n_id n) tail then stitch (idx + 1) tail rest
  else
    let eid := build_edge_id tail (n_id n) [] (u "solid") (u "fix" ++ str_of_N idx) in
    make_edge eid tail (n_id n) [] (u "smoothstep") (u "solid")
      :: stitch (idx + 1) (n_id n) rest
end.

(** [dead_ends[-1].id if dead_ends else nodes[0].id], where a dead end is a
  reached node without an outgoing edge. *)
Definition stitch_tail (nds : list StreamlitFlowNode) (out_edges : adjacency)
  (reachable : gset str) (n0 : StreamlitFlowNode) : str :=
let dead_ends :=
  List.filter (fun n => bool_decide (n_id n ∈ reachable)
                        && (length (adj_get out_edges (n_id n)) =? 0)%nat) nds in
match last dead_ends with
| Some d => n_id d
| None => n_id n0
end.

(** [[n for n in nodes if n.id not in reachable]] *)
Definition unreachable_nodes (nds : list StreamlitFlowNode) (reachable : gset str)
: list StreamlitFlowNode :=
List.filter (fun n => negb (bool_decide (n_id n ∈ reachable))) nds.

Definition enforce_connected_flow (flow_state : StreamlitFlowState)
: option StreamlitFlowState :=
let nds := nodes flow_state in
let eds := edges flow_state in
match nds with
| [] | [_] => Some flow_state
| n0 :: _ =>
  if (length eds =? 0)%nat then
    Some {| nodes := nds; edges := chain_all nds |}
  else
    let '(out_edges, in_edges) := build_graph flow_state in
    let roots := start_candidates nds in_edges in
    reachable ← reachable_from flow_state out_edges roots;
    if (size reachable <? length nds)%nat then
      let '(out_edges, _) := build_graph flow_state in
      let tail := stitch_tail nds out_edges reachable n0 in
      Some {| nodes := nds;
              edges := eds ++ stitch 1 tail (unreachable_nodes nds reachable) |}
    else Some flow_state
end.

(** [^[^\wÇĞİÖŞÜçğıöşü]+] *)
Definition LEADING_SYMBOLS_RE : Re.regex :=
Re.Seq Re.Bos
  (Re.Plus true (fun c => negb (py_isalnum c || (c =? 95)
                                || Re.one_of (u "ÇĞİÖŞÜçğıöşü") c))).

Definition normalize_label_text (label : str) : str :=
let text := strip label in
let text := strip (Re.sub LEADING_SYMBOLS_RE [] text) in
strip (Re.sub SPACES_RE (u " ") text).

Definition normalize_decision_label (value : str) : str :=
let raw := normalize_label_text value in
let lower := py_lower raw in
if existsb (str_eqb lower) [u "evet"; u "yes"; u "y"; u "true"; u "t"] then u "Evet"
else if existsb (str_eqb lower) [u "hayır"; u "hayir"; u "no"; u "n"; u "false"; u "f"]
then u "Hayır"
else raw.

(** Reading and assigning [e.label] through a reference. *)
Definition label_at (store : list StreamlitFlowEdge) (r : nat) : str :=
default [] (get_edge_label <$> store !! r).

Definition set_label_at (r : nat) (lbl : str) (store : list StreamlitFlowEdge)
: list StreamlitFlowEdge :=
alter (set_label lbl) r store.

(** [for e in edges[:2]: ...]: the labels already there are normalised. *)
Definition normalize_first_two (refs : list nat) (store : list StreamlitFlowEdge)
: list StreamlitFlowEdge :=
fold_left (fun store r =>
             let current := label_at store r in
             let updated := normalize_decision_label current in
             if nonempty updated && negb (str_eqb updated current)
             then set_label_at r updated store else store)
          (firstn 2 refs) store.

(** The body of the loop of [ensure_decision_edge_labels] for one decision
  node whose outgoing edges are [refs]. *)
Definition label_decision_edges (refs : list nat) (store : list StreamlitFlowEdge)
: list StreamlitFlowEdge :=
match refs with
| r0 :: r1 :: _ =>
  let store := normalize_first_two refs store in
  let labels := map (fun r => py_lower (strip (label_at store r))) (firstn 2 refs) in
  if negb (existsb nonempty labels) then
    set_label_at r1 (u "Hayır") (set_label_at r0 (u "Evet") store)
  else
    let store :=
      if negb (existsb (contains (u "evet")) labels)
      then set_label_at r0 (u "Evet") store else store in
    if (2 <=? length refs)%nat
       && negb (existsb (fun lbl => contains (u "hayır") lbl || contains (u "hayir") lbl)
                        labels)
    then set_label_at r1 (u "Hayır") store else store
| _ => store
end.

Definition ensure_decision_edge_labels (flow_state : StreamlitFlowState)
: StreamlitFlowState :=
let '(out_edges, _) := build_graph flow_state in
{| nodes := nodes flow_state;
   edges :=
     fold_left (fun store n =>
                  if negb (str_eqb (get_node_kind n) (u "decision")) then store
                  else label_decision_edges (adj_get out_edges (n_id n)) store)
               (nodes flow_state) (edges flow_state) |}.

(** [color.get(k, 0)]: 0 unseen, 1 visiting, 2 done. *)
Definition color_get (color : gmap str nat) (k : str) : nat := default 0%nat (color !! k).

(** The loop [for e in out_edges.get(nid, [])] of [dfs], over the targets
    that are left; [rec] is the recursive call. *)
Fixpoint dfs_visit (rec : str -> gmap str nat -> option (bool * gmap str nat))
    (nid : str) (tgts : list str) (color : gmap str nat) : option (bool * gmap str nat) :=
  match tgts with
  | [] => Some (false, <[nid := 2%nat]> color)
  | tgt :: rest =>
    if (color_get color tgt =? 1)%nat then Some (true, color)
    else if (color_get color tgt =? 0)%nat then
      match rec tgt color with
      | None => None
      | Some (true, color') => Some (true, color')
      | Some (false, color') => dfs_visit rec nid rest color'
      end
    else dfs_visit rec nid rest color
  end.

(** [dfs] of [detect_cycle], returning its result and the colours it leaves;
    [fuel] bounds the depth of the recursion and [None] says that the bound
    was reached. *)
Fixpoint dfs (fuel : nat) (succ : str -> list str) (nid : str) (color : gmap str nat)
  : option (bool * gmap str nat) :=
  match fuel with
  | O => None
  | S f => dfs_visit (dfs f succ) nid (succ nid) (<[nid := 1%nat]> color)
  end.

(** The keys of [{n.id: 0 for n in nodes}] in insertion order. *)
Fixpoint color_keys (seen : gset str) (nds : list StreamlitFlowNode) : list str :=
match nds with
| [] => []
| n :: rest =>
  if bool_decide (n_id n ∈ seen) then color_keys seen rest
  else n_id n :: color_keys ({[n_id n]} ∪ seen) rest
end.

Fixpoint detect_cycle_loop (fuel : nat) (succ : str -> list str) (keys : list str)
  (color : gmap str nat) : option bool :=
match keys with
| [] => Some false
| node_id :: rest =>
  if (color_get color node_id =? 0)%nat then
    match dfs fuel succ node_id color with
    | None => None
    | Some (true, _) => Some true
    | Some (false, color') => detect_cycle_loop fuel succ rest color'
    end
  else detect_cycle_loop fuel succ rest color
end.

(** [detect_cycle(nodes, out_edges)]; [store] holds the edge objects that
  [out_edges] refers to.  A call of [dfs] colours a fresh id, and the ids
  are those of the nodes and of the edge targets. *)
Definition detect_cycle (nds : list StreamlitFlowNode) (out_edges : adjacency)
  (store : list StreamlitFlowEdge) : option bool :=
let color : gmap str nat := list_to_map (map (fun n => (n_id n, 0%nat)) nds) in
detect_cycle_loop (S (length nds + length store)) (targets_of out_edges store)
                  (color_keys ∅ nds) color.

End Analysis.

(** ** Statements about the history *)
Module HistoryFacts.
Import HistoryManager.

(** After the snapshots [ps] were pushed on a fresh manager, the first
    [m - 1] of [m] calls of [undo] return an entry and the last one
    returns none. *)
Definition floor_after (m : nat) (ps : list push_args) : Prop :=
  let rs := fst (undo_calls m (push_all ps init)) in
  (∀ k, (k < m - 1)%nat → ∃ e, rs !! k = Some (Some e)) ∧
  rs !! (m - 1)%nat = Some None.

(** The calls a user of the manager can make, and a sequence of them. *)
Inductive op := Push (a : push_args) | Undo | Redo.

Definition step (o : op) (h : t) : t :=
  match o with
  | Push a => push a h
  | Undo => snd (undo h)
  | Redo => snd (redo h)
  end.

Definition run_ops (os : list op) (h : t) : t := fold_left (fun h o => step o h) os h.
End HistoryFacts.

(** ** Statements about graphs *)

(** The targets of the edges that leave [k], in the order of the edge list. *)
Definition succs (store : list StreamlitFlowEdge) (k : str) : list str :=
  map e_target (List.filter (fun e => str_eqb (e_source e) k) store).

(** The references to the edges of [store] that leave ([true]) or enter
    ([false]) the node [k]. *)
Definition refs_of (out : bool) (k : str) (store : list StreamlitFlowEdge) : list nat :=
  map fst (List.filter (fun '(_, e) => str_eqb (if out then e_source e else e_target e) k)
                       (enumerate store)).

(** The edges whose source has not been visited yet. *)
Definition pending (R : gset str) (store : list StreamlitFlowEdge) : list StreamlitFlowEdge :=
  List.filter (fun e => negb (bool_decide (e_source e ∈ R))) store.

(** [path es x y]: the edges [es] lead from [x] to [y] in zero or more steps. *)
Inductive path (es : list StreamlitFlowEdge) : str -> str -> Prop :=
| path_refl x : path es x x
| path_step x y z : path es x y -> In z (succs es y) -> path es x z.

(** [x] lies on a cycle; the graph has a cycle. *)
Definition on_cycle (es : list StreamlitFlowEdge) (x : str) : Prop :=
  exists y, In y (succs es x) /\ path es y x.

Definition has_cycle (es : list StreamlitFlowEdge) : Prop := exists x, on_cycle es x.

(** Every edge starts and ends at a node of the graph. *)
Definition edges_within (G : StreamlitFlowState) : Prop :=
  forall e, In e (edges G) ->
    In (e_source e) (map n_id (nodes G)) /\ In (e_target e) (map n_id (nodes G)).

(** The ids the search can colour, and those still unseen. *)
Definition universe (nds : list StreamlitFlowNode) (es : list StreamlitFlowEdge) : gset str :=
  list_to_set (map n_id nds ++ map e_target es).

Definition whites (U : gset str) (color : gmap str nat) : gset str :=
  filter (fun x => color_get color x = 0%nat) U.

(** The invariant of the colours: a finished node has finished successors
    only, and lies on no cycle. *)
Definition dfs_inv (es : list StreamlitFlowEdge) (color : gmap str nat) : Prop :=
  (forall x y, (2 <= color_get color x)%nat -> In y (succs es x) ->
               (2 <= color_get color y)%nat) /\
  (forall x, (2 <= color_get color x)%nat -> ~ on_cycle es x).

(** What a call of [dfs] that found nothing leaves: the node is finished,
    the nodes being visited are the same, no finished node is reopened. *)
Definition dfs_post (es : list StreamlitFlowEdge) (nid : str)
    (color color' : gmap str nat) : Prop :=
  dfs_inv es color' /\
  (2 <= color_get color' nid)%nat /\
  (forall x, color_get color' x = 1%nat <-> color_get color x = 1%nat) /\
  (forall x, (2 <= color_get color x)%nat -> (2 <= color_get color' x)%nat).

(** ** Statements about the round trip *)

(** Letters, digits and the underscore: the characters of an id that the
    grammar reads back whatever stands next to it. *)
Definition word_char (c : N) : bool :=
  ((65 <=? c) && (c <=? 90)) || ((97 <=? c) && (c <=? 122)) ||
  ((48 <=? c) && (c <=? 57)) || (c =? 95).

(** The characters that the grammar or the escaping of labels gives a
    meaning to: white space and [| [ ] ( ) { } < - = : /]. *)
Definition special_char (c : N) : bool :=
  py_isspace c || (c =? 124) || (c =? 91) || (c =? 93) || (c =? 40) || (c =? 41) ||
  (c =? 123) || (c =? 125) || (c =? 60) || (c =? 45) || (c =? 61) || (c =? 58) ||
  (c =? 47).

Definition plain_char (c : N) : bool := negb (special_char c).

Definition safe_id (s : str) : Prop := s <> [] /\ forallb word_char s = true.

Definition plain_label (s : str) : Prop := s <> [] /\ forallb plain_char s = true.

(** What the round trip is about: the id, the label and the kind of a node. *)
Definition node_fields (n : StreamlitFlowNode) : str * str * str :=
  (n_id n, n_label n, n_kind n).

(** No two edges agree on source, target and label. *)
Definition edge_key (e : StreamlitFlowEdge) : str * str * str :=
  (e_source e, e_target e, get_edge_label e).

(** The text and the history mirror the graph: the text is the one
    generated from the graph and the newest history entry records both. *)
Definition in_sync `{PyUnicode} (ss : SessionState) : Prop :=
  ss_code_text ss = generate_mermaid (ss_flow_state ss) (ss_direction ss) /\
  ss_last_code_hash ss = text_hash (ss_code_text ss) /\
  exists entry, last (HistoryManager.undo_stack (ss_history ss)) = Some entry /\
                code_text entry = ss_code_text ss /\
                node_snapshot entry = serialize_nodes (nodes (ss_flow_state ss)) /\
                edge_snapshot entry = serialize_edges (edges (ss_flow_state ss)).

(** The digits of a hexadecimal numeral in lower case. *)
Definition hex_char (c : N) : bool :=
  ((48 <=? c) && (c <=? 57)) || ((97 <=? c) && (c <=? 102)).

(** What a pass over the labels must leave alone in an edge. *)
Definition edge_frame (e : StreamlitFlowEdge) : str * str * str * str * str :=
  (e_id e, e_source e, e_target e, e_edge_type e, e_variant e).

(** Both ends of every edge the parser has collected are declared nodes. *)
Definition edges_declared (ps : ParseState) : Prop :=
  forall e, In e (p_edges ps) ->
    is_Some (p_nodes ps !! fst (fst (fst e))) /\ is_Some (p_nodes ps !! snd (fst (fst e))).

(** The characters [sanitize_export_label] lets through: digits, ASCII
    letters, the Turkish letters, the backslash and [. , ; : ! ? + * / = % -]. *)
Definition export_char (c : N) : bool :=
  ((48 <=? c) && (c <=? 57)) || ((65 <=? c) && (c <=? 90)) || ((97 <=? c) && (c <=? 122)) ||
  (c =? 199) || (c =? 286) || (c =? 304) || (c =? 214) || (c =? 350) || (c =? 220) ||
  (c =? 231) || (c =? 287) || (c =? 305) || (c =? 246) || (c =? 351) || (c =? 252) ||
  (c =? 92) || (c =? 115) || (c =? 46) || (c =? 44) || (c =? 59) || (c =? 58) ||
  (c =? 33) || (c =? 63) || (c =? 43) || (c =? 42) || (c =? 47) || (c =? 61) ||
  (c =? 37) || (c =? 45).

(** The characters an arrow starts with, and the strings without them. *)
Definition arrow_char (c : N) : bool := (45 =? c) || (61 =? c) || (60 =? c).

Definition arrow_free (s : str) : bool := forallb (fun c => negb (arrow_char c)) s.

(** A node the grammar writes and reads back as it is: an id of word
    characters, a label of plain characters, one of the known kinds. *)
Definition plain_node (n : StreamlitFlowNode) : Prop :=
  safe_id (n_id n) /\ plain_label (n_label n) /\ in_NODE_KIND (Some (n_kind n)) = true.

(** What the reading of a line asks of a template [(a, b)]: no arrow and no
    line break in it, [a] starts with a character that is neither a word
    character nor white space, [b] does not end with white space. *)
Definition no_linebreak (s : str) : bool := forallb (fun c => negb (is_linebreak c)) s.

Definition template_chars_ok (tpl : str * str) : bool :=
  arrow_free (fst tpl) && arrow_free (snd tpl) &&
  no_linebreak (fst tpl) && no_linebreak (snd tpl) &&
  match fst tpl with
  | x :: _ => negb (word_char x) && negb (py_isspace x)
  | [] => false
  end &&
  match last (snd tpl) with
  | Some x => negb (py_isspace x)
  | None => false
  end.

(** The literal [o] starts with a character that is no word character and
    does not match at the start of [rest]. *)
Definition literal_rejects (o rest : str) : Prop :=
  (exists ho o', o = ho :: o' /\ forall x, word_char x = true -> (ho =? x) = false) /\
  forall (k : @Re.cont (nat * Re.caps)) pos cp, Re.run (Re.Lit o) k pos rest cp = None.

(** The first character of [s], if there is one, is not in the class [p]. *)
Definition blocked (p : N -> bool) (s : str) : Prop :=
  match s with
  | [] => True
  | x :: _ => p x = false
  end.

(** The continuation [k] rejects every suffix of [s]. *)
Definition rejects_suffixes {A} (k : @Re.cont A) (s : str) : Prop :=
  forall t pos c, t `suffix_of` s -> k pos t c = None.

(** Consecutive pairs of a list. *)
Definition pairs_of {A} (l : list A) : list (A * A) := zip l (tail l).

Definition endpoints (e : StreamlitFlowEdge) : str * str := (e_source e, e_target e).

(** The edges of [G'] form one chain through the ids [order], each edge
    joining an id to the next one. *)
Definition chain_through (order : list str) (G' : StreamlitFlowState) : Prop :=
  map endpoints (edges G') = pairs_of order.

Section ConnectivityStatements.
Context `{PyUnicode}.

(** The repair of a graph without edges yields [n - 1] edges that form one
    chain through the ids [order G]. *)
Definition edgeless_repair_chains (order : StreamlitFlowState -> list str)
    (G : StreamlitFlowState) : Prop :=
  exists G', enforce_connected_flow G = Some G' /\
             length (edges G') = (length (nodes G) - 1)%nat /\
             chain_through (order G) G'.

Definition ascending_ids (G : StreamlitFlowState) : list str :=
  sorted str_ltb (map n_id (nodes G)).

Definition listed_ids (G : StreamlitFlowState) : list str := map n_id (nodes G).

(** The root set of a graph and what the search reaches from it. *)
Definition roots_of (G : StreamlitFlowState) : list StreamlitFlowNode :=
  start_candidates (nodes G) (snd (build_graph G)).

Definition reach_set (G : StreamlitFlowState) : option (gset str) :=
  reachable_from G (fst (build_graph G)) (roots_of G).

(** Every node is in the set reached from the roots, and there is a root. *)
Definition connected_from_roots (G : StreamlitFlowState) : Prop :=
  roots_of G <> [] /\
  exists R, reach_set G = Some R /\ forall n, In n (nodes G) -> n_id n ∈ R.

Definition connectivity_post (G : StreamlitFlowState) : Prop :=
  exists G', enforce_connected_flow G = Some G' /\ nodes G' = nodes G /\
             connected_from_roots G'.

(** The graphs on which the repair reaches its goal.  Without edges: the
    chain starts at the first node, which must be a root.  With edges: the
    chain of stitched nodes is hung on the last reached node without an
    outgoing edge, else on the first node, which must then be reached. *)
Definition repair_anchored (G : StreamlitFlowState) : Prop :=
  match nodes G, edges G with
  | n0 :: _, [] =>
    is_start_node n0 = true \/ Forall (fun n => is_start_node n = false) (nodes G)
  | n0 :: _, _ :: _ =>
    exists R, reach_set G = Some R /\
      ((exists d, In d (nodes G) /\ n_id d ∈ R /\ succs (edges G) (n_id d) = []) \/
       n_id n0 ∈ R)
  | [], _ => True
  end.

(** Every edge ends at a node of the graph. *)
Definition targets_exist (G : StreamlitFlowState) : Prop :=
  Forall (fun e => In (e_target e) (map n_id (nodes G))) (edges G).
End ConnectivityStatements.

(** ** Statements about the decision labels *)
Section DecisionStatements.
Context `{PyUnicode}.






End DecisionStatements.

(** ** File names and the direction of a text *)

(** [[^0-9A-Za-zÇĞİÖŞÜçğıöşü _\-]] *)
Definition FILENAME_UNSAFE_RE : Re.regex :=
Re.Chr (fun c =>
  negb (((48 <=? c) && (c <=? 57)) || ((65 <=? c) && (c <=? 90)) ||
        ((97 <=? c) && (c <=? 122)) ||
        Re.one_of (u "ÇĞİÖŞÜçğıöşü") c || Re.one_of (u " _-") c)).

Definition safe_filename (name suffix : str) : str :=
let name := str_or (strip name) (u "akis_semasi") in
let name := Re.sub FILENAME_UNSAFE_RE (u "_") name in
let name := strip (Re.sub SPACES_RE (u " ") name) in
name ++ suffix.

(** The characters [safe_filename] lets through. *)
Definition filename_char (c : N) : bool :=
  ((48 <=? c) && (c <=? 57)) || ((65 <=? c) && (c <=? 90)) || ((97 <=? c) && (c <=? 122)) ||
  (c =? 199) || (c =? 286) || (c =? 304) || (c =? 214) || (c =? 350) || (c =? 220) ||
  (c =? 231) || (c =? 287) || (c =? 305) || (c =? 246) || (c =? 351) || (c =? 252) ||
  (c =? 32) || (c =? 95) || (c =? 45).

Section Direction.
Context `{PyUnicode}.

(** The loop of [extract_direction_from_code] over the lines of the text. *)
Fixpoint extract_direction_lines (raws : list str) : option str :=
match raws with
| [] => None
| raw :: rest =>
  match Re.rmatch FLOW_HEADER_RE (strip raw) with
  | Some m => Some (py_upper (Re.group "1" m))
  | None => extract_direction_lines rest
  end
end.

Definition extract_direction_from_code (code : str) : option str :=
if negb (nonempty code) then None
else extract_direction_lines (splitlines code).

End Direction.

(** ** Counters *)

(** The decimal digits of Unicode, each with its value: the class [\d] of
    [re] on [str] patterns, which [int] reads as well. *)
Class PyDigits := { py_digit : N -> option N }.

(** The table on ASCII; other code points are classed as no digits. *)
#[export] Instance ascii_digits : PyDigits := {|
  py_digit := fun c => if (48 <=? c) && (c <=? 57) then Some (c - 48) else None
|}.

(** What the development uses of the table: the ASCII digits have their
    values and the underscore is no digit. *)
Definition digits_lawful `{PyDigits} : Prop :=
  (forall c, 48 <= c -> c <= 57 -> py_digit c = Some (c - 48)) /\ py_digit 95 = None.

(** The digits [str] writes a number with. *)
Definition ascii_digit (c : N) : bool := (48 <=? c) && (c <=? 57).

Section Counters.
Context `{PyDigits}.

Definition is_digit (c : N) : bool :=
  match py_digit c with Some _ => true | None => false end.

(** [int(s)] of a string of decimal digits. *)
Definition int_of_digits (s : str) : N :=
  fold_left (fun a c => 10 * a + default 0 (py_digit c)) s 0.

(** [^n(\d+)$] *)
Definition NODE_COUNTER_RE : Re.regex :=
  Re.Seqs [Re.Bos; Re.Lit (u "n"); Re.Group "1" (Re.Plus true is_digit); Re.Eos].

(** [^e(\d+)_] *)
Definition EDGE_COUNTER_RE : Re.regex :=
  Re.Seqs [Re.Bos; Re.Lit (u "e"); Re.Group "1" (Re.Plus true is_digit); Re.Lit (u "_")].

(** The values stored in [node_counter] and [edge_counter]. *)
Definition sync_counters_from_state (flow_state : StreamlitFlowState) : N * N :=
let max_node :=
  fold_left (fun max_node n =>
               match Re.rmatch NODE_COUNTER_RE (n_id n) with
               | Some m => N.max max_node (int_of_digits (Re.group "1" m))
               | None => max_node
               end) (nodes flow_state) 1 in
let max_edge :=
  fold_left (fun max_edge e =>
               match Re.rmatch EDGE_COUNTER_RE (e_id e) with
               | Some m => N.max max_edge (int_of_digits (Re.group "1" m))
               | None => max_edge
               end) (edges flow_state) 1 in
(max_node, max_edge).

End Counters.

(** [next_node_id], with the counter already incremented. *)
Definition next_node_id (counter : N) : str := u "n" ++ str_of_N counter.

(** * Properties *)

(** ** Sanity checks of the runtime model *)
Example md5_abc :
  MD5.hexdigest (utf8_encode (u "abc")) = u "900150983cd24fb0d6963f7d28e17f72".
Proof. vm_compute. reflexivity. Qed.

Example md5_two_blocks :
  MD5.hexdigest (repeat 97 70) = u "0f5c6c4e740bfcc08c3c26ccb2673d46".
Proof. vm_compute. reflexivity. Qed.

Example build_edge_id_ab :
  build_edge_id (u "a") (u "b") [] (u "solid") (u "0") = u "e_0930be73_a_b".
Proof. vm_compute. reflexivity. Qed.


(** ** History manager *)
Section History.
Import HistoryManager HistoryFacts.
Local Open Scope nat_scope.

Lemma push_undo_length (a : push_args) (h : t) :
  length (undo_stack h) <= MAX_HISTORY ->
  length (undo_stack (push a h)) = Nat.min (S (length (undo_stack h))) MAX_HISTORY.
Proof.
  intros Hle. unfold push; cbn [undo_stack].
  set (entry := Build_HistoryEntry _ _ _ _ _).
  assert (Hl : length (undo_stack h ++ [entry]) = S (length (undo_stack h))).
  { rewrite length_app. cbn. lia. }
  destruct (Nat.ltb_spec MAX_HISTORY (length (undo_stack h ++ [entry]))) as [Hlt | Hge].
  - unfold pop_front. destruct (undo_stack h ++ [entry]) as [| x l]; cbn in *;
      unfold MAX_HISTORY in *; lia.
  - unfold MAX_HISTORY in *. lia.
Qed.

Lemma push_all_undo_length (ps : list push_args) (h : t) :
  length (undo_stack h) <= MAX_HISTORY ->
  length (undo_stack (push_all ps h)) =
    Nat.min (length (undo_stack h) + length ps) MAX_HISTORY.
Proof.
  revert h. induction ps as [| a ps IH]; intros h Hle; cbn [push_all fold_left length].
  - unfold MAX_HISTORY in *. lia.
  - fold (push_all ps (push a h)). rewrite IH; rewrite push_undo_length by assumption;
      unfold MAX_HISTORY in *; lia.
Qed.

Lemma undo_short (h : t) :
  length (undo_stack h) < 2 -> undo h = (None, h).
Proof.
  intros Hlt. unfold undo.
  destruct (Nat.ltb_spec (length (undo_stack h)) 2); [reflexivity | lia].
Qed.

Lemma undo_long (h : t) :
  2 <= length (undo_stack h) ->
  exists e h', undo h = (Some e, h') /\
               undo_stack h' = removelast (undo_stack h).
Proof.
  intros Hge. unfold undo.
  destruct (Nat.ltb_spec (length (undo_stack h)) 2) as [? | _]; [lia |].
  destruct (undo_stack h) as [| x l] eqn:Hs using rev_ind; [cbn in Hge; lia |].
  rewrite last_snoc. unfold pop_back. rewrite removelast_last.
  destruct l as [| y l'] using rev_ind.
  - cbn in Hge. lia.
  - rewrite last_snoc. eexists _, _. split; reflexivity.
Qed.

(** [m] calls of [undo] on a stack of [m >= 1] entries. *)
Lemma undo_calls_floor (m : nat) (h : t) :
  length (undo_stack h) = m -> 1 <= m ->
  let rs := fst (undo_calls m h) in
  (forall k, k < m - 1 -> exists e, rs !! k = Some (Some e)) /\
  rs !! (m - 1) = Some None /\
  undo_stack (snd (undo_calls m h)) = firstn 1 (undo_stack h).
Proof.
  revert h. induction m as [| m IH]; intros h Hlen Hm; [lia |].
  destruct (Nat.eq_dec m 0) as [-> | Hpos].
  - cbn [undo_calls]. rewrite undo_short by lia. cbn.
    repeat split; [intros k Hk; lia |].
    destruct (undo_stack h) as [| x [| y l]]; cbn in *; try lia; reflexivity.
  - destruct (undo_long h) as (e & h' & Hu & Hst); [lia |].
    assert (Hlen' : length (undo_stack h') = m).
    { rewrite Hst. destruct (undo_stack h) as [| x l] using rev_ind; [cbn in Hlen; lia |].
      rewrite removelast_last. rewrite length_app in Hlen. cbn in Hlen. lia. }
    specialize (IH h' Hlen' ltac:(lia)). cbn in IH. destruct IH as (IH1 & IH2 & IH3).
    cbn [undo_calls]. rewrite Hu.
    destruct (undo_calls m h') as [rs h2] eqn:Hc. cbn [fst snd] in *.
    repeat split.
    + intros [| k] Hk; [eexists; reflexivity |].
      cbn. apply IH1. lia.
    + replace (S m - 1) with (S (m - 1)) by lia. cbn. exact IH2.
    + rewrite IH3, Hst.
      destruct (undo_stack h) as [| x [| y l]]; cbn in *; try lia. reflexivity.
Qed.

(** C5, as stated, fails beyond the capacity of the undo stack: after 26
    pushes the 25th call of [undo] already returns none. *)
Lemma history_floor_fails_beyond_capacity :
  ~ floor_after 26 (repeat {| pa_code_text := []; pa_flow_state := make_flow_state [] [];
                              pa_action := u "edit"; pa_now := 0%Q |} 26).
Proof.
  intros [Hsome _]. destruct (Hsome 24) as [e He]; [lia |].
  vm_compute in He. discriminate He.
Qed.

(** C5 (amended): starting from an empty manager, after pushing N > 1
    snapshots the undo stack holds M = min(N, 25) entries; each of the
    first M - 1 calls of [undo] returns an entry, the M-th returns none,
    and the bottom entry of the stack is still there. *)
Theorem history_floor_upto_capacity (ps : list push_args) :
  1 < length ps ->
  let M := Nat.min (length ps) MAX_HISTORY in
  floor_after M ps /\
  undo_stack (snd (undo_calls M (push_all ps init))) =
    firstn 1 (undo_stack (push_all ps init)).
Proof.
  intros HN M.
  assert (Hlen : length (undo_stack (push_all ps init)) = M).
  { rewrite push_all_undo_length; cbn; unfold MAX_HISTORY; [reflexivity | lia]. }
  destruct (undo_calls_floor M (push_all ps init) Hlen) as (H1 & H2 & H3).
  { unfold M, MAX_HISTORY. lia. }
  split; [split |]; assumption.
Qed.

Lemma history_floor_upto_capacity_witness :
  let ps := repeat {| pa_code_text := []; pa_flow_state := make_flow_state [] [];
                      pa_action := u "edit"; pa_now := 0%Q |} 3 in
  1 < length ps /\
  floor_after 3 ps /\
  undo_stack (snd (undo_calls 3 (push_all ps init))) =
    firstn 1 (undo_stack (push_all ps init)).
Proof.
  intros ps. split; [cbn; lia |].
  apply (history_floor_upto_capacity ps). cbn. lia.
Defined.

End History.

(** ** Adjacency dictionaries *)
Section Adjacency.
Local Open Scope nat_scope.

Lemma str_eqb_true (a b : list N) : str_eqb a b = true <-> a = b.
Proof. unfold str_eqb. rewrite bool_decide_eq_true. tauto. Qed.

Lemma str_eqb_false (a b : list N) : str_eqb a b = false <-> a <> b.
Proof. unfold str_eqb. rewrite bool_decide_eq_false. tauto. Qed.

Lemma str_eqb_refl (a : list N) : str_eqb a a = true.
Proof. apply str_eqb_true. reflexivity. Qed.

Lemma enumerate_snoc {A} (l : list A) (x : A) :
  enumerate (l ++ [x]) = enumerate l ++ [(length l, x)].
Proof.
  unfold enumerate. rewrite imap_app. cbn. do 3 f_equal. lia.
Qed.

Lemma adj_get_append (k k' : list N) (v : nat) (d : adjacency) :
  adj_get (adj_append k v d) k' =
    if str_eqb k k' then adj_get d k' ++ [v] else adj_get d k'.
Proof.
  unfold adj_append, adj_get at 1.
  destruct (str_eqb k k') eqn:E.
  - apply str_eqb_true in E. subst k'. rewrite lookup_insert_eq. reflexivity.
  - apply str_eqb_false in E. rewrite lookup_insert_ne by assumption. reflexivity.
Qed.

Lemma refs_of_snoc (out : bool) (k : list N) (l : list StreamlitFlowEdge) (e : StreamlitFlowEdge) :
  refs_of out k (l ++ [e]) =
    refs_of out k l ++
    (if str_eqb (if out then e_source e else e_target e) k then [length l] else []).
Proof.
  unfold refs_of. rewrite enumerate_snoc, List.filter_app, map_app. cbn.
  destruct (str_eqb _ k); reflexivity.
Qed.

(** [build_graph] lists, for every id, the references to its outgoing
    and to its incoming edges. *)
Lemma build_graph_spec (ns : list StreamlitFlowNode) (es : list StreamlitFlowEdge) (k : list N) :
  adj_get (fst (build_graph (make_flow_state ns es))) k = refs_of true k es /\
  adj_get (snd (build_graph (make_flow_state ns es))) k = refs_of false k es.
Proof.
  unfold build_graph; cbn [edges].
  induction es as [| e es IH] using rev_ind.
  - cbn. unfold adj_get. rewrite lookup_empty. split; reflexivity.
  - rewrite enumerate_snoc, fold_left_app. cbn [fold_left].
    destruct (fold_left _ (enumerate es) (∅, ∅)) as [o i]. cbn [fst snd] in *.
    destruct IH as [IHo IHi].
    rewrite !adj_get_append, !refs_of_snoc, IHo, IHi.
    split; destruct (str_eqb _ k); rewrite ?app_nil_r; reflexivity.
Qed.


Lemma omap_targets_prefix (k : list N) (l rest : list StreamlitFlowEdge) :
  omap (fun i => e_target <$> (l ++ rest) !! i) (refs_of true k l) = succs l k.
Proof.
  revert rest. induction l as [| e l IH] using rev_ind; intros rest; [reflexivity |].
  rewrite refs_of_snoc, omap_app, <- app_assoc, IH.
  unfold succs. rewrite List.filter_app, map_app. f_equal.
  cbn. destruct (str_eqb (e_source e) k); [| reflexivity].
  cbn. rewrite lookup_app_r by lia. rewrite Nat.sub_diag. reflexivity.
Qed.

Lemma targets_of_build_graph (ns : list StreamlitFlowNode) (es : list StreamlitFlowEdge) (k : list N) :
  targets_of (fst (build_graph (make_flow_state ns es))) es k = succs es k.
Proof.
  unfold targets_of. rewrite (proj1 (build_graph_spec ns es k)).
  pose proof (omap_targets_prefix k es []) as Hp.
  rewrite app_nil_r in Hp. exact Hp.
Qed.

Lemma length_refs_of (out : bool) (k : list N) (l : list StreamlitFlowEdge) :
  length (refs_of out k l) =
    length (List.filter (fun e => str_eqb (if out then e_source e else e_target e) k) l).
Proof.
  induction l as [| e l IH] using rev_ind; [reflexivity |].
  rewrite refs_of_snoc, List.filter_app, !length_app, IH. cbn.
  destruct (str_eqb _ k); reflexivity.
Qed.

End Adjacency.

(** ** The reachability search terminates *)
Section Search.
Local Open Scope nat_scope.

Lemma bfs_loop_ext (f g : list N -> list (list N)) :
  (forall k, f k = g k) ->
  forall fuel q R, bfs_loop fuel f q R = bfs_loop fuel g q R.
Proof.
  intros Hfg fuel. induction fuel as [| fuel IH]; intros q R; destruct q as [| nid q];
    cbn; try reflexivity.
  rewrite Hfg, !IH. reflexivity.
Qed.

Lemma pending_visit (R : gset (list N)) (store : list StreamlitFlowEdge) (nid : list N) :
  nid ∉ R ->
  length (pending ({[nid]} ∪ R) store) + length (succs store nid) =
    length (pending R store).
Proof.
  intros Hnot. unfold pending, succs. rewrite length_map.
  induction store as [| e store IH]; [reflexivity |].
  cbn [List.filter].
  destruct (str_eqb (e_source e) nid) eqn:E.
  - apply str_eqb_true in E.
    rewrite (bool_decide_eq_true_2 (e_source e ∈ {[nid]} ∪ R))
      by (apply elem_of_union_l, elem_of_singleton; exact E).
    rewrite (bool_decide_eq_false_2 (e_source e ∈ R)) by (rewrite E; assumption).
    cbn. lia.
  - apply str_eqb_false in E.
    destruct (bool_decide (e_source e ∈ R)) eqn:ER.
    + apply bool_decide_eq_true in ER.
      rewrite (bool_decide_eq_true_2 (e_source e ∈ {[nid]} ∪ R))
        by (apply elem_of_union_r; exact ER).
      cbn. lia.
    + apply bool_decide_eq_false in ER.
      rewrite (bool_decide_eq_false_2 (e_source e ∈ {[nid]} ∪ R))
        by (rewrite elem_of_union, elem_of_singleton; tauto).
      cbn. lia.
Qed.

Lemma bfs_loop_total (store : list StreamlitFlowEdge) (fuel : nat) :
  forall q R, length q + length (pending R store) <= fuel ->
              is_Some (bfs_loop fuel (succs store) q R).
Proof.
  induction fuel as [| fuel IH]; intros q R Hle.
  - destruct q; [eexists; reflexivity | cbn in Hle; lia].
  - destruct q as [| nid q]; [eexists; reflexivity |].
    cbn [bfs_loop]. case_bool_decide as Hin.
    + apply IH. cbn in Hle. lia.
    + apply IH. rewrite length_app.
      pose proof (pending_visit R store nid Hin). cbn in Hle. lia.
Qed.

Lemma reachable_from_total (fs : StreamlitFlowState) (roots : list StreamlitFlowNode) :
  is_Some (reachable_from fs (fst (build_graph fs)) roots).
Proof.
  unfold reachable_from. destruct fs as [ns es]. cbn [edges].
  rewrite (bfs_loop_ext _ (succs es) (targets_of_build_graph ns es)).
  apply bfs_loop_total. rewrite length_map.
  apply Nat.add_le_mono_l, List.filter_length_le.
Qed.

End Search.

(** ** Connectivity repair: what it leaves alone *)
Section ConnectivityFrame.
Context `{PyUnicode}.
Local Open Scope nat_scope.

Lemma chain_all_unlabeled (nds : list StreamlitFlowNode) :
  Forall (fun e => e_label e = []) (chain_all nds).
Proof.
  unfold chain_all. apply Forall_forall. intros e Hin.
  apply list_elem_of_omap in Hin. destruct Hin as (i & _ & Hi).
  destruct (nds !! i), (nds !! S i); inversion Hi. reflexivity.
Qed.

Lemma stitch_unlabeled (unreachable : list StreamlitFlowNode) :
  forall idx tail, Forall (fun e => e_label e = []) (stitch idx tail unreachable).
Proof.
  induction unreachable as [| n rest IH]; intros idx tail; cbn; [constructor |].
  destruct (str_eqb (n_id n) tail); [apply IH |].
  constructor; [reflexivity | apply IH].
Qed.

(** The second branch of [enforce_connected_flow], unfolded. *)
Lemma enforce_connected_flow_edges (n0 n1 : StreamlitFlowNode) (ns : list StreamlitFlowNode)
    (es : list StreamlitFlowEdge) :
  es <> [] ->
  let nds := n0 :: n1 :: ns in
  let G := {| nodes := nds; edges := es |} in
  exists R,
    reachable_from G (fst (build_graph G)) (start_candidates nds (snd (build_graph G)))
      = Some R /\
    enforce_connected_flow G =
      Some (if size R <? length nds
            then {| nodes := nds;
                    edges := es ++ stitch 1 (stitch_tail nds (fst (build_graph G)) R n0)
                                          (unreachable_nodes nds R) |}
            else G).
Proof.
  intros Hne nds G.
  destruct (reachable_from_total G (start_candidates nds (snd (build_graph G))))
    as [R HR].
  exists R. split; [exact HR |].
  unfold enforce_connected_flow. cbn [nodes edges G]. fold nds. fold G.
  destruct (Nat.eqb_spec (length es) 0) as [Hz | _];
    [destruct es; [congruence | discriminate Hz] |].
  destruct (build_graph G) as [out_edges in_edges]. cbn [fst snd] in *.
  rewrite HR. cbn [mbind option_bind].
  destruct (size R <? length nds); reflexivity.
Qed.

(** C10: [enforce_connected_flow] returns, keeps the node list as it is
    (ids, labels, kinds, positions and order) and keeps every edge that was
    there, in place; what it adds comes after them and carries no label. *)
Theorem enforce_connected_flow_frame (G : StreamlitFlowState) :
  exists new_edges,
    enforce_connected_flow G =
      Some {| nodes := nodes G; edges := edges G ++ new_edges |} /\
    Forall (fun e => e_label e = []) new_edges.
Proof.
  destruct G as [ns es]. cbn [nodes edges].
  destruct ns as [| n0 [| n1 ns]].
  - exists []. rewrite app_nil_r. split; [reflexivity | constructor].
  - exists []. rewrite app_nil_r. split; [reflexivity | constructor].
  - destruct es as [| e es].
    + exists (chain_all (n0 :: n1 :: ns)). split; [reflexivity | apply chain_all_unlabeled].
    + destruct (enforce_connected_flow_edges n0 n1 ns (e :: es)) as (R & _ & ->);
        [discriminate |].
      destruct (size R <? _).
      * eexists. split; [reflexivity | apply stitch_unlabeled].
      * exists []. rewrite app_nil_r. split; [reflexivity | constructor].
Qed.

End ConnectivityFrame.

(** ** Connectivity repair of a graph without edges *)
Section EdgelessRepair.
Context `{PyUnicode}.
Local Open Scope nat_scope.

Lemma chain_all_endpoints_from (l p : list StreamlitFlowNode) :
  let link := fun i =>
    match (p ++ l) !! i, (p ++ l) !! S i with
    | Some a, Some b =>
      Some (make_edge (build_edge_id (n_id a) (n_id b) [] (u "solid")
                                     (str_of_N (N.of_nat i)))
                      (n_id a) (n_id b) [] (u "smoothstep") (u "solid"))
    | _, _ => None
    end in
  map endpoints (omap link (seq (length p) (length l - 1))) = pairs_of (map n_id l).
Proof.
  revert p. induction l as [| a l IH]; intros p link; [reflexivity |].
  destruct l as [| b l]; [reflexivity |].
  cbn [length]. replace (S (S (length l)) - 1) with (S (length (b :: l) - 1))
    by (cbn; lia).
  cbn [seq omap list_omap]. unfold link at 1.
  rewrite (lookup_app_r p) by lia. rewrite Nat.sub_diag. cbn [lookup list_lookup].
  replace (S (length p)) with (length p + 1) at 1 by lia.
  rewrite (lookup_app_r p) by lia.
  replace (length p + 1 - length p) with 1 by lia. cbn [lookup list_lookup].
  cbn [map]. unfold pairs_of. cbn [map tail zip zip_with]. f_equal.
  specialize (IH (p ++ [a])). cbn zeta in IH.
  rewrite <- app_assoc in IH. cbn [app] in IH.
  rewrite length_app in IH. cbn [length] in IH.
  replace (length p + 1) with (S (length p)) in IH by lia.
  exact IH.
Qed.

Lemma chain_all_endpoints (nds : list StreamlitFlowNode) :
  map endpoints (chain_all nds) = pairs_of (map n_id nds).
Proof. exact (chain_all_endpoints_from nds []). Qed.

Lemma length_pairs_of {A} (l : list A) : length (pairs_of l) = length l - 1.
Proof.
  unfold pairs_of. destruct l as [| a l]; [reflexivity |].
  cbn [tail]. rewrite length_zip_with. cbn [length]. lia.
Qed.

Lemma chain_all_plain (nds : list StreamlitFlowNode) :
  Forall (fun e => e_label e = [] /\ get_edge_variant e = u "solid") (chain_all nds).
Proof.
  unfold chain_all. apply Forall_forall. intros e Hin.
  apply list_elem_of_omap in Hin. destruct Hin as (i & _ & Hi).
  destruct (nds !! i), (nds !! S i); inversion Hi. split; reflexivity.
Qed.

(** C4 (amended): for a graph with n >= 2 nodes and no edge,
    [enforce_connected_flow] leaves the nodes alone and produces exactly
    n - 1 plain edges that form one chain visiting every node in the order
    of the node list. *)
Theorem edgeless_chain_in_list_order (G : StreamlitFlowState) :
  2 <= length (nodes G) -> edges G = [] ->
  edgeless_repair_chains listed_ids G /\
  exists G', enforce_connected_flow G = Some G' /\ nodes G' = nodes G /\
             Forall (fun e => e_label e = [] /\ get_edge_variant e = u "solid")
                    (edges G').
Proof.
  destruct G as [ns es]. cbn [nodes edges]. intros Hn ->.
  destruct ns as [| n0 [| n1 ns]]; [cbn in Hn; lia | cbn in Hn; lia |].
  assert (Hrun : enforce_connected_flow {| nodes := n0 :: n1 :: ns; edges := [] |} =
                 Some {| nodes := n0 :: n1 :: ns; edges := chain_all (n0 :: n1 :: ns) |})
    by reflexivity.
  split.
  - eexists. split; [exact Hrun |]. cbn [nodes edges]. split.
    + rewrite <- (length_map endpoints), chain_all_endpoints, length_pairs_of, length_map.
      reflexivity.
    + apply chain_all_endpoints.
  - eexists. split; [exact Hrun |]. split; [reflexivity | apply chain_all_plain].
Qed.

End EdgelessRepair.

(** C4, as stated, fails: the chain follows the node list, not the ids.
    For the nodes [b, a] the one new edge goes from [b] to [a]. *)
Lemma edgeless_chain_not_by_id :
  ~ edgeless_repair_chains ascending_ids
      {| nodes := [make_node (u "b") (u "B") (u "process") (0, 0)%Q;
                   make_node (u "a") (u "A") (u "process") (0, 0)%Q];
         edges := [] |}.
Proof.
  intros (G' & Hrun & _ & Hchain).
  vm_compute in Hrun. injection Hrun as <-.
  vm_compute in Hchain. discriminate Hchain.
Qed.

Lemma edgeless_chain_in_list_order_witness :
  let G := {| nodes := [make_node (u "b") (u "B") (u "process") (0, 0)%Q;
                        make_node (u "a") (u "A") (u "process") (0, 0)%Q;
                        make_node (u "c") (u "C") (u "process") (0, 0)%Q];
              edges := [] |} in
  ((2 <= length (nodes G))%nat /\ edges G = []) /\
  edgeless_repair_chains listed_ids G /\
  exists G', enforce_connected_flow G = Some G' /\
             nodes G' = nodes G /\
             Forall (fun e => e_label e = [] /\ get_edge_variant e = u "solid")
                    (edges G').
Proof.
  intros G. split; [split; [cbn; lia | reflexivity] |].
  apply (edgeless_chain_in_list_order G); [cbn; lia | reflexivity].
Defined.

(** ** Export *)


(** ** Parser *)

(** C6: [parse_mermaid] raises on an edge line whose source is a class tag
    alone.  [split_node_token] is left with an empty expression and indexes
    the empty list of its words; the two edge branches call it outside of
    the [try] that guards the node branch. *)
Theorem parse_mermaid_raises `{PyUnicode} (ses : Session) :
  parse_mermaid ses (u ":::x --> b") = Raise IndexError.
Proof. reflexivity. Qed.

(** The same expression on a line of its own is skipped. *)
Example parse_mermaid_node_branch_guarded `{PyUnicode} (ses : Session) :
  parse_mermaid ses (u ":::x") = Ok (None, Some NO_NODES_ERROR, session_direction ses).
Proof. reflexivity. Qed.

(** ** Decision labels *)

(** The graph of scenario 2: a decision node whose two outgoing edges are
    labeled "" and "Evet". *)
Example decision_scenario_first_pass :
  let G := {| nodes := [make_node (u "d") (u "Tamam mı?") (u "decision") (0, 0)%Q;
                        make_node (u "a") (u "A") (u "process") (0, 0)%Q;
                        make_node (u "b") (u "B") (u "process") (0, 0)%Q];
              edges := [make_edge (u "e1") (u "d") (u "a") [] (u "smoothstep") (u "solid");
                        make_edge (u "e2") (u "d") (u "b") (u "Evet") (u "smoothstep") (u "solid")] |} in
  map e_label (edges (ensure_decision_edge_labels G)) = [[]; u "Hayır"].
Proof. vm_compute. reflexivity. Qed.

(** C7: a second application of [ensure_decision_edge_labels] changes the
    labels again.  On the edges labeled "" and "Evet" the first pass writes
    "Hayır" over "Evet" and leaves the other edge blank; the second pass then
    fills in "Evet". *)
Theorem decision_labels_second_pass_differs :
  let G := {| nodes := [make_node (u "d") (u "Tamam mı?") (u "decision") (0, 0)%Q;
                        make_node (u "a") (u "A") (u "process") (0, 0)%Q;
                        make_node (u "b") (u "B") (u "process") (0, 0)%Q];
              edges := [make_edge (u "e1") (u "d") (u "a") [] (u "smoothstep") (u "solid");
                        make_edge (u "e2") (u "d") (u "b") (u "Evet") (u "smoothstep") (u "solid")] |} in
  let once := ensure_decision_edge_labels G in
  let twice := ensure_decision_edge_labels once in
  map e_label (edges once) = [[]; u "Hayır"] /\
  map e_label (edges twice) = [u "Evet"; u "Hayır"] /\
  twice <> once.
Proof.
  vm_compute. repeat split. discriminate.
Qed.

(** *** References and labels *)
Section Labels.
Local Open Scope nat_scope.




Lemma label_at_set_ne (r j : nat) (lbl : list N) (store : list StreamlitFlowEdge) :
  r <> j -> label_at (set_label_at r lbl store) j = label_at store j.
Proof.
  intros Hne. unfold label_at, set_label_at.
  rewrite list_lookup_alter_ne by exact Hne. reflexivity.
Qed.


End Labels.

(** *** One decision node *)
Section DecisionNode.
Context `{PyUnicode}.
Local Open Scope nat_scope.


Lemma normalize_first_two_other (refs : list nat) (store : list StreamlitFlowEdge) (j : nat) :
  ~ In j (firstn 2 refs) ->
  label_at (normalize_first_two refs store) j = label_at store j.
Proof.
  unfold normalize_first_two. generalize (firstn 2 refs). intros l. revert store.
  induction l as [| r l IH]; intros store Hnot; [reflexivity |].
  cbn [fold_left]. rewrite IH by (intros Hin; apply Hnot; right; exact Hin).
  destruct (_ && _); [| reflexivity].
  apply label_at_set_ne. intros ->. apply Hnot. left. reflexivity.
Qed.



(** The pass writes to the first two references only. *)
Lemma label_decision_edges_other (refs : list nat) (store : list StreamlitFlowEdge) (j : nat) :
  ~ In j (firstn 2 refs) ->
  label_at (label_decision_edges refs store) j = label_at store j.
Proof.
  intros Hnot. unfold label_decision_edges.
  destruct refs as [| r0 [| r1 rest]]; try reflexivity.
  assert (H0 : r0 <> j) by (intros ->; apply Hnot; left; reflexivity).
  assert (H1 : r1 <> j) by (intros ->; apply Hnot; right; left; reflexivity).
  repeat match goal with
         | |- context [if ?c then _ else _] => destruct c
         end;
    rewrite ?label_at_set_ne by assumption;
    apply normalize_first_two_other; exact Hnot.
Qed.


End DecisionNode.

(** *** The whole pass *)
Section DecisionPass.
Context `{PyUnicode}.
Local Open Scope nat_scope.

(** One round of the loop over the nodes, with the adjacency dictionary
    read off the edge list [es] the pass started from. *)
Lemma ensure_decision_edge_labels_edges (G : StreamlitFlowState) :
  edges (ensure_decision_edge_labels G) =
    fold_left (fun store m =>
                 if negb (str_eqb (get_node_kind m) (u "decision")) then store
                 else label_decision_edges (refs_of true (n_id m) (edges G)) store)
              (nodes G) (edges G).
Proof.
  unfold ensure_decision_edge_labels. destruct G as [ns es].
  pose proof (fun k => proj1 (build_graph_spec ns es k)) as Hout.
  destruct (build_graph _) as [out_edges in_edges]. cbn [fst nodes edges] in *.
  enough (Hgen : forall store,
             fold_left (fun store m =>
                 if negb (str_eqb (get_node_kind m) (u "decision")) then store
                 else label_decision_edges (adj_get out_edges (n_id m)) store) ns store =
             fold_left (fun store m =>
                 if negb (str_eqb (get_node_kind m) (u "decision")) then store
                 else label_decision_edges (refs_of true (n_id m) es) store) ns store)
    by apply Hgen.
  induction ns as [| m ns IH]; intros store; [reflexivity |].
  cbn [fold_left]. rewrite Hout. apply IH.
Qed.





End DecisionPass.



(** ** What the reachability search computes *)
Section Reachability.
Local Open Scope nat_scope.

Lemma succs_spec (es : list StreamlitFlowEdge) (y z : list N) :
  In z (succs es y) <-> exists e, In e es /\ e_source e = y /\ e_target e = z.
Proof.
  unfold succs. rewrite in_map_iff. split.
  - intros (e & Ht & Hin). apply filter_In in Hin. destruct Hin as [Hin Hs].
    apply str_eqb_true in Hs. eauto.
  - intros (e & Hin & Hs & Ht). exists e. split; [exact Ht |].
    apply filter_In. split; [exact Hin | apply str_eqb_true; exact Hs].
Qed.

Lemma succs_app (es1 es2 : list StreamlitFlowEdge) (y : list N) :
  succs (es1 ++ es2) y = succs es1 y ++ succs es2 y.
Proof. unfold succs. rewrite List.filter_app, map_app. reflexivity. Qed.

Lemma path_trans (es : list StreamlitFlowEdge) (x y z : list N) :
  path es x y -> path es y z -> path es x z.
Proof.
  intros Hxy Hyz. induction Hyz as [| y w z _ IH Hz]; [exact Hxy |].
  eapply path_step; [apply IH; exact Hxy | exact Hz].
Qed.

Lemma path_incl (es es' : list StreamlitFlowEdge) (x y : list N) :
  incl es es' -> path es x y -> path es' x y.
Proof.
  intros Hincl Hp. induction Hp as [| x y z _ IH Hz]; [constructor |].
  eapply path_step; [exact IH |].
  apply succs_spec in Hz. destruct Hz as (e & Hin & Hs & Ht).
  apply succs_spec. exists e. auto.
Qed.

(** A path ends where it started or at the target of an edge. *)
Lemma path_end (es : list StreamlitFlowEdge) (x y : list N) :
  path es x y -> y = x \/ exists e, In e es /\ e_target e = y.
Proof.
  intros Hp. destruct Hp as [| x y z _ Hz]; [left; reflexivity |].
  right. apply succs_spec in Hz. destruct Hz as (e & Hin & _ & Ht). eauto.
Qed.

(** Soundness of the loop: a property that holds of the queue and of the
    visited set and is inherited by successors holds of the result. *)
Lemma bfs_loop_sound (succ : list N -> list (list N)) (S : list N -> Prop) :
  (forall x y, S x -> In y (succ x) -> S y) ->
  forall fuel q R0 R,
    bfs_loop fuel succ q R0 = Some R ->
    Forall S q -> (forall x, x ∈ R0 -> S x) ->
    forall x, x ∈ R -> S x.
Proof.
  intros Hsucc fuel. induction fuel as [| fuel IH]; intros q R0 R Hrun Hq HR0.
  - destruct q; [| discriminate Hrun]. injection Hrun as <-. exact HR0.
  - destruct q as [| nid q]; [injection Hrun as <-; exact HR0 |].
    cbn [bfs_loop] in Hrun. inversion Hq as [| ? ? Hnid Hq']; subst.
    case_bool_decide as Hin.
    + eapply IH; eauto.
    + eapply IH; [exact Hrun | |].
      * apply Forall_app. split; [exact Hq' |].
        apply Forall_forall. intros y Hy. apply list_elem_of_In in Hy. eauto.
      * intros x Hx. apply elem_of_union in Hx. destruct Hx as [Hx | Hx]; [| auto].
        apply elem_of_singleton in Hx. subst x. exact Hnid.
Qed.

(** Completeness of the loop: the result holds the visited set and the
    queue and is closed under successors. *)
Lemma bfs_loop_closed (succ : list N -> list (list N)) :
  forall fuel q R0 R,
    bfs_loop fuel succ q R0 = Some R ->
    (forall x y, x ∈ R0 -> In y (succ x) -> y ∈ R0 \/ In y q) ->
    (forall x, x ∈ R0 -> x ∈ R) /\ (forall x, In x q -> x ∈ R) /\
    (forall x y, x ∈ R -> In y (succ x) -> y ∈ R).
Proof.
  intros fuel. induction fuel as [| fuel IH]; intros q R0 R Hrun Hinv.
  - destruct q; [| discriminate Hrun]. injection Hrun as <-.
    repeat split; [auto | intros x [] |].
    intros x y Hx Hy. destruct (Hinv x y Hx Hy) as [? | []]. assumption.
  - destruct q as [| nid q].
    { injection Hrun as <-. repeat split; [auto | intros x [] |].
      intros x y Hx Hy. destruct (Hinv x y Hx Hy) as [? | []]. assumption. }
    cbn [bfs_loop] in Hrun. case_bool_decide as Hin.
    + destruct (IH q R0 R Hrun) as (H1 & H2 & H3).
      { intros x y Hx Hy. destruct (Hinv x y Hx Hy) as [? | [<- | ?]]; auto. }
      repeat split; [exact H1 | | exact H3].
      intros x [<- | Hx]; auto.
    + destruct (IH _ _ R Hrun) as (H1 & H2 & H3).
      { intros x y Hx Hy. apply elem_of_union in Hx. destruct Hx as [Hx | Hx].
        - apply elem_of_singleton in Hx. subst x. right. apply in_or_app. auto.
        - destruct (Hinv x y Hx Hy) as [? | [<- | ?]].
          + left. apply elem_of_union_r. assumption.
          + left. apply elem_of_union_l, elem_of_singleton. reflexivity.
          + right. apply in_or_app. auto. }
      repeat split; [| | exact H3].
      * intros x Hx. apply H1, elem_of_union_r. exact Hx.
      * intros x [<- | Hx].
        -- apply H1, elem_of_union_l, elem_of_singleton. reflexivity.
        -- apply H2, in_or_app. auto.
Qed.

(** The search returns exactly the ids that a path joins to a root. *)
Lemma reachable_from_spec (G : StreamlitFlowState) (roots : list StreamlitFlowNode)
    (R : gset (list N)) :
  reachable_from G (fst (build_graph G)) roots = Some R ->
  forall x, x ∈ R <-> exists r, In r (map n_id roots) /\ path (edges G) r x.
Proof.
  unfold reachable_from. destruct G as [ns es]. cbn [edges].
  rewrite (bfs_loop_ext _ (succs es) (targets_of_build_graph ns es)).
  intros Hrun x. split.
  - revert x. eapply (bfs_loop_sound (succs es)); [| exact Hrun | |].
    + intros a b (r & Hr & Hp) Hb. exists r. split; [exact Hr |].
      eapply path_step; eauto.
    + apply Forall_forall. intros r Hr. apply list_elem_of_In in Hr.
      exists r. split; [exact Hr | constructor].
    + intros a Ha. apply not_elem_of_empty in Ha. destruct Ha.
  - destruct (bfs_loop_closed (succs es) _ _ _ R Hrun) as (_ & Hq & Hcl).
    { intros a b Ha. apply not_elem_of_empty in Ha. destruct Ha. }
    intros (r & Hr & Hp). induction Hp as [| r y z _ IH Hz]; [auto |].
    eapply Hcl; [apply IH; exact Hr | exact Hz].
Qed.

End Reachability.

(** ** Connectivity repair: when every node is reached *)
Section ConnectivityPost.
Context `{PyUnicode}.
Local Open Scope nat_scope.

(** A node has no recorded incoming edge iff no edge ends at it. *)
Lemma zero_indegree_spec (ns : list StreamlitFlowNode) (es : list StreamlitFlowEdge)
    (k : list N) :
  (length (adj_get (snd (build_graph (make_flow_state ns es))) k) =? 0) = true <->
  forall e, In e es -> e_target e <> k.
Proof.
  rewrite (proj2 (build_graph_spec ns es k)), length_refs_of, Nat.eqb_eq.
  split.
  - intros Hz e Hin Ht.
    assert (Hf : In e (List.filter (fun e => str_eqb (e_target e) k) es))
      by (apply filter_In; split; [exact Hin | apply str_eqb_true; exact Ht]).
    destruct (List.filter _ es); [destruct Hf | discriminate Hz].
  - intros Hno. destruct (List.filter _ es) as [| e l] eqn:E; [reflexivity |].
    assert (Hf : In e (List.filter (fun e => str_eqb (e_target e) k) es))
      by (rewrite E; left; reflexivity).
    apply filter_In in Hf. destruct Hf as [Hin Ht]. apply str_eqb_true in Ht.
    destruct (Hno e Hin Ht).
Qed.

Lemma start_candidates_nonempty (nds : list StreamlitFlowNode) (in_edges : adjacency) :
  nds <> [] -> start_candidates nds in_edges <> [].
Proof.
  intros Hne. unfold start_candidates.
  destruct (List.filter is_start_node nds) as [| s l]; cbn [length Nat.ltb Nat.leb];
    [| discriminate].
  destruct (List.filter _ nds) as [| z l]; cbn [length Nat.ltb Nat.leb]; [| discriminate].
  destruct nds; [congruence | discriminate].
Qed.

Lemma start_candidates_incl (nds : list StreamlitFlowNode) (in_edges : adjacency) :
  incl (start_candidates nds in_edges) nds.
Proof.
  unfold start_candidates. intros n.
  destruct (0 <? length (List.filter is_start_node nds));
    [intros Hin; apply filter_In in Hin; tauto |].
  destruct (0 <? length (List.filter _ nds));
    [intros Hin; apply filter_In in Hin; tauto |].
  destruct nds; [intros [] | intros [<- | []]; left; reflexivity].
Qed.

(** New edges that end outside of the reached set do not change the roots. *)
Lemma start_candidates_more_edges (ns : list StreamlitFlowNode)
    (es new : list StreamlitFlowEdge) (R : gset (list N)) :
  (forall n, In n (start_candidates ns (snd (build_graph (make_flow_state ns es)))) ->
             n_id n ∈ R) ->
  Forall (fun e => e_target e ∉ R) new ->
  start_candidates ns (snd (build_graph (make_flow_state ns (es ++ new)))) =
  start_candidates ns (snd (build_graph (make_flow_state ns es))).
Proof.
  intros Hroots Hnew.
  set (in0 := snd (build_graph (make_flow_state ns es))) in *.
  set (in1 := snd (build_graph (make_flow_state ns (es ++ new)))).
  destruct (0 <? length (List.filter is_start_node ns)) eqn:Hs;
    [unfold start_candidates; rewrite Hs; reflexivity |].
  assert (Hext : forall n, In n ns ->
            (length (adj_get in1 (n_id n)) =? 0) = (length (adj_get in0 (n_id n)) =? 0)).
  { intros n Hin. destruct (length (adj_get in0 (n_id n)) =? 0) eqn:Hz0.
    - apply zero_indegree_spec. intros e Hine Ht.
      apply in_app_or in Hine. destruct Hine as [Hine | Hine].
      + apply (proj1 (zero_indegree_spec ns es (n_id n)) Hz0 e Hine Ht).
      + rewrite Forall_forall in Hnew. apply (Hnew e); [apply list_elem_of_In; exact Hine |].
        rewrite Ht. apply Hroots. unfold start_candidates. rewrite Hs.
        assert (Hf : In n (List.filter
                            (fun n => length (adj_get in0 (n_id n)) =? 0) ns))
          by (apply filter_In; auto).
        destruct (List.filter (fun n => length (adj_get in0 (n_id n)) =? 0) ns)
          as [| r l]; [destruct Hf | exact Hf].
    - apply Bool.not_true_iff_false. intros Hz1.
      apply Bool.not_true_iff_false in Hz0. apply Hz0.
      apply zero_indegree_spec. intros e Hine.
      apply (proj1 (zero_indegree_spec ns (es ++ new) (n_id n)) Hz1).
      apply in_or_app. auto. }
  unfold start_candidates. rewrite Hs.
  rewrite (filter_ext_in _ _ _ Hext). reflexivity.
Qed.

Lemma stitch_targets (U : list StreamlitFlowNode) :
  forall idx tail e, In e (stitch idx tail U) -> exists n, In n U /\ e_target e = n_id n.
Proof.
  induction U as [| n U IH]; intros idx tail e Hin; [destruct Hin |].
  cbn [stitch] in Hin. destruct (str_eqb (n_id n) tail).
  - destruct (IH _ _ _ Hin) as (m & Hm & Ht). exists m. split; [right |]; assumption.
  - destruct Hin as [<- | Hin].
    + exists n. split; [left |]; reflexivity.
    + destruct (IH _ _ _ Hin) as (m & Hm & Ht). exists m. split; [right |]; assumption.
Qed.

(** The stitched nodes hang on [tail]: what holds of [tail] and is inherited
    along the edges holds of all of them. *)
Lemma stitch_reaches (es' : list StreamlitFlowEdge) (S : list N -> Prop)
    (U : list StreamlitFlowNode) :
  (forall x y, S x -> In y (succs es' x) -> S y) ->
  forall idx tail,
    incl (stitch idx tail U) es' -> S tail ->
    forall n, In n U -> S (n_id n).
Proof.
  intros Hsucc. induction U as [| m U IH]; intros idx tail Hincl Htail n Hin;
    [destruct Hin |].
  cbn [stitch] in Hincl. destruct (str_eqb (n_id m) tail) eqn:E.
  - apply str_eqb_true in E. destruct Hin as [<- | Hin]; [rewrite E; exact Htail |].
    eapply IH; eauto.
  - assert (Hm : S (n_id m)).
    { eapply Hsucc; [exact Htail |]. apply succs_spec.
      eexists. split; [apply Hincl; left; reflexivity |]. split; reflexivity. }
    destruct Hin as [<- | Hin]; [exact Hm |].
    eapply IH; [| exact Hm | exact Hin].
    intros e He. apply Hincl. right. exact He.
Qed.

(** A set of ids of nodes that is as large as the node list holds every id. *)
Lemma all_ids_by_size (nds : list StreamlitFlowNode) (R : gset (list N)) :
  (forall x, x ∈ R -> In x (map n_id nds)) ->
  length nds <= size R ->
  forall n, In n nds -> n_id n ∈ R.
Proof.
  intros Hsub Hsize n Hin.
  apply elem_of_elements, list_elem_of_In.
  apply (NoDup_length_incl (l := elements R) (l' := map n_id nds)).
  - apply NoDup_ListNoDup, NoDup_elements.
  - rewrite length_map. exact Hsize.
  - intros x Hx. apply Hsub, elem_of_elements, list_elem_of_In. exact Hx.
  - apply in_map. exact Hin.
Qed.

(** Edges with the end points [pairs_of (x :: l)] lead from [x] to every
    element of the list. *)
Lemma pairs_path (es : list StreamlitFlowEdge) (l : list (list N)) :
  forall x,
    (forall p, In p (pairs_of (x :: l)) -> exists e, In e es /\ endpoints e = p) ->
    forall y, In y (x :: l) -> path es x y.
Proof.
  induction l as [| a l IH]; intros x Hedges y Hin.
  - destruct Hin as [<- | []]. constructor.
  - destruct Hin as [<- | Hin]; [constructor |].
    apply (path_trans es x a y).
    + destruct (Hedges (x, a)) as (e & He & Hp); [left; reflexivity |].
      eapply path_step; [constructor |]. apply succs_spec.
      injection Hp as Hs Ht. eauto.
    + apply IH; [| exact Hin]. intros p Hp. apply Hedges. right. exact Hp.
Qed.

Lemma pairs_of_target {A} (l : list A) (x y : A) :
  In y l -> exists w, In (w, y) (pairs_of (x :: l)).
Proof.
  revert x. induction l as [| a l IH]; intros x Hin; [destruct Hin |].
  destruct Hin as [<- | Hin].
  - exists x. left. reflexivity.
  - destruct (IH a Hin) as (w & Hw). exists w. right. exact Hw.
Qed.

(** The first branch: the chain makes the first node lead to every node. *)
Lemma chain_all_reaches (n0 : StreamlitFlowNode) (rest : list StreamlitFlowNode)
    (n : StreamlitFlowNode) :
  In n (n0 :: rest) -> path (chain_all (n0 :: rest)) (n_id n0) (n_id n).
Proof.
  intros Hin. apply (pairs_path _ (map n_id rest)).
  - intros p Hp. change (n_id n0 :: map n_id rest) with (map n_id (n0 :: rest)) in Hp.
    rewrite <- chain_all_endpoints in Hp. apply in_map_iff in Hp.
    destruct Hp as (e & He & Hin'). eauto.
  - change (n_id n0 :: map n_id rest) with (map n_id (n0 :: rest)). apply in_map. exact Hin.
Qed.

Lemma chain_all_enters (n0 : StreamlitFlowNode) (rest : list StreamlitFlowNode)
    (n : StreamlitFlowNode) :
  In n rest -> exists e, In e (chain_all (n0 :: rest)) /\ e_target e = n_id n.
Proof.
  intros Hin.
  destruct (pairs_of_target (map n_id rest) (n_id n0) (n_id n)) as (w & Hw);
    [apply in_map; exact Hin |].
  change (n_id n0 :: map n_id rest) with (map n_id (n0 :: rest)) in Hw.
  rewrite <- chain_all_endpoints in Hw. apply in_map_iff in Hw.
  destruct Hw as (e & He & Hin'). injection He as _ Ht. eauto.
Qed.

(** After the first branch the first node is a root. *)
Lemma chain_all_first_is_root (n0 : StreamlitFlowNode) (rest : list StreamlitFlowNode) :
  is_start_node n0 = true \/
    Forall (fun n => is_start_node n = false) (n0 :: rest) ->
  In n0 (roots_of {| nodes := n0 :: rest; edges := chain_all (n0 :: rest) |}).
Proof.
  intros Hstart. unfold roots_of, start_candidates. cbn [nodes].
  set (nds := n0 :: rest).
  destruct (List.filter is_start_node nds) as [| s l] eqn:Es.
  - cbn [length Nat.ltb Nat.leb].
    set (z := fun n : StreamlitFlowNode => length (adj_get _ (n_id n)) =? 0).
    destruct (List.filter z nds) as [| r l] eqn:Ez; cbn [length Nat.ltb Nat.leb];
      [left; reflexivity |].
    assert (Hr : In r (List.filter z nds)) by (rewrite Ez; left; reflexivity).
    apply filter_In in Hr. destruct Hr as [Hr Hz].
    destruct Hr as [<- | Hr]; [rewrite <- Ez; apply filter_In; split; [left |]; auto |].
    exfalso. destruct (chain_all_enters n0 rest r Hr) as (e & He & Ht).
    unfold z in Hz. apply (proj1 (zero_indegree_spec nds (chain_all nds) (n_id r)) Hz e He Ht).
  - cbn [length Nat.ltb Nat.leb]. rewrite <- Es. apply filter_In.
    split; [left; reflexivity |].
    destruct Hstart as [Hs | Hall]; [exact Hs |].
    assert (Hin : In s (List.filter is_start_node nds)) by (rewrite Es; left; reflexivity).
    apply filter_In in Hin. destruct Hin as [Hin Hs].
    rewrite Forall_forall in Hall. rewrite (Hall s) in Hs; [discriminate Hs |].
    apply list_elem_of_In. exact Hin.
Qed.

(** C3 (amended): for every graph with at least two nodes whose edges end
    at nodes of the graph and whose repair is anchored -- without edges, the
    first node is start-like or no node is; with edges, the search from the
    roots reaches a node without outgoing edge or reaches the first node --
    [enforce_connected_flow] returns a graph with the same nodes in which every
    node is in the set reached from the root set (the start-like nodes, else
    the nodes without incoming edge, else the first node), which is not
    empty. *)
Theorem connectivity_when_anchored (G : StreamlitFlowState) :
  2 <= length (nodes G) ->
  targets_exist G ->
  repair_anchored G ->
  connectivity_post G.
Proof.
  destruct G as [ns es]. unfold targets_exist, repair_anchored, connectivity_post.
  cbn [nodes edges]. intros Hlen Htargets Hanchor.
  destruct ns as [| n0 [| n1 ns]]; [cbn in Hlen; lia | cbn in Hlen; lia |].
  set (nds := n0 :: n1 :: ns) in *.
  destruct es as [| e0 es0].
  - (* no edge: the chain *)
    exists {| nodes := nds; edges := chain_all nds |}.
    split; [reflexivity |]. split; [reflexivity |].
    set (G' := {| nodes := nds; edges := chain_all nds |}).
    split; [apply start_candidates_nonempty; discriminate |].
    destruct (reachable_from_total G' (roots_of G')) as [R' HR'].
    exists R'. split; [exact HR' |]. intros n Hin.
    apply (reachable_from_spec G' _ R' HR'). exists (n_id n0). split.
    + apply in_map. apply chain_all_first_is_root. exact Hanchor.
    + apply chain_all_reaches. exact Hin.
  - (* some edge: the search and the stitching *)
    set (es := e0 :: es0) in *. set (G := {| nodes := nds; edges := es |}).
    destruct Hanchor as (R & HR & Hanchor).
    destruct (enforce_connected_flow_edges n0 n1 ns es) as (R2 & HR2 & Hrun);
      [discriminate |].
    fold nds G in HR2, Hrun.
    assert (R2 = R).
    { unfold reach_set, roots_of in HR. cbn [nodes] in HR. fold G in HR.
      rewrite HR in HR2. injection HR2 as <-. reflexivity. }
    subst R2. clear HR2.
    pose proof (reachable_from_spec G _ R HR) as Hspec.
    assert (Hroots : forall r, In r (roots_of G) -> n_id r ∈ R).
    { intros r Hr. apply Hspec. exists (n_id r). split; [apply in_map; exact Hr | constructor]. }
    destruct (size R <? length nds) eqn:Hsize.
    + (* the stitched graph *)
      set (st := stitch 1 (stitch_tail nds (fst (build_graph G)) R n0)
                        (unreachable_nodes nds R)) in *.
      set (G' := {| nodes := nds; edges := es ++ st |}) in *.
      exists G'. split; [exact Hrun |]. split; [reflexivity |].
      assert (Hst : Forall (fun e => e_target e ∉ R) st).
      { apply Forall_forall. intros e He. apply list_elem_of_In in He.
        apply stitch_targets in He. destruct He as (m & Hm & ->).
        apply filter_In in Hm. destruct Hm as [_ Hm].
        apply negb_true_iff, bool_decide_eq_false in Hm. exact Hm. }
      assert (Hsame : roots_of G' = roots_of G)
        by (apply (start_candidates_more_edges nds es st R); assumption).
      split; [rewrite Hsame; apply start_candidates_nonempty; discriminate |].
      destruct (reachable_from_total G' (roots_of G')) as [R' HR'].
      exists R'. split; [exact HR' |].
      pose proof (reachable_from_spec G' _ R' HR') as Hspec'. rewrite Hsame in Hspec'.
      cbn [edges G'] in Hspec'.
      set (S := fun x => exists r, In r (map n_id (roots_of G)) /\ path (es ++ st) r x).
      assert (Hold : forall x, x ∈ R -> S x).
      { intros x Hx. apply Hspec in Hx. destruct Hx as (r & Hr & Hp).
        exists r. split; [exact Hr |]. eapply path_incl; [| exact Hp].
        intros e He. apply in_or_app. left. exact He. }
      assert (Htail : S (stitch_tail nds (fst (build_graph G)) R n0)).
      { unfold stitch_tail.
        set (dead := List.filter _ nds).
        destruct (last dead) as [d |] eqn:Hlast.
        - apply Hold. apply last_Some_elem_of, list_elem_of_In, filter_In in Hlast.
          destruct Hlast as [_ Hd]. apply andb_true_iff in Hd. destruct Hd as [Hd _].
          apply bool_decide_eq_true in Hd. exact Hd.
        - apply Hold. destruct Hanchor as [(d & Hd & HdR & Hout) | Hn0]; [| exact Hn0].
          exfalso. apply last_None in Hlast.
          assert (Hf : In d dead).
          { apply filter_In. split; [exact Hd |]. apply andb_true_iff. split.
            - apply bool_decide_eq_true. exact HdR.
            - pose proof (proj1 (build_graph_spec nds es (n_id d))) as Hbg.
              fold G in Hbg. rewrite Hbg, length_refs_of.
              unfold succs in Hout. apply map_eq_nil in Hout.
              cbn [edges] in Hout. rewrite Hout. reflexivity. }
          rewrite Hlast in Hf. destruct Hf. }
      intros n Hin. apply Hspec'. change (S (n_id n)).
      destruct (bool_decide (n_id n ∈ R)) eqn:HnR.
      * apply Hold. apply bool_decide_eq_true in HnR. exact HnR.
      * eapply (stitch_reaches (es ++ st) S (unreachable_nodes nds R)).
        -- intros x y (r & Hr & Hp) Hy. exists r. split; [exact Hr |].
           eapply path_step; eauto.
        -- intros e He. apply in_or_app. right. exact He.
        -- exact Htail.
        -- apply filter_In. split; [exact Hin |]. rewrite HnR. reflexivity.
    + (* nothing to repair *)
      exists G. split; [exact Hrun |]. split; [reflexivity |].
      split; [apply start_candidates_nonempty; discriminate |].
      exists R. split; [exact HR |].
      apply all_ids_by_size.
      * intros x Hx. apply Hspec in Hx. destruct Hx as (r & Hr & Hp).
        apply path_end in Hp. destruct Hp as [-> | (e & He & <-)].
        -- apply in_map_iff in Hr. destruct Hr as (m & <- & Hm).
           apply in_map. eapply start_candidates_incl. exact Hm.
        -- rewrite Forall_forall in Htargets. apply Htargets, list_elem_of_In. exact He.
      * apply Nat.ltb_ge in Hsize. exact Hsize.
Qed.

End ConnectivityPost.

(** C3, as stated, fails on a graph without edges whose start node is not
    the first node: the chain goes from [a] to the start node [s], the root
    set is [s], and [a] is not reached from it. *)
Lemma connectivity_chain_ignores_start :
  ~ connectivity_post
      {| nodes := [make_node (u "a") (u "A") (u "process") (0, 0)%Q;
                   make_node (u "s") (u "Başla") (u "terminal") (0, 0)%Q];
         edges := [] |}.
Proof.
  intros (G' & Hrun & _ & _ & R & HR & Hall).
  vm_compute in Hrun. injection Hrun as <-.
  specialize (Hall _ (or_introl eq_refl)).
  apply (reachable_from_spec _ _ R HR) in Hall.
  destruct Hall as (r & Hr & Hp).
  vm_compute in Hr. destruct Hr as [<- | []].
  apply path_end in Hp. destruct Hp as [Hp | (e & He & Ht)].
  - vm_compute in Hp. discriminate Hp.
  - destruct He as [<- | []]. vm_compute in Ht. discriminate Ht.
Qed.

(** With edges, the repair can miss as well: the start node [s] only leads
    to itself, no reached node is without outgoing edge, and the node [a],
    taken as the tail of the chain, stays without any edge. *)
Example connectivity_unreached_tail :
  enforce_connected_flow
    {| nodes := [make_node (u "a") (u "A") (u "process") (0, 0)%Q;
                 make_node (u "s") (u "Başla") (u "terminal") (0, 0)%Q];
       edges := [make_edge (u "e1") (u "s") (u "s") [] (u "smoothstep") (u "solid")] |}
  = Some {| nodes := [make_node (u "a") (u "A") (u "process") (0, 0)%Q;
                      make_node (u "s") (u "Başla") (u "terminal") (0, 0)%Q];
            edges := [make_edge (u "e1") (u "s") (u "s") [] (u "smoothstep") (u "solid")] |}.
Proof. vm_compute. reflexivity. Qed.

Lemma connectivity_when_anchored_witness :
  let G := {| nodes := [make_node (u "s") (u "Başla") (u "terminal") (0, 0)%Q;
                        make_node (u "a") (u "A") (u "process") (0, 0)%Q;
                        make_node (u "b") (u "B") (u "process") (0, 0)%Q];
              edges := [make_edge (u "e1") (u "s") (u "a") [] (u "smoothstep") (u "solid")] |} in
  ((2 <= length (nodes G))%nat /\ targets_exist G /\ repair_anchored G) /\
  connectivity_post G.
Proof.
  intros G.
  assert (Hlen : (2 <= length (nodes G))%nat) by (cbn; lia).
  assert (Htargets : targets_exist G).
  { unfold targets_exist. cbn [edges G]. constructor; [| constructor].
    right. left. reflexivity. }
  assert (Hanchor : repair_anchored G).
  { unfold repair_anchored. cbn [nodes edges G].
    eexists. split; [vm_compute; reflexivity |].
    right. vm_compute. reflexivity. }
  split; [repeat split; assumption |].
  apply (connectivity_when_anchored G Hlen Htargets Hanchor).
Defined.

(** ** Cycle detection *)
Section CycleDetection.
Local Open Scope nat_scope.

Lemma color_get_insert (k x : list N) (v : nat) (color : gmap (list N) nat) :
  color_get (<[k := v]> color) x = if decide (k = x) then v else color_get color x.
Proof.
  unfold color_get. destruct (decide (k = x)) as [-> | Hne].
  - rewrite lookup_insert_eq. reflexivity.
  - rewrite lookup_insert_ne by exact Hne. reflexivity.
Qed.

Lemma dfs_visit_ext (rec1 rec2 : list N -> gmap (list N) nat -> option (bool * gmap (list N) nat))
    (nid : list N) :
  (forall t c, rec1 t c = rec2 t c) ->
  forall tgts color, dfs_visit rec1 nid tgts color = dfs_visit rec2 nid tgts color.
Proof.
  intros Hrec tgts. induction tgts as [| t tgts IH]; intros color; [reflexivity |].
  cbn [dfs_visit]. rewrite Hrec.
  destruct (color_get color t =? 1); [reflexivity |].
  destruct (color_get color t =? 0); [| apply IH].
  destruct (rec2 t color) as [[[] c'] |]; try reflexivity. apply IH.
Qed.

Lemma dfs_ext (f g : list N -> list (list N)) :
  (forall k, f k = g k) ->
  forall fuel nid color, dfs fuel f nid color = dfs fuel g nid color.
Proof.
  intros Hfg fuel. induction fuel as [| fuel IH]; intros nid color; [reflexivity |].
  cbn [dfs]. rewrite Hfg. apply dfs_visit_ext. exact IH.
Qed.

Lemma detect_cycle_loop_ext (f g : list N -> list (list N)) (fuel : nat) :
  (forall k, f k = g k) ->
  forall keys color, detect_cycle_loop fuel f keys color = detect_cycle_loop fuel g keys color.
Proof.
  intros Hfg keys. induction keys as [| k keys IH]; intros color; [reflexivity |].
  cbn [detect_cycle_loop]. rewrite (dfs_ext f g Hfg).
  destruct (color_get color k =? 0); [| apply IH].
  destruct (dfs fuel g k color) as [[[] c'] |]; try reflexivity. apply IH.
Qed.

Variable es : list StreamlitFlowEdge.
Variable U : gset (list N).
Hypothesis U_closed : forall x y, In y (succs es x) -> y ∈ U.

(** Finished nodes only lead to finished nodes. *)
Lemma done_along_path (color : gmap (list N) nat) (x z : list N) :
  dfs_inv es color -> 2 <= color_get color x -> path es x z -> 2 <= color_get color z.
Proof.
  intros [Hclosed _] Hx Hp. induction Hp as [| x y z _ IH Hz]; [exact Hx |].
  eapply Hclosed; [apply IH; exact Hx | exact Hz].
Qed.

Lemma whites_mono (color color' : gmap (list N) nat) :
  (forall x, color_get color' x = 0 -> color_get color x = 0) ->
  size (whites U color') <= size (whites U color).
Proof.
  intros Hmono. apply subseteq_size. intros x Hx.
  unfold whites in *. apply elem_of_filter in Hx. destruct Hx as [Hx HU].
  apply elem_of_filter. split; [apply Hmono; exact Hx | exact HU].
Qed.

Lemma whites_visit (color : gmap (list N) nat) (nid : list N) :
  nid ∈ U -> color_get color nid = 0 ->
  size (whites U (<[nid := 1]> color)) < size (whites U color).
Proof.
  intros HU Hw. apply subset_size. split.
  - intros x Hx. unfold whites in *. apply elem_of_filter in Hx. destruct Hx as [Hx HxU].
    apply elem_of_filter. split; [| exact HxU].
    rewrite color_get_insert in Hx. destruct (decide (nid = x)); [discriminate Hx | exact Hx].
  - intros Hsub. assert (Hin : nid ∈ whites U (<[nid := 1]> color)).
    { apply Hsub. apply elem_of_filter. split; assumption. }
    apply elem_of_filter in Hin. destruct Hin as [Hin _].
    rewrite color_get_insert in Hin. destruct (decide (nid = nid)); [discriminate Hin | congruence].
Qed.

(** The loop over the targets of [nid], given that the recursive calls
    behave. *)
Lemma dfs_visit_spec (f : nat)
    (rec : list N -> gmap (list N) nat -> option (bool * gmap (list N) nat)) (nid : list N) :
  (forall t color,
      size (whites U color) <= f -> color_get color t = 0 -> t ∈ U ->
      dfs_inv es color -> (forall g, color_get color g = 1 -> path es g t) ->
      exists b color', rec t color = Some (b, color') /\
                       (b = true -> has_cycle es) /\
                       (b = false -> dfs_post es t color color')) ->
  forall tgts color,
    size (whites U color) <= f ->
    color_get color nid = 1 ->
    dfs_inv es color ->
    (forall g, color_get color g = 1 -> path es g nid) ->
    (forall t, In t tgts -> In t (succs es nid)) ->
    (forall t, In t (succs es nid) -> In t tgts \/ 2 <= color_get color t) ->
    exists b color', dfs_visit rec nid tgts color = Some (b, color') /\
                     (b = true -> has_cycle es) /\
                     (b = false ->
                      dfs_inv es color' /\ 2 <= color_get color' nid /\
                      (forall x, color_get color' x = 1 <->
                                 color_get color x = 1 /\ x <> nid) /\
                      (forall x, 2 <= color_get color x -> 2 <= color_get color' x)).
Proof.
  intros Hrec tgts. induction tgts as [| t tgts IH];
    intros color Hsize Hgray Hinv Hstack Hsub Hall.
  - (* every target is finished *)
    exists false, (<[nid := 2]> color). split; [reflexivity |].
    split; [discriminate |]. intros _.
    assert (Hsucc : forall y, In y (succs es nid) -> 2 <= color_get color y).
    { intros y Hy. destruct (Hall y Hy) as [[] | Hd]. exact Hd. }
    destruct Hinv as [Hclosed Hacyclic].
    repeat split.
    + intros x y Hx Hy. rewrite color_get_insert in *.
      destruct (decide (nid = x)) as [<- | Hnx].
      * destruct (decide (nid = y)); [lia | apply Hsucc; exact Hy].
      * destruct (decide (nid = y)); [lia | eapply Hclosed; eauto].
    + intros x Hx. rewrite color_get_insert in Hx.
      destruct (decide (nid = x)) as [<- | Hnx]; [| apply Hacyclic; exact Hx].
      intros (y & Hy & Hp).
      pose proof (done_along_path color y nid (conj Hclosed Hacyclic) (Hsucc y Hy) Hp).
      lia.
    + rewrite color_get_insert. destruct (decide (nid = nid)); [lia | congruence].
    + rewrite color_get_insert in H. destruct (decide (nid = x)); [discriminate H | exact H].
    + rewrite color_get_insert in H. destruct (decide (nid = x)); [discriminate H | congruence].
    + intros [Hx Hne]. rewrite color_get_insert.
      destruct (decide (nid = x)); [congruence | exact Hx].
    + intros x Hx. rewrite color_get_insert. destruct (decide (nid = x)); [lia | exact Hx].
  - cbn [dfs_visit].
    assert (Ht : In t (succs es nid)) by (apply Hsub; left; reflexivity).
    destruct (Nat.eqb_spec (color_get color t) 1) as [Hg | Hng].
    + (* a back edge *)
      exists true, color. split; [reflexivity |]. split; [| discriminate].
      intros _. exists nid, t. split; [exact Ht | apply Hstack; exact Hg].
    + destruct (Nat.eqb_spec (color_get color t) 0) as [Hw | Hnw].
      * (* an unseen target *)
        destruct (Hrec t color Hsize Hw (U_closed nid t Ht) Hinv)
          as (b & color1 & Hcall & Htrue & Hfalse).
        { intros g Hg. eapply path_step; [apply Hstack; exact Hg | exact Ht]. }
        rewrite Hcall. destruct b.
        { exists true, color1. split; [reflexivity |]. split; [exact Htrue | discriminate]. }
        destruct (Hfalse eq_refl) as (Hinv1 & Hdone1 & Hgray1 & Hkeep1).
        destruct (IH color1) as (b & color' & Hloop & Htrue' & Hfalse').
        { etransitivity; [| exact Hsize]. apply whites_mono. intros x Hx.
          destruct (color_get color x) as [| [| c]] eqn:Hc; [reflexivity | |].
          - apply (proj2 (Hgray1 x)) in Hc. congruence.
          - assert (2 <= color_get color1 x) by (apply Hkeep1; lia). lia. }
        { apply Hgray1. exact Hgray. }
        { exact Hinv1. }
        { intros g Hg. apply Hstack, Hgray1. exact Hg. }
        { intros y Hy. apply Hsub. right. exact Hy. }
        { intros y Hy. destruct (Hall y Hy) as [[<- | Hin] | Hd];
            [right; exact Hdone1 | left; exact Hin | right; apply Hkeep1; exact Hd]. }
        exists b, color'. split; [exact Hloop |]. split; [exact Htrue' |].
        intros Hb. destruct (Hfalse' Hb) as (Hi & Hd & Hg & Hk).
        repeat split; [apply Hi | apply Hi | exact Hd | | | |].
        -- apply Hgray1, (proj1 (Hg x)). exact H.
        -- apply (proj1 (Hg x)). exact H.
        -- intros [Hx Hne]. apply Hg. split; [apply Hgray1; exact Hx | exact Hne].
        -- intros x Hx. apply Hk, Hkeep1. exact Hx.
      * (* a finished target *)
        destruct (IH color) as (b & color' & Hloop & Htrue' & Hfalse'); try assumption.
        { intros y Hy. apply Hsub. right. exact Hy. }
        { intros y Hy. destruct (Hall y Hy) as [[<- | Hin] | Hd];
            [right; lia | left; exact Hin | right; exact Hd]. }
        exists b, color'. auto.
Qed.

(** A call of [dfs] on an unseen node with enough fuel. *)
Lemma dfs_spec (fuel : nat) :
  forall nid color,
    size (whites U color) <= fuel -> color_get color nid = 0 -> nid ∈ U ->
    dfs_inv es color -> (forall g, color_get color g = 1 -> path es g nid) ->
    exists b color', dfs fuel (succs es) nid color = Some (b, color') /\
                     (b = true -> has_cycle es) /\
                     (b = false -> dfs_post es nid color color').
Proof.
  induction fuel as [| fuel IH]; intros nid color Hsize Hw HU Hinv Hstack.
  - exfalso. assert (Hin : nid ∈ whites U color) by (apply elem_of_filter; auto).
    assert (Hpos : size (whites U color) <> 0).
    { intros Hz. apply size_empty_inv in Hz. apply Hz in Hin.
      apply not_elem_of_empty in Hin. exact Hin. }
    lia.
  - cbn [dfs].
    pose proof (whites_visit color nid HU Hw) as Hless.
    destruct (dfs_visit_spec fuel (dfs fuel (succs es)) nid IH (succs es nid)
                             (<[nid := 1]> color))
      as (b & color' & Hrun & Htrue & Hfalse).
    + lia.
    + rewrite color_get_insert. destruct (decide (nid = nid)); congruence.
    + destruct Hinv as [Hclosed Hacyclic]. split.
      * intros x y Hx Hy. rewrite color_get_insert in *.
        destruct (decide (nid = x)); [lia |].
        pose proof (Hclosed x y Hx Hy). destruct (decide (nid = y)); [subst; lia | assumption].
      * intros x Hx. rewrite color_get_insert in Hx.
        destruct (decide (nid = x)); [lia | apply Hacyclic; exact Hx].
    + intros g Hg. rewrite color_get_insert in Hg.
      destruct (decide (nid = g)) as [<- | _]; [constructor | apply Hstack; exact Hg].
    + auto.
    + auto.
    + exists b, color'. split; [exact Hrun |]. split; [exact Htrue |].
      intros Hb. destruct (Hfalse Hb) as (Hi & Hd & Hg & Hk).
      split; [exact Hi |]. split; [exact Hd |]. split.
      * intros x. rewrite Hg, color_get_insert.
        destruct (decide (nid = x)) as [<- | Hne].
        -- split; [intros [_ Hn]; congruence | intros Hx; congruence].
        -- split; [tauto | intros Hx; split; [exact Hx | congruence]].
      * intros x Hx. apply Hk. rewrite color_get_insert.
        destruct (decide (nid = x)); [subst; lia | exact Hx].
Qed.

End CycleDetection.

Section CycleDetectionTop.
Local Open Scope nat_scope.

Lemma size_list_to_set_le (l : list (list N)) :
  size (list_to_set l : gset (list N)) <= length l.
Proof.
  induction l as [| x l IH]; [rewrite list_to_set_nil, size_empty; lia |].
  rewrite list_to_set_cons, size_union_alt, size_singleton. cbn [length].
  assert (size (list_to_set l ∖ {[x]} : gset (list N)) <= size (list_to_set l : gset (list N)))
    by (apply subseteq_size; intros y Hy; apply elem_of_difference in Hy; tauto).
  lia.
Qed.

Lemma color_get_initial (nds : list StreamlitFlowNode) (x : list N) :
  color_get (list_to_map (map (fun n => (n_id n, 0)) nds)) x = 0.
Proof.
  induction nds as [| n nds IH];
    [unfold color_get; cbn [map]; rewrite list_to_map_nil, lookup_empty; reflexivity |].
  cbn [map]. rewrite list_to_map_cons, color_get_insert.
  destruct (decide (n_id n = x)); [reflexivity | exact IH].
Qed.

Lemma color_keys_covers (nds : list StreamlitFlowNode) :
  forall seen n, In n nds -> n_id n ∈ seen \/ In (n_id n) (color_keys seen nds).
Proof.
  induction nds as [| m nds IH]; intros seen n Hin; [destruct Hin |].
  cbn [color_keys]. destruct Hin as [<- | Hin].
  - case_bool_decide; [left; assumption | right; left; reflexivity].
  - case_bool_decide.
    + apply IH. exact Hin.
    + destruct (IH ({[n_id m]} ∪ seen) n Hin) as [Hs | Hk].
      * apply elem_of_union in Hs. destruct Hs as [Hs | Hs]; [| left; exact Hs].
        apply elem_of_singleton in Hs. right. left. symmetry. exact Hs.
      * right. right. exact Hk.
Qed.

Lemma color_keys_are_ids (nds : list StreamlitFlowNode) :
  forall seen k, In k (color_keys seen nds) -> In k (map n_id nds).
Proof.
  induction nds as [| m nds IH]; intros seen k Hin; [destruct Hin |].
  cbn [color_keys] in Hin. cbn [map]. case_bool_decide.
  - right. eapply IH. exact Hin.
  - destruct Hin as [<- | Hin]; [left; reflexivity | right; eapply IH; exact Hin].
Qed.

(** The loop over the keys, started without a node being visited. *)
Lemma detect_cycle_loop_spec (es : list StreamlitFlowEdge) (U : gset (list N)) (fuel : nat) :
  (forall x y, In y (succs es x) -> y ∈ U) ->
  size U <= fuel ->
  forall keys color,
    (forall x, color_get color x <> 1) ->
    dfs_inv es color ->
    (forall k, In k keys -> k ∈ U) ->
    exists b, detect_cycle_loop fuel (succs es) keys color = Some b /\
              (b = true -> has_cycle es) /\
              (b = false ->
               exists color', dfs_inv es color' /\
                              (forall k, In k keys -> 2 <= color_get color' k) /\
                              (forall x, 2 <= color_get color x -> 2 <= color_get color' x)).
Proof.
  intros Hclosed Hfuel keys. induction keys as [| k keys IH];
    intros color Hnogray Hinv HU.
  - exists false. split; [reflexivity |]. split; [discriminate |].
    intros _. exists color. split; [exact Hinv |]. split; [intros k [] | auto].
  - cbn [detect_cycle_loop].
    destruct (Nat.eqb_spec (color_get color k) 0) as [Hw | Hnw].
    + destruct (dfs_spec es U Hclosed fuel k color) as (b & color1 & Hrun & Htrue & Hfalse).
      * etransitivity; [| exact Hfuel]. apply subseteq_size.
        intros x Hx. apply elem_of_filter in Hx. tauto.
      * exact Hw.
      * apply HU. left. reflexivity.
      * exact Hinv.
      * intros g Hg. destruct (Hnogray g Hg).
      * rewrite Hrun. destruct b.
        { exists true. split; [reflexivity |]. split; [exact Htrue | discriminate]. }
        destruct (Hfalse eq_refl) as (Hinv1 & Hdone1 & Hgray1 & Hkeep1).
        destruct (IH color1) as (b & Hloop & Htrue' & Hfalse').
        { intros x Hx. apply Hgray1 in Hx. destruct (Hnogray x Hx). }
        { exact Hinv1. }
        { intros k' Hk'. apply HU. right. exact Hk'. }
        exists b. split; [exact Hloop |]. split; [exact Htrue' |].
        intros Hb. destruct (Hfalse' Hb) as (color' & Hi & Hk & Hp).
        exists color'. split; [exact Hi |]. split.
        -- intros k' [<- | Hk']; [apply Hp; exact Hdone1 | apply Hk; exact Hk'].
        -- intros x Hx. apply Hp, Hkeep1. exact Hx.
    + destruct (IH color) as (b & Hloop & Htrue' & Hfalse'); try assumption.
      { intros k' Hk'. apply HU. right. exact Hk'. }
      exists b. split; [exact Hloop |]. split; [exact Htrue' |].
      intros Hb. destruct (Hfalse' Hb) as (color' & Hi & Hk & Hp).
      exists color'. split; [exact Hi |]. split; [| exact Hp].
      intros k' [<- | Hk']; [| apply Hk; exact Hk'].
      apply Hp. pose proof (Hnogray k). lia.
Qed.

(** C8: on a graph whose edges start and end at nodes of the graph,
    [detect_cycle] returns, and it returns true if and only if the graph has a
    cycle: a node from which one or more edges lead back to it. *)
Theorem detect_cycle_correct (G : StreamlitFlowState) :
  edges_within G ->
  exists b, detect_cycle (nodes G) (fst (build_graph G)) (edges G) = Some b /\
            (b = true <-> has_cycle (edges G)).
Proof.
  destruct G as [nds es]. unfold edges_within. cbn [nodes edges]. intros Hwithin.
  unfold detect_cycle.
  rewrite (detect_cycle_loop_ext _ (succs es) _ (targets_of_build_graph nds es)).
  destruct (detect_cycle_loop_spec es (universe nds es) (S (length nds + length es)))
    with (keys := color_keys ∅ nds)
         (color := list_to_map (map (fun n => (n_id n, 0)) nds) : gmap (list N) nat)
    as (b & Hrun & Htrue & Hfalse).
  - intros x y Hy. apply succs_spec in Hy. destruct Hy as (e & He & _ & <-).
    apply elem_of_list_to_set, list_elem_of_In, in_or_app. right. apply in_map. exact He.
  - unfold universe. pose proof (size_list_to_set_le (map n_id nds ++ map e_target es)) as Hs.
    rewrite length_app, !length_map in Hs. lia.
  - intros x. rewrite color_get_initial. discriminate.
  - split; intros x; rewrite color_get_initial; lia.
  - intros k Hk. apply color_keys_are_ids in Hk.
    apply elem_of_list_to_set, list_elem_of_In, in_or_app. left. exact Hk.
  - exists b. split; [exact Hrun |]. split; [exact Htrue |].
    intros (x & y & Hy & Hp). destruct b; [reflexivity | exfalso].
    destruct (Hfalse eq_refl) as (color' & [_ Hacyclic] & Hkeys & _).
    apply (Hacyclic x); [| exists y; auto].
    apply Hkeys. apply succs_spec in Hy. destruct Hy as (e & He & Hs & _).
    destruct (Hwithin e He) as [Hsrc _]. rewrite Hs in Hsrc.
    apply in_map_iff in Hsrc. destruct Hsrc as (n & <- & Hn).
    destruct (color_keys_covers nds ∅ n Hn) as [Hempty | Hin]; [| exact Hin].
    apply not_elem_of_empty in Hempty. destruct Hempty.
Qed.

End CycleDetectionTop.

Lemma detect_cycle_correct_witness :
  let G := {| nodes := [make_node (u "a") (u "A") (u "process") (0, 0)%Q;
                        make_node (u "b") (u "B") (u "process") (0, 0)%Q;
                        make_node (u "c") (u "C") (u "process") (0, 0)%Q];
              edges := [make_edge (u "e1") (u "a") (u "b") [] (u "smoothstep") (u "solid");
                        make_edge (u "e2") (u "b") (u "c") [] (u "smoothstep") (u "solid");
                        make_edge (u "e3") (u "c") (u "a") [] (u "smoothstep") (u "solid")] |} in
  edges_within G /\
  detect_cycle (nodes G) (fst (build_graph G)) (edges G) = Some true /\
  exists b, detect_cycle (nodes G) (fst (build_graph G)) (edges G) = Some b /\
            (b = true <-> has_cycle (edges G)).
Proof.
  intros G.
  assert (Hwithin : edges_within G).
  { intros e He. cbn [edges nodes G map] in *.
    destruct He as [<- | [<- | [<- | []]]]; split; cbn; tauto. }
  split; [exact Hwithin |]. split; [vm_compute; reflexivity |].
  apply (detect_cycle_correct G Hwithin).
Defined.

Example detect_cycle_acyclic :
  let G := {| nodes := [make_node (u "a") (u "A") (u "process") (0, 0)%Q;
                        make_node (u "b") (u "B") (u "process") (0, 0)%Q;
                        make_node (u "c") (u "C") (u "process") (0, 0)%Q];
              edges := [make_edge (u "e1") (u "a") (u "b") [] (u "smoothstep") (u "solid");
                        make_edge (u "e2") (u "b") (u "c") [] (u "smoothstep") (u "solid");
                        make_edge (u "e3") (u "a") (u "c") [] (u "smoothstep") (u "solid")] |} in
  detect_cycle (nodes G) (fst (build_graph G)) (edges G) = Some false.
Proof. vm_compute. reflexivity. Qed.

(** ** Round trip through the text *)

(** A declared node that an edge refers to comes back twice: the edge line
    names it by its bare id, which the parser reads as a node labeled with
    its id, of another content than the declared one, and so mints [a_2] and
    [b_2] for the two ends. *)
Example round_trip_mints_aliases :
  let ses := {| session_direction := u "TD"; enable_grid_snap := false |} in
  let G := {| nodes := [make_node (u "a") (u "Start") (u "process") (0, 0)%Q;
                        make_node (u "b") (u "End") (u "process") (0, 0)%Q];
              edges := [make_edge (u "e1") (u "a") (u "b") [] (u "smoothstep") (u "solid")] |} in
  generate_mermaid G (u "TD") = u "flowchart TD
    a[Start]
    b[End]
    a --> b" /\
  exists G', parse_mermaid ses (generate_mermaid G (u "TD")) = Ok (Some G', None, u "TD") /\
             map n_id (nodes G') = [u "a"; u "a_2"; u "b"; u "b_2"] /\
             map endpoints (edges G') = [(u "a_2", u "b_2")].
Proof.
  intros ses G. split; [vm_compute; reflexivity |].
  eexists. split; [vm_compute; reflexivity |]. split; vm_compute; reflexivity.
Qed.

(** ** Facts about the matcher *)
Section Matcher.
Context {A : Type}.
Local Open Scope nat_scope.
Implicit Types (k : @Re.cont A) (p : N -> bool) (s : list N) (c : Re.caps).

Lemma run_Lit l k pos s c :
  Re.run (Re.Lit l) k pos (l ++ s) c = k (pos + length l) s c.
Proof.
  revert pos. induction l as [| x l IH]; intros pos; cbn [Re.Lit fold_right Re.run app length].
  - rewrite Nat.add_0_r. reflexivity.
  - rewrite N.eqb_refl. fold (Re.Lit l). rewrite IH. f_equal. lia.
Qed.

Lemma run_Lit_blocked y l k pos s c :
  blocked (N.eqb y) s -> Re.run (Re.Lit (y :: l)) k pos s c = None.
Proof.
  intros Hb. cbn [Re.Lit fold_right Re.run]. destruct s as [| x s]; [reflexivity |].
  cbn in Hb. rewrite Hb. reflexivity.
Qed.

Lemma star_greedy_blocked p k pos s c :
  blocked p s -> Re.star_greedy p k pos s c = k pos s c.
Proof.
  intros Hb. destruct s as [| x s]; [reflexivity |]. cbn in *. rewrite Hb. reflexivity.
Qed.

(** Greedy repetition takes the whole run of class characters when the
    continuation accepts what follows. *)
Lemma star_greedy_take p k s1 s2 c r :
  forallb p s1 = true ->
  forall pos, k (pos + length s1) s2 c = Some r ->
              blocked p s2 ->
              Re.star_greedy p k pos (s1 ++ s2) c = Some r.
Proof.
  intros Hall. induction s1 as [| x s1 IH]; intros pos Hk Hb.
  - cbn [app length] in *. rewrite Nat.add_0_r in Hk.
    rewrite star_greedy_blocked by exact Hb. exact Hk.
  - cbn [forallb] in Hall. apply andb_true_iff in Hall. destruct Hall as [Hx Hall].
    cbn [app Re.star_greedy]. rewrite Hx.
    rewrite (IH Hall (S pos)); [reflexivity | | exact Hb].
    rewrite <- Hk. f_equal. cbn [length]. lia.
Qed.

(** It fails when the continuation rejects every split of the run. *)
Lemma star_greedy_none p k s1 s2 c :
  forall pos,
    (forall a b, s1 = a ++ b -> k (pos + length a) (b ++ s2) c = None) ->
    blocked p s2 ->
    Re.star_greedy p k pos (s1 ++ s2) c = None.
Proof.
  induction s1 as [| x s1 IH]; intros pos Hk Hb.
  - cbn [app]. rewrite star_greedy_blocked by exact Hb.
    specialize (Hk [] [] eq_refl). cbn in Hk. rewrite Nat.add_0_r in Hk. exact Hk.
  - cbn [app Re.star_greedy].
    assert (Hhere : k pos (x :: s1 ++ s2) c = None).
    { specialize (Hk [] (x :: s1) eq_refl). cbn in Hk. rewrite Nat.add_0_r in Hk. exact Hk. }
    destruct (p x); [| exact Hhere].
    rewrite IH; [exact Hhere | | exact Hb].
    intros a b ->. specialize (Hk (x :: a) b eq_refl).
    cbn [length] in Hk. rewrite <- Hk. f_equal. lia.
Qed.

(** Lazy repetition goes on as long as the continuation rejects. *)
Lemma star_lazy_skip p k s1 s2 c :
  forallb p s1 = true ->
  forall pos,
    (forall a b, s1 = a ++ b -> b <> [] -> k (pos + length a) (b ++ s2) c = None) ->
    Re.star_lazy p k pos (s1 ++ s2) c = Re.star_lazy p k (pos + length s1) s2 c.
Proof.
  intros Hall. induction s1 as [| x s1 IH]; intros pos Hk.
  - cbn [app length]. rewrite Nat.add_0_r. reflexivity.
  - cbn [forallb] in Hall. apply andb_true_iff in Hall. destruct Hall as [Hx Hall].
    cbn [app Re.star_lazy].
    assert (Hhere : k pos (x :: s1 ++ s2) c = None).
    { specialize (Hk [] (x :: s1) eq_refl). cbn in Hk. rewrite Nat.add_0_r in Hk.
      apply Hk. discriminate. }
    rewrite Hhere, Hx. rewrite (IH Hall (S pos)).
    + f_equal. cbn [length]. lia.
    + intros a b -> Hb. specialize (Hk (x :: a) b eq_refl Hb).
      cbn [length] in Hk. rewrite <- Hk. f_equal. lia.
Qed.

Lemma star_lazy_here p k pos s c r :
  k pos s c = Some r -> Re.star_lazy p k pos s c = Some r.
Proof. intros Hk. destruct s; cbn [Re.star_lazy]; rewrite Hk; reflexivity. Qed.

Lemma rejects_suffixes_tail k x s :
  rejects_suffixes k (x :: s) -> rejects_suffixes k s.
Proof.
  intros Hk t pos c Ht. apply Hk. apply suffix_cons_r. exact Ht.
Qed.

Lemma star_greedy_rejects p k s :
  rejects_suffixes k s -> forall pos c, Re.star_greedy p k pos s c = None.
Proof.
  induction s as [| x s IH]; intros Hk pos c; cbn [Re.star_greedy].
  - apply Hk. reflexivity.
  - rewrite (IH (rejects_suffixes_tail k x s Hk)).
    rewrite (Hk (x :: s)) by reflexivity. destruct (p x); reflexivity.
Qed.

Lemma star_lazy_rejects p k s :
  rejects_suffixes k s -> forall pos c, Re.star_lazy p k pos s c = None.
Proof.
  induction s as [| x s IH]; intros Hk pos c; cbn [Re.star_lazy].
  - rewrite (Hk []) by reflexivity. reflexivity.
  - rewrite (IH (rejects_suffixes_tail k x s Hk)).
    rewrite (Hk (x :: s)) by reflexivity. destruct (p x); reflexivity.
Qed.

End Matcher.

(** A continuation that rejects every suffix of the input makes every
    pattern before it fail. *)
Lemma run_rejects {A : Type} (r : Re.regex) :
  forall (k : @Re.cont A) s,
    rejects_suffixes k s -> rejects_suffixes (Re.run r k) s.
Proof.
  induction r as [p | | a IHa b IHb | a IHa b IHb | g p | name a IHa | |];
    intros k s Hk t pos c Ht; cbn [Re.run].
  - destruct t as [| x t]; [reflexivity |]. destruct (p x); [| reflexivity].
    apply Hk. etransitivity; [| exact Ht]. apply suffix_cons_r. reflexivity.
  - apply Hk. exact Ht.
  - apply (IHa (Re.run b k) s); [| exact Ht]. apply IHb. exact Hk.
  - rewrite (IHa k s Hk t pos c Ht). apply (IHb k s Hk t pos c Ht).
  - assert (Hkt : rejects_suffixes k t).
    { intros t' pos' c' Ht'. apply Hk. etransitivity; eassumption. }
    destruct g; [apply star_greedy_rejects | apply star_lazy_rejects]; exact Hkt.
  - apply (IHa _ s); [| exact Ht].
    intros t' pos' c' Ht'. apply Hk. exact Ht'.
  - destruct (pos =? 0)%nat; [apply Hk; exact Ht | reflexivity].
  - destruct (Re.at_end t); [apply Hk; exact Ht | reflexivity].
Qed.

(** ** Characters *)

Ltac char_facts :=
  unfold word_char, plain_char, special_char, py_isspace, Re.id_char, Re.dot, Re.space in *;
  repeat match goal with
         | H : negb _ = true |- _ => apply negb_true_iff in H
         | H : _ = false |- _ => apply Bool.not_true_iff_false in H
         | |- negb _ = true => apply negb_true_iff
         | |- _ = false => apply Bool.not_true_iff_false; intro
         end;
  rewrite ?orb_true_iff, ?andb_true_iff, ?negb_true_iff, ?N.leb_le, ?N.eqb_eq in *;
  lia.

Section Characters.

Lemma word_char_id (c : N) : word_char c = true -> Re.id_char c = true.
Proof. intros Hc. char_facts. Qed.

Lemma word_char_plain (c : N) : word_char c = true -> plain_char c = true.
Proof. intros Hc. char_facts. Qed.

Lemma plain_char_not_space (c : N) : plain_char c = true -> py_isspace c = false.
Proof. intros Hc. char_facts. Qed.

Lemma plain_char_dot (c : N) : plain_char c = true -> Re.dot c = true.
Proof. intros Hc. char_facts. Qed.

Lemma plain_char_not_linebreak (c : N) : plain_char c = true -> is_linebreak c = false.
Proof. intros Hc. unfold is_linebreak. char_facts. Qed.

(** A plain character is none of the characters the patterns ask for. *)
Lemma plain_char_ne (c x : N) :
  plain_char c = true ->
  In x [124; 91; 93; 40; 41; 123; 125; 60; 45; 61; 58; 47]%N ->
  (x =? c)%N = false.
Proof.
  intros Hc Hx. cbn [In] in Hx.
  destruct Hx as [<- | [<- | [<- | [<- | [<- | [<- | [<- | [<- | [<- | [<- | [<- | [<- | []]]]]]]]]]]]];
    char_facts.
Qed.

End Characters.

(** ** Node expressions *)
Section NodeTokens.
Local Open Scope nat_scope.

Lemma firstn_consumed {B} (p : nat) (l r : list B) :
  firstn (p + length l - p) (l ++ r) = l.
Proof.
  replace (p + length l - p) with (length l + 0) by lia.
  rewrite firstn_app_2. cbn. apply app_nil_r.
Qed.

Lemma forallb_head {B} (f : B -> bool) (x : B) (l : list B) :
  forallb f (x :: l) = true -> f x = true.
Proof. cbn. intros Hf. apply andb_true_iff in Hf. tauto. Qed.

Lemma blocked_app (p : N -> bool) (s t : list N) :
  s <> [] -> blocked p s -> blocked p (s ++ t).
Proof. destruct s; [congruence | auto]. Qed.

Lemma blocked_plain_space (label rest : list N) :
  plain_label label -> blocked Re.space (label ++ rest).
Proof.
  intros [Hne Hall]. destruct label as [| x label]; [congruence |].
  cbn. apply plain_char_not_space. eapply forallb_head. exact Hall.
Qed.

(** The pattern of a shape reads the expression that was written with its
    brackets, whatever blanks pad the label. *)
Lemma shape_match (o c sp1 sp2 id label : list N) (hc : N) (c' : list N) :
  safe_id id -> plain_label label ->
  forallb py_isspace sp1 = true -> forallb py_isspace sp2 = true ->
  blocked Re.id_char o -> blocked Re.space o -> o <> [] ->
  c = hc :: c' -> py_isspace hc = false ->
  (forall x, plain_char x = true -> (hc =? x)%N = false) ->
  Re.rmatch (SHAPE_RE o c) (id ++ o ++ sp1 ++ label ++ sp2 ++ c)
    = Some [("label"%string, label); ("id"%string, id)].
Proof.
  intros [Hid_ne Hid] Hlabel Hsp1 Hsp2 Ho_id Ho_sp Ho_ne Hc Hhc_sp Hhc.
  destruct id as [| i0 id']; [congruence |].
  cbn [forallb] in Hid. apply andb_true_iff in Hid. destruct Hid as [Hi0 Hid'].
  unfold Re.rmatch.
  enough (Hrun : exists n, Re.run (SHAPE_RE o c) Re.accept 0
                                  ((i0 :: id') ++ o ++ sp1 ++ label ++ sp2 ++ c) []
                           = Some (n, [("label"%string, label); ("id"%string, i0 :: id')]))
    by (destruct Hrun as [n ->]; reflexivity).
  eexists.
  unfold SHAPE_RE, Re.Seqs, Re.Plus.
  cbn [fold_right Re.run Nat.eqb app].
  rewrite (word_char_id i0 Hi0).
  set (rest := o ++ sp1 ++ label ++ sp2 ++ c).
  erewrite star_greedy_take; [reflexivity | | | ].
  - clear -Hid'. induction id' as [| x l IH]; [reflexivity |].
    cbn [forallb] in *. apply andb_true_iff in Hid'. destruct Hid' as [Hx Hl].
    rewrite (word_char_id x Hx). auto.
  - (* after the id *)
    change (1 + length id' - 0) with (0 + length (i0 :: id') - 0).
    change (i0 :: id' ++ rest) with ((i0 :: id') ++ rest).
    rewrite firstn_consumed.
    rewrite star_greedy_blocked by (apply blocked_app; assumption).
    unfold rest. rewrite run_Lit.
    erewrite star_greedy_take; [reflexivity | exact Hsp1 | | apply blocked_plain_space; exact Hlabel].
    cbn [Re.run].
    rewrite star_lazy_skip.
    + apply star_lazy_here.
      erewrite star_greedy_take; [reflexivity | exact Hsp2 | | subst c; exact Hhc_sp].
      rewrite <- (app_nil_r c) at 2. rewrite run_Lit.
      cbn [Re.run Re.star_greedy Re.at_end Re.accept].
      rewrite firstn_consumed. reflexivity.
    + destruct Hlabel as [_ Hall]. clear -Hall.
      induction label as [| x l IH]; [reflexivity |].
      cbn [forallb] in *. apply andb_true_iff in Hall. destruct Hall as [Hx Hl].
      rewrite (plain_char_dot x Hx). auto.
    + intros a b Hab Hb. destruct b as [| b0 b]; [congruence |].
      assert (Hb0 : plain_char b0 = true).
      { destruct Hlabel as [_ Hall]. rewrite Hab, forallb_app in Hall.
        apply andb_true_iff in Hall. destruct Hall as [_ Hall].
        eapply forallb_head. exact Hall. }
      cbn [app]. rewrite star_greedy_blocked by (cbn; apply plain_char_not_space; exact Hb0).
      subst c. apply run_Lit_blocked. cbn. apply Hhc. exact Hb0.
  - unfold rest. apply blocked_app; assumption.
Qed.

(** The pattern of a shape rejects an expression whose id is followed by
    something else than its opening bracket. *)
Lemma shape_mismatch (o c id rest : list N) (ho : N) (o' : list N) :
  safe_id id ->
  o = ho :: o' -> (forall x, word_char x = true -> (ho =? x)%N = false) ->
  blocked Re.id_char rest -> blocked Re.space rest ->
  (forall (k : @Re.cont (nat * Re.caps)) pos cp, Re.run (Re.Lit o) k pos rest cp = None) ->
  Re.rmatch (SHAPE_RE o c) (id ++ rest) = None.
Proof.
  intros [Hid_ne Hid] Ho Hho Hrest_id Hrest_sp Hlit.
  destruct id as [| i0 id']; [congruence |].
  cbn [forallb] in Hid. apply andb_true_iff in Hid. destruct Hid as [Hi0 Hid'].
  unfold Re.rmatch, SHAPE_RE, Re.Seqs, Re.Plus.
  cbn [fold_right Re.run Nat.eqb app].
  rewrite (word_char_id i0 Hi0).
  rewrite star_greedy_none; [reflexivity | | exact Hrest_id].
  intros a b Hab.
  destruct b as [| b0 b].
  - cbn [app]. rewrite star_greedy_blocked by exact Hrest_sp. apply Hlit.
  - assert (Hb0 : word_char b0 = true).
    { rewrite Hab, forallb_app in Hid'. apply andb_true_iff in Hid'.
      destruct Hid' as [_ Hall]. eapply forallb_head. exact Hall. }
    cbn [app]. rewrite star_greedy_blocked
      by (cbn; apply plain_char_not_space, word_char_plain; exact Hb0).
    subst o. apply run_Lit_blocked. cbn. apply Hho. exact Hb0.
Qed.

Lemma match_shapes_skip (before after : list (list N * list N * list N)) (id rest : list N) :
  safe_id id ->
  blocked Re.id_char rest -> blocked Re.space rest ->
  Forall (fun '(o, _, _) => literal_rejects o rest) before ->
  match_shapes (before ++ after) (id ++ rest) = match_shapes after (id ++ rest).
Proof.
  intros Hid Hb1 Hb2 Hall. induction Hall as [| [[o c] dk] before Hrej _ IH]; [reflexivity |].
  cbn [app match_shapes].
  destruct Hrej as [(ho & o' & Ho & Hho) Hlit].
  rewrite (shape_mismatch o c id rest ho o' Hid Ho Hho Hb1 Hb2 Hlit). exact IH.
Qed.

Lemma lstrip_blocked (s : list N) : blocked py_isspace s -> lstrip s = s.
Proof. destruct s as [| x s]; [reflexivity |]. cbn. intros ->. reflexivity. Qed.

Lemma rstrip_snoc (s : list N) (x : N) :
  py_isspace x = false -> rstrip (s ++ [x]) = s ++ [x].
Proof.
  intros Hx. unfold rstrip. rewrite rev_app_distr. cbn [rev app lstrip].
  rewrite Hx. rewrite <- (rev_involutive s) at 2.
  change (x :: rev s) with ([x] ++ rev s). rewrite rev_app_distr. reflexivity.
Qed.

Lemma strip_fixed (s : list N) (x : N) :
  blocked py_isspace (s ++ [x]) -> py_isspace x = false -> strip (s ++ [x]) = s ++ [x].
Proof.
  intros Hb Hx. unfold strip. rewrite lstrip_blocked by exact Hb.
  apply rstrip_snoc. exact Hx.
Qed.

Lemma class_search_skip (B rest : list N) :
  forallb (fun c => negb (58 =? c)%N) B = true ->
  forall pos, Re.search_from CLASS_RE pos (B ++ rest)
              = Re.search_from CLASS_RE (pos + length B) rest.
Proof.
  intros HB. induction B as [| x B IH]; intros pos.
  - cbn [app length]. rewrite Nat.add_0_r. reflexivity.
  - cbn [forallb] in HB. apply andb_true_iff in HB. destruct HB as [Hx HB].
    apply negb_true_iff in Hx.
    cbn [app Re.search_from].
    assert (Hrun : Re.run CLASS_RE Re.accept pos (x :: B ++ rest) [] = None).
    { unfold CLASS_RE, Re.Seqs. cbn [fold_right Re.run].
      apply run_Lit_blocked. exact Hx. }
    rewrite Hrun, IH by exact HB. f_equal. cbn [length]. lia.
Qed.

Lemma class_search_tag (kn : list N) (pos : nat) :
  kn <> [] -> forallb Re.id_char kn = true ->
  Re.search_from CLASS_RE pos ([58; 58; 58]%N ++ kn) = Some (pos, [("kind"%string, kn)]).
Proof.
  intros Hne Hkn. destruct kn as [| k0 kn']; [congruence |].
  cbn [forallb] in Hkn. apply andb_true_iff in Hkn. destruct Hkn as [Hk0 Hkn'].
  cbn [app Re.search_from].
  assert (Hrun : exists n, Re.run CLASS_RE Re.accept pos (58 :: 58 :: 58 :: k0 :: kn')%N []
                           = Some (n, [("kind"%string, k0 :: kn')])).
  { eexists. unfold CLASS_RE, Re.Seqs, Re.Plus.
    change (58 :: 58 :: 58 :: k0 :: kn')%N with ([58; 58; 58]%N ++ k0 :: kn').
    cbn [fold_right Re.run]. change (u ":::") with [58; 58; 58]%N.
    rewrite run_Lit. cbn [Re.run]. rewrite Hk0.
    rewrite <- (app_nil_r kn') at 1.
    erewrite star_greedy_take; [reflexivity | exact Hkn' | | exact I].
    cbn [Re.run Re.star_greedy Re.at_end Re.accept].
    replace (S (pos + length [58%N; 58%N; 58%N]) + length kn' - (pos + length [58%N; 58%N; 58%N]))
      with (length (k0 :: kn')) by (cbn [length]; lia).
    rewrite firstn_all. reflexivity. }
  destruct Hrun as [n ->]. reflexivity.
Qed.

Lemma ends_app (P : N -> Prop) (s t : list N) :
  (exists t' x, t = t' ++ [x] /\ P x) -> exists s' x, s ++ t = s' ++ [x] /\ P x.
Proof.
  intros (t' & x & -> & Hx). exists (s ++ t'), x. split; [apply app_assoc | exact Hx].
Qed.

Lemma ends_forallb (p : N -> bool) (s : list N) :
  s <> [] -> forallb p s = true -> exists s' x, s = s' ++ [x] /\ p x = true.
Proof.
  intros Hne Hall. destruct (exists_last Hne) as (s' & x & ->).
  exists s', x. split; [reflexivity |].
  rewrite forallb_app in Hall. apply andb_true_iff in Hall. cbn in Hall.
  destruct Hall as [_ Hx]. apply andb_true_iff in Hx. tauto.
Qed.

Lemma strip_ends (s : list N) :
  blocked py_isspace s -> (exists s' x, s = s' ++ [x] /\ py_isspace x = false) ->
  strip s = s.
Proof. intros Hb (s' & x & -> & Hx). apply strip_fixed; assumption. Qed.

Lemma id_char_not_space (c : N) : Re.id_char c = true -> py_isspace c = false.
Proof. intros Hc. char_facts. Qed.

Lemma word_char_not_colon (c : N) : word_char c = true -> negb (58 =? c)%N = true.
Proof. intros Hc. apply negb_true_iff. char_facts. Qed.

Lemma plain_char_not_colon (c : N) : plain_char c = true -> negb (58 =? c)%N = true.
Proof. intros Hc. apply negb_true_iff. char_facts. Qed.

Lemma forallb_impl {B} (f g : B -> bool) (l : list B) :
  (forall x, f x = true -> g x = true) -> forallb f l = true -> forallb g l = true.
Proof.
  intros Hfg. rewrite !forallb_forall. intros Hf x Hx. apply Hfg, Hf, Hx.
Qed.

(** An expression written with the brackets of one of the shapes, with or
    without a class tag, is read back as it was written. *)
Lemma split_node_token_shape (before after : list (list N * list N * list N))
    (o c dk sp1 sp2 id label tag : list N) (ko : option (list N)) (hc lc : N) (c' c'' : list N) :
  SHAPES = before ++ (o, c, dk) :: after ->
  safe_id id -> plain_label label ->
  forallb py_isspace sp1 = true -> forallb py_isspace sp2 = true ->
  blocked Re.id_char o -> blocked Re.space o -> o <> [] ->
  c = hc :: c' -> py_isspace hc = false ->
  (forall x, plain_char x = true -> (hc =? x)%N = false) ->
  c = c'' ++ [lc] -> py_isspace lc = false ->
  forallb (fun x => negb (58 =? x)%N) (o ++ sp1 ++ sp2 ++ c) = true ->
  Forall (fun '(o', _, _) => literal_rejects o' (o ++ sp1 ++ label ++ sp2 ++ c)) before ->
  (tag = [] /\ ko = None \/
   exists kn, tag = [58; 58; 58]%N ++ kn /\ ko = Some kn /\ kn <> [] /\
              forallb Re.id_char kn = true) ->
  split_node_token (id ++ o ++ sp1 ++ label ++ sp2 ++ c ++ tag)
    = Ok (id, label, override_kind ko dk).
Proof.
  intros HS Hid Hlabel Hsp1 Hsp2 Hbo1 Hbo2 Ho Hc Hhc Hhcp Hc2 Hlc Hcolon Hbefore Htag.
  set (B := id ++ o ++ sp1 ++ label ++ sp2 ++ c).
  assert (Htok : id ++ o ++ sp1 ++ label ++ sp2 ++ c ++ tag = B ++ tag).
  { unfold B. rewrite <- !app_assoc. reflexivity. }
  assert (HbB : forall t, blocked py_isspace (B ++ t)).
  { intros t. unfold B. destruct Hid as [Hne Hall]. destruct id as [| i0 id']; [congruence |].
    cbn. apply forallb_head in Hall. apply plain_char_not_space, word_char_plain, Hall. }
  assert (HeB : exists s' x, B = s' ++ [x] /\ py_isspace x = false).
  { unfold B. do 5 apply ends_app. exists c'', lc. split; assumption. }
  assert (HsB : strip B = B).
  { apply strip_ends; [| exact HeB]. rewrite <- (app_nil_r B). apply HbB. }
  assert (HcB : forallb (fun x => negb (58 =? x)%N) B = true).
  { unfold B. rewrite !forallb_app in *. 
    destruct Hid as [_ Hid]. destruct Hlabel as [_ Hlabel].
    apply (forallb_impl _ _ _ word_char_not_colon) in Hid.
    apply (forallb_impl _ _ _ plain_char_not_colon) in Hlabel.
    rewrite !andb_true_iff in *. tauto. }
  assert (Hshapes : match_shapes SHAPES B = Some (id, label, dk)).
  { rewrite HS. unfold B. rewrite match_shapes_skip.
    - cbn [match_shapes].
      rewrite (shape_match o c sp1 sp2 id label hc c') by assumption. reflexivity.
    - exact Hid.
    - apply blocked_app; assumption.
    - apply blocked_app; assumption.
    - exact Hbefore. }
  unfold split_node_token. rewrite Htok.
  destruct Htag as [[-> ->] | (kn & -> & -> & Hkn & Hkid)].
  - rewrite app_nil_r, HsB. unfold Re.search.
    rewrite <- (app_nil_r B) at 1. rewrite class_search_skip by exact HcB.
    cbn [Re.search_from]. 
    replace (Re.run CLASS_RE Re.accept (0 + length B) [] []) with (@None (nat * Re.caps))
      by reflexivity.
    rewrite Hshapes. reflexivity.
  - assert (Hs : strip (B ++ [58; 58; 58]%N ++ kn) = B ++ [58; 58; 58]%N ++ kn).
    { apply strip_ends; [apply HbB |]. do 2 apply ends_app.
      destruct (ends_forallb _ kn Hkn Hkid) as (s' & x & -> & Hx).
      exists s', x. split; [reflexivity | apply id_char_not_space, Hx]. }
    rewrite Hs. unfold Re.search.
    rewrite class_search_skip by exact HcB.
    rewrite class_search_tag by assumption.
    replace (firstn (0 + length B) (B ++ [58; 58; 58]%N ++ kn)) with B
      by (cbn [Nat.add]; rewrite firstn_app, Nat.sub_diag, firstn_all; cbn; symmetry; apply app_nil_r).
    rewrite HsB, Hshapes. reflexivity.
Qed.

Lemma table_get_in {V} (k : list N) (d : list (list N * V)) :
  is_Some (table_get k d) -> In k (map fst d).
Proof.
  unfold table_get. induction d as [| [k' v] d IH]; cbn [find map fst In].
  - intros [x Hx]. discriminate Hx.
  - unfold str_eqb at 1. destruct (bool_decide (k' = k)) eqn:E.
    + apply bool_decide_eq_true in E. auto.
    + intros Hk. right. apply IH, Hk.
Qed.

Lemma in_NODE_KIND_cases (kind : list N) :
  in_NODE_KIND (Some kind) = true -> In kind (map fst NODE_KIND).
Proof.
  unfold in_NODE_KIND. intros Hk. apply bool_decide_eq_true in Hk.
  apply table_get_in, Hk.
Qed.

Ltac literal_rejects_tac label Hlabel :=
  split;
  [ eexists _, _; split; [reflexivity | intros ? ?; char_facts]
  | intros ? ? ?;
    let l0 := fresh "l0" in
    let Hl0 := fresh "Hl0" in
    destruct Hlabel as [? Hl0]; destruct label as [| l0 ?]; [congruence |];
    apply forallb_head in Hl0;
    cbn [Re.Lit fold_right Re.run app];
    rewrite ?(plain_char_ne l0 91%N Hl0), ?(plain_char_ne l0 40%N Hl0),
            ?(plain_char_ne l0 47%N Hl0), ?(plain_char_ne l0 123%N Hl0)
      by (cbn [In]; tauto);
    reflexivity ].

Ltac token_shape j sp ko id label Hid Hlabel :=
  let sh := eval vm_compute in (nth j SHAPES ([], [], [])) in
  let bf := eval vm_compute in (firstn j SHAPES) in
  let af := eval vm_compute in (skipn (S j) SHAPES) in
  let ko' := eval vm_compute in ko in
  lazymatch sh with
  | (?o, ?c, ?dk) =>
    lazymatch c with
    | ?hc :: ?c' =>
      let c'' := eval vm_compute in (removelast c) in
      let lc := eval vm_compute in (List.last c 0%N) in
      let tag := lazymatch ko' with
                 | Some ?kn => constr:([58; 58; 58]%N ++ kn)
                 | None => constr:(@nil N)
                 end in
      change (split_node_token (id ++ o ++ sp ++ label ++ sp ++ c ++ tag)
              = Ok (id, label, override_kind ko' dk));
      apply (split_node_token_shape bf af o c dk sp sp id label tag ko' hc lc c' c'');
      [ reflexivity | exact Hid | exact Hlabel | reflexivity | reflexivity
      | reflexivity | reflexivity | discriminate | reflexivity | reflexivity
      | intros ? ?; apply plain_char_ne; [assumption | cbn [In]; tauto]
      | reflexivity | reflexivity | reflexivity
      | repeat (constructor; [literal_rejects_tac label Hlabel |]); constructor
      | first [ left; split; reflexivity
              | right; eexists; repeat split; [discriminate] ] ]
    end
  end.

(** Every node expression the generator writes is read back as the id, the
    label and the kind it was written from. *)
Lemma split_node_token_generated (kind id label : list N) :
  In kind (map fst NODE_KIND) -> safe_id id -> plain_label label ->
  split_node_token (format_template (template_for MERMAID_NODE_TEMPLATES kind) id label)
    = Ok (id, label, kind).
Proof.
  intros Hkind Hid Hlabel. unfold NODE_KIND in Hkind. cbn [map fst In] in Hkind.
  destruct Hkind as [<- | [<- | [<- | [<- | [<- | [<- | [<- | [<- | [<- | [<- | [<- | [<- |
                     [<- | [<- | [<- | [<- | [<- | [<- | [<- | []]]]]]]]]]]]]]]]]]]].
  - token_shape 0%nat [32%N] (@None (list N)) id label Hid Hlabel.
  - token_shape 6%nat (@nil N) (@None (list N)) id label Hid Hlabel.
  - token_shape 5%nat (@nil N) (@None (list N)) id label Hid Hlabel.
  - token_shape 4%nat [32%N] (@None (list N)) id label Hid Hlabel.
  - token_shape 6%nat (@nil N) (Some (u "document")) id label Hid Hlabel.
  - token_shape 6%nat (@nil N) (Some (u "multi_document")) id label Hid Hlabel.
  - token_shape 3%nat [32%N] (Some (u "data_storage")) id label Hid Hlabel.
  - token_shape 6%nat (@nil N) (Some (u "internal_storage")) id label Hid Hlabel.
  - token_shape 6%nat (@nil N) (Some (u "tape_data")) id label Hid Hlabel.
  - token_shape 2%nat (@nil N) (@None (list N)) id label Hid Hlabel.
  - token_shape 3%nat [32%N] (@None (list N)) id label Hid Hlabel.
  - token_shape 6%nat (@nil N) (Some (u "display")) id label Hid Hlabel.
  - token_shape 6%nat (@nil N) (Some (u "manual_operation")) id label Hid Hlabel.
  - token_shape 6%nat (@nil N) (Some (u "merge")) id label Hid Hlabel.
  - token_shape 4%nat [32%N] (Some (u "manual_input")) id label Hid Hlabel.
  - token_shape 1%nat (@nil N) (@None (list N)) id label Hid Hlabel.
  - token_shape 6%nat (@nil N) (Some (u "comment")) id label Hid Hlabel.
  - token_shape 5%nat (@nil N) (Some (u "loop")) id label Hid Hlabel.
  - token_shape 2%nat (@nil N) (Some (u "function")) id label Hid Hlabel.
Qed.

End NodeTokens.

(** ** Lines *)

Ltac norm_u :=
  repeat match goal with
         | |- context [u ?s] => let v := eval vm_compute in (u s) in change (u s) with v
         end.

Section Lines.
Local Open Scope nat_scope.

Lemma suffix_forallb {B} (p : B -> bool) (t s : list B) :
  t `suffix_of` s -> forallb p s = true -> forallb p t = true.
Proof.
  intros [k ->]. rewrite forallb_app. intros Hk. apply andb_true_iff in Hk. tauto.
Qed.

(** No arrow starts in a string without the characters [-], [=] and [<]. *)
Lemma arrow_rejects {A} (k : @Re.cont A) (s : list N) :
  arrow_free s = true -> rejects_suffixes (Re.run ARROW_RE k) s.
Proof.
  intros Hfree t pos c Ht. apply (suffix_forallb _ _ _ Ht) in Hfree.
  destruct t as [| x t].
  - unfold ARROW_RE, Re.Alts. norm_u. reflexivity.
  - cbn [forallb] in Hfree. apply andb_true_iff in Hfree. destruct Hfree as [Hx _].
    apply negb_true_iff in Hx. unfold arrow_char in Hx.
    apply orb_false_iff in Hx. destruct Hx as [Hx H60].
    apply orb_false_iff in Hx. destruct Hx as [H45 H61].
    unfold ARROW_RE, Re.Alts. norm_u.
    cbn [fold_left Re.run Re.Lit fold_right]. rewrite H45, H61, H60. reflexivity.
Qed.

Lemma edge_simple_none (line : list N) :
  arrow_free line = true -> Re.rmatch EDGE_SIMPLE_RE line = None.
Proof.
  intros Hfree. unfold Re.rmatch.
  change (Re.run EDGE_SIMPLE_RE Re.accept 0 line [])
    with (Re.run (Re.Seqs [Re.Bos; Re.Star true Re.space;
                           Re.Group "src" (Re.Plus false Re.dot); Re.Star true Re.space])
            (Re.run ARROW_RE
               (Re.run (Re.Seqs [Re.Star true Re.space;
                                 Re.Group "dst" (Re.Plus false Re.dot);
                                 Re.Star true Re.space; Re.Eos]) Re.accept))
            0 line []).
  rewrite (run_rejects _ _ line (arrow_rejects _ line Hfree) line 0 []); reflexivity.
Qed.

Lemma edge_with_pipe_label_none (line : list N) :
  arrow_free line = true -> Re.rmatch EDGE_WITH_PIPE_LABEL_RE line = None.
Proof.
  intros Hfree. unfold Re.rmatch.
  change (Re.run EDGE_WITH_PIPE_LABEL_RE Re.accept 0 line [])
    with (Re.run (Re.Seqs [Re.Bos; Re.Star true Re.space;
                           Re.Group "src" (Re.Plus false Re.dot); Re.Star true Re.space])
            (Re.run ARROW_RE
               (Re.run (Re.Seqs [Re.Star true Re.space;
                                 Re.Lit (u "|"); Re.Star true Re.space;
                                 Re.Group "label" (Re.Plus false (fun c => negb (c =? 124)%N));
                                 Re.Star true Re.space; Re.Lit (u "|"); Re.Star true Re.space;
                                 Re.Group "dst" (Re.Plus false Re.dot);
                                 Re.Star true Re.space; Re.Eos]) Re.accept))
            0 line []).
  rewrite (run_rejects _ _ line (arrow_rejects _ line Hfree) line 0 []); reflexivity.
Qed.

(** A line without arrows that reads as a node expression declares that
    node. *)
Lemma parse_line_node (line id label kind : list N) (ps : ParseState) :
  arrow_free line = true ->
  split_node_token line = Ok (id, label, kind) ->
  parse_line line ps
    = Ok (upsert_node (fst (resolve_node_id id label kind ps)) label kind
                      (snd (resolve_node_id id label kind ps))).
Proof.
  intros Hfree Htok. unfold parse_line.
  rewrite edge_with_pipe_label_none, edge_simple_none by exact Hfree.
  rewrite Htok. cbn. destruct (resolve_node_id id label kind ps). reflexivity.
Qed.

(** What a declaration adds to the state of the parser. *)
Lemma declare_fresh (id label kind : list N) (ps : ParseState) :
  p_alias_map ps !! (id, label, kind) = None ->
  p_nodes ps !! id = None ->
  upsert_node (fst (resolve_node_id id label kind ps)) label kind
              (snd (resolve_node_id id label kind ps))
    = {| p_nodes := <[id := (label, kind)]> (p_nodes ps);
         p_edges := p_edges ps;
         p_alias_map := <[(id, label, kind) := id]> (p_alias_map ps) |}.
Proof.
  intros Ha Hn. unfold resolve_node_id. rewrite Ha, Hn. cbn [fst snd].
  unfold upsert_node. cbn [p_nodes p_edges p_alias_map]. rewrite Hn. reflexivity.
Qed.

Lemma parse_lines_nodes (ts : list (list N * list N * list N)) :
  forall (lines : list (list N)) (ps : ParseState),
    Forall2 (fun line t => arrow_free line = true /\ split_node_token line = Ok t) lines ts ->
    List.NoDup (map (fun t => fst (fst t)) ts) ->
    (forall t, In t ts -> p_nodes ps !! fst (fst t) = None) ->
    (forall key v, p_alias_map ps !! key = Some v ->
                   ~ In (fst (fst key)) (map (fun t => fst (fst t)) ts)) ->
    exists ps', parse_lines lines ps = Ok ps' /\
                p_edges ps' = p_edges ps /\
                p_nodes ps' = list_to_map (map (fun t => (fst (fst t), (snd (fst t), snd t))) ts)
                                ∪ p_nodes ps.
Proof.
  induction ts as [| [[id label] kind] ts IH]; intros lines ps Hlines Hnd Hfresh Halias.
  - inversion Hlines; subst. exists ps. cbn. repeat split; try reflexivity.
    symmetry. apply (left_id_L ∅ (∪)).
  - inversion Hlines as [| line t lines' ts' [Hfree Htok] Hrest]; subst.
    cbn [map fst snd] in Hnd. apply List.NoDup_cons_iff in Hnd. destruct Hnd as [Hid Hnd].
    assert (Ha : p_alias_map ps !! (id, label, kind) = None).
    { destruct (p_alias_map ps !! (id, label, kind)) as [v |] eqn:E; [| reflexivity].
      exfalso. apply (Halias _ _ E). cbn. auto. }
    assert (Hn : p_nodes ps !! id = None).
    { apply (Hfresh (id, label, kind)). cbn. auto. }
    cbn [parse_lines]. rewrite (parse_line_node line id label kind ps Hfree Htok).
    rewrite (declare_fresh id label kind ps Ha Hn). cbn [mbind result_bind].
    set (ps1 := {| p_nodes := <[id := (label, kind)]> (p_nodes ps);
                   p_edges := p_edges ps;
                   p_alias_map := <[(id, label, kind) := id]> (p_alias_map ps) |}).
    destruct (IH lines' ps1 Hrest Hnd) as (ps' & Hrun & Hedges & Hnodes).
    + intros t Ht. unfold ps1. cbn [p_nodes].
      rewrite lookup_insert_ne.
      * apply Hfresh. cbn. auto.
      * intros ->. apply Hid. apply in_map_iff. exists t. auto.
    + intros key v. unfold ps1. cbn [p_alias_map]. intros Hkey Hin.
      destruct (decide ((id, label, kind) = key)) as [<- | Hne].
      * cbn in Hin. contradiction.
      * rewrite lookup_insert_ne in Hkey by exact Hne.
        apply (Halias _ _ Hkey). cbn. auto.
    + exists ps'. split; [exact Hrun |]. split; [rewrite Hedges; reflexivity |].
      rewrite Hnodes. unfold ps1. cbn [p_nodes map list_to_map fst snd uncurry].
      rewrite list_to_map_cons, <- insert_union_l. symmetry. apply insert_union_r.
      apply not_elem_of_list_to_map_1. rewrite <- list_fmap_compose.
      intros Hin. apply Hid. apply list_elem_of_In in Hin.
      apply in_map_iff in Hin. destruct Hin as (t & Ht & Hin).
      apply in_map_iff. exists t. split; [exact Ht | exact Hin].
Qed.

End Lines.

(** ** Labels the escaping leaves alone *)
Section Escaping.
Local Open Scope nat_scope.

Lemma replace_absent (o0 : N) (old' new s : list N) :
  forallb (fun x => negb (o0 =? x)%N) s = true -> replace (o0 :: old') new s = s.
Proof.
  unfold replace. induction s as [| x s IH]; [reflexivity |].
  cbn [forallb]. intros Hs. apply andb_true_iff in Hs. destruct Hs as [Hx Hs].
  apply negb_true_iff in Hx. cbn [replace_from starts_with]. rewrite Hx. cbn [andb].
  rewrite IH by exact Hs. reflexivity.
Qed.

Lemma sub_absent (r : Re.regex) (repl : list N) (p : N -> bool) :
  (forall x t pos, p x = true -> Re.run r Re.accept pos (x :: t) [] = None) ->
  forall s pos, forallb p s = true -> Re.sub_from r repl pos 0 s = s.
Proof.
  intros Hr. induction s as [| x s IH]; intros pos Hs; [reflexivity |].
  cbn [forallb] in Hs. apply andb_true_iff in Hs. destruct Hs as [Hx Hs].
  cbn [Re.sub_from]. rewrite (Hr x s pos Hx), IH by exact Hs. reflexivity.
Qed.

Lemma plain_forallb (q : N -> bool) (label : list N) :
  (forall x, plain_char x = true -> q x = true) ->
  forallb plain_char label = true -> forallb q label = true.
Proof. apply forallb_impl. Qed.

Lemma plain_without (c : N) (label : list N) :
  In c [10; 13; 124; 45; 60]%N ->
  forallb plain_char label = true -> forallb (fun x => negb (c =? x)%N) label = true.
Proof.
  intros Hc. apply forallb_impl. intros x Hx. apply negb_true_iff.
  cbn [In] in Hc. destruct Hc as [<- | [<- | [<- | [<- | [<- | []]]]]]; char_facts.
Qed.

Lemma strip_plain (label : list N) : plain_label label -> strip label = label.
Proof.
  intros [Hne Hall]. apply strip_ends.
  - destruct label as [| x label]; [congruence |]. cbn.
    apply forallb_head in Hall. apply plain_char_not_space, Hall.
  - destruct (ends_forallb _ label Hne Hall) as (s' & x & -> & Hx).
    exists s', x. split; [reflexivity | apply plain_char_not_space, Hx].
Qed.

(** [mermaid_escape_label] changes nothing in a label of plain characters. *)
Lemma mermaid_escape_label_plain (label : list N) :
  plain_label label -> mermaid_escape_label label = label.
Proof.
  intros Hlabel. pose proof Hlabel as [Hne Hall].
  unfold mermaid_escape_label. norm_u.
  rewrite (replace_absent 10%N)
    by (apply plain_without; [cbn [In]; tauto | exact Hall]).
  rewrite (replace_absent 13%N)
    by (apply plain_without; [cbn [In]; tauto | exact Hall]).
  rewrite (replace_absent 124%N)
    by (apply plain_without; [cbn [In]; tauto | exact Hall]).
  unfold Re.sub.
  rewrite (sub_absent BRACKETS_RE _ plain_char); [| | exact Hall].
  2:{ intros x t pos Hx. unfold BRACKETS_RE. norm_u. cbn [Re.run Re.one_of existsb].
      destruct (_ || _) eqn:E; [exfalso; char_facts | reflexivity]. }
  rewrite (sub_absent ESCAPE_ARROWS_RE _ plain_char); [| | exact Hall].
  2:{ intros x t pos Hx. unfold ESCAPE_ARROWS_RE, Re.Alts, Re.Seqs. norm_u.
      cbn [fold_left fold_right Re.run Re.Lit].
      rewrite !(plain_char_ne x 45%N Hx), !(plain_char_ne x 61%N Hx) by (cbn [In]; tauto).
      reflexivity. }
  rewrite (replace_absent 45%N)
    by (apply plain_without; [cbn [In]; tauto | exact Hall]).
  rewrite (replace_absent 60%N)
    by (apply plain_without; [cbn [In]; tauto | exact Hall]).
  rewrite (sub_absent SPACES_RE _ plain_char); [| | exact Hall].
  2:{ intros x t pos Hx. unfold SPACES_RE, Re.Plus, Re.space. cbn [Re.run].
      rewrite (plain_char_not_space x Hx). reflexivity. }
  apply strip_plain, Hlabel.
Qed.

End Escaping.

(** ** The lines of a generated text *)
Section GeneratedLines.
Local Open Scope nat_scope.

Lemma ci_letter (ch x : N) :
  (97 <= ch <= 122)%N \/ (65 <= ch <= 90)%N ->
  Re.ci ch x = true -> word_char x = true.
Proof.
  unfold Re.ci, Re.ascii_lower. intros Hch Hx. apply N.eqb_eq in Hx.
  destruct ((65 <=? x)%N && (x <=? 90)%N) eqn:Ex;
    destruct ((65 <=? ch)%N && (ch <=? 90)%N) eqn:Ec; char_facts.
Qed.

(** A word followed by white space does not match where the word
    characters are followed by a bracket. *)
Lemma litci_needs_space {A} (k : @Re.cont A) (w : list N) :
  (forall pos s c, blocked Re.space s -> k pos s c = None) ->
  Forall (fun ch => forall x, Re.ci ch x = true -> word_char x = true) w ->
  forall (id rest : list N) pos c,
    forallb word_char id = true -> blocked word_char rest -> blocked Re.space rest ->
    Re.run (Re.LitCI w) k pos (id ++ rest) c = None.
Proof.
  intros Hk Hw. induction Hw as [| ch w Hch _ IH]; intros id rest pos c Hid Hr1 Hr2.
  - cbn [Re.LitCI fold_right Re.run]. apply Hk.
    destruct id as [| i0 id]; [exact Hr2 |]. cbn.
    apply forallb_head in Hid. apply plain_char_not_space, word_char_plain, Hid.
  - change (Re.LitCI (ch :: w)) with (Re.Seq (Re.Chr (Re.ci ch)) (Re.LitCI w)).
    cbn [Re.run]. destruct id as [| i0 id].
    + cbn [app]. destruct rest as [| x rest]; [reflexivity |].
      destruct (Re.ci ch x) eqn:E; [| reflexivity].
      apply Hch in E. cbn in Hr1. congruence.
    + cbn [app]. destruct (Re.ci ch i0); [| reflexivity].
      cbn [forallb] in Hid. apply andb_true_iff in Hid. destruct Hid as [_ Hid].
      apply IH; assumption.
Qed.

Ltac letters :=
  repeat (constructor; [intros ? ?; eapply ci_letter; [| eassumption]; lia |]);
  constructor.

(** A node expression is not taken for the header. *)
Lemma flow_header_none (id rest : list N) :
  safe_id id -> blocked word_char rest -> blocked Re.space rest ->
  Re.rmatch FLOW_HEADER_RE (id ++ rest) = None.
Proof.
  intros [Hne Hid] Hr1 Hr2. unfold Re.rmatch, FLOW_HEADER_RE, Re.Seqs.
  cbn [fold_right]. cbn [Re.run Nat.eqb].
  rewrite star_greedy_blocked.
  2:{ destruct id as [| i0 id]; [congruence |]. cbn.
      apply forallb_head in Hid. apply plain_char_not_space, word_char_plain, Hid. }
  assert (Hk : forall (K : @Re.cont (nat * Re.caps)) pos s c,
                 blocked Re.space s -> Re.run (Re.Plus true Re.space) K pos s c = None).
  { intros K pos s c Hs. unfold Re.Plus. cbn [Re.run].
    destruct s as [| x s]; [reflexivity |]. cbn in Hs. rewrite Hs. reflexivity. }
  norm_u.
  rewrite !litci_needs_space; try assumption; try (apply Hk); try reflexivity; letters.
Qed.

Lemma template_for_in (kind : list N) :
  In (template_for MERMAID_NODE_TEMPLATES kind) (map snd MERMAID_NODE_TEMPLATES).
Proof.
  unfold template_for. destruct (table_get kind MERMAID_NODE_TEMPLATES) as [v |] eqn:E.
  - cbn [default]. unfold table_get in E.
    destruct (find _ MERMAID_NODE_TEMPLATES) as [[k' v'] |] eqn:F; [| discriminate E].
    cbn in E. injection E as <-. apply find_some in F. destruct F as [F _].
    apply in_map_iff. exists (k', v'). auto.
  - cbn [default]. vm_compute. tauto.
Qed.

Lemma template_for_ok (kind : list N) :
  template_chars_ok (template_for MERMAID_NODE_TEMPLATES kind) = true.
Proof.
  assert (Hall : forallb template_chars_ok (map snd MERMAID_NODE_TEMPLATES) = true)
    by (vm_compute; reflexivity).
  rewrite forallb_forall in Hall. apply Hall, template_for_in.
Qed.

Lemma kind_nonempty (kind : list N) : in_NODE_KIND (Some kind) = true -> nonempty kind = true.
Proof. destruct kind; [vm_compute; discriminate | reflexivity]. Qed.

Lemma node_to_mermaid_plain (n : StreamlitFlowNode) :
  plain_node n ->
  node_to_mermaid n
    = format_template (template_for MERMAID_NODE_TEMPLATES (n_kind n)) (n_id n) (n_label n).
Proof.
  intros (Hid & Hlabel & Hkind).
  assert (Hl : nonempty (n_label n) = true).
  { destruct Hlabel as [Hne _]. destruct (n_label n); [congruence | reflexivity]. }
  assert (Hg : get_node_label n = n_label n).
  { unfold get_node_label. rewrite Hl. reflexivity. }
  unfold node_to_mermaid, get_node_kind. rewrite Hg.
  unfold str_or. rewrite Hl, (kind_nonempty _ Hkind).
  rewrite (mermaid_escape_label_plain _ Hlabel). reflexivity.
Qed.

Lemma word_arrow_free (s : list N) : forallb word_char s = true -> arrow_free s = true.
Proof.
  apply forallb_impl. intros x Hx. apply negb_true_iff. unfold arrow_char. char_facts.
Qed.

Lemma plain_arrow_free (s : list N) : forallb plain_char s = true -> arrow_free s = true.
Proof.
  apply forallb_impl. intros x Hx. apply negb_true_iff. unfold arrow_char. char_facts.
Qed.

Lemma plain_no_linebreak (s : list N) : forallb plain_char s = true -> no_linebreak s = true.
Proof.
  apply forallb_impl. intros x Hx. apply negb_true_iff, plain_char_not_linebreak, Hx.
Qed.

Lemma word_plain (s : list N) : forallb word_char s = true -> forallb plain_char s = true.
Proof. apply forallb_impl, word_char_plain. Qed.

(** What the parser finds in the line of a node. *)
Lemma generated_line (n : StreamlitFlowNode) :
  plain_node n ->
  let line := node_to_mermaid n in
  strip (u "    " ++ line) = line /\
  nonempty line = true /\
  starts_with (u "%%") line = false /\
  Re.rmatch FLOW_HEADER_RE line = None /\
  arrow_free line = true /\
  no_linebreak (u "    " ++ line) = true /\
  split_node_token line = Ok (node_fields n).
Proof.
  intros Hn. pose proof Hn as (Hid & Hlabel & Hkind). cbv zeta.
  rewrite (node_to_mermaid_plain n Hn).
  pose proof (split_node_token_generated (n_kind n) (n_id n) (n_label n)
                (in_NODE_KIND_cases _ Hkind) Hid Hlabel) as Htok.
  pose proof (template_for_ok (n_kind n)) as Hok.
  unfold format_template in *.
  destruct (template_for MERMAID_NODE_TEMPLATES (n_kind n)) as [a b].
  unfold template_chars_ok in Hok. cbn [fst snd] in *.
  rewrite !andb_true_iff in Hok.
  destruct Hok as (((((Ha1 & Hb1) & Ha2) & Hb2) & Ha3) & Hb3).
  destruct a as [| a0 a]; [discriminate Ha3 |].
  apply andb_true_iff in Ha3. destruct Ha3 as [Ha3 Ha4].
  apply negb_true_iff in Ha3, Ha4.
  destruct (last b) as [lb |] eqn:Elast; [| discriminate Hb3].
  apply negb_true_iff in Hb3. apply last_Some in Elast. destruct Elast as [b' ->].
  destruct Hid as [Hidne Hidall]. destruct Hlabel as [Hlne Hlall].
  destruct (n_id n) as [| i0 id] eqn:Eid; [congruence |].
  pose proof (forallb_head _ _ _ Hidall) as Hi0.
  set (line := (i0 :: id) ++ (a0 :: a) ++ n_label n ++ b' ++ [lb]) in *.
  assert (Hstrip : strip line = line).
  { apply strip_ends.
    - cbn. apply plain_char_not_space, word_char_plain, Hi0.
    - unfold line. do 3 apply ends_app. exists b', lb. auto. }
  refine (conj _ (conj _ (conj _ (conj _ (conj _ (conj _ _)))))).
  - change (strip (u "    " ++ line)) with (strip line). exact Hstrip.
  - reflexivity.
  - unfold line. norm_u. cbn [app starts_with].
    replace (37 =? i0)%N with false by (symmetry; char_facts). reflexivity.
  - unfold line. apply flow_header_none.
    + split; [congruence | exact Hidall].
    + exact Ha3.
    + exact Ha4.
  - unfold line, arrow_free. rewrite !forallb_app.
    fold (arrow_free (i0 :: id)) (arrow_free (a0 :: a)) (arrow_free (n_label n))
         (arrow_free (b' ++ [lb])).
    rewrite (word_arrow_free _ Hidall), Ha1, (plain_arrow_free _ Hlall).
    unfold arrow_free in Hb1. rewrite forallb_app in Hb1. rewrite Hb1. reflexivity.
  - pose proof (plain_no_linebreak _ (word_plain _ Hidall)) as H1.
    pose proof (plain_no_linebreak _ Hlall) as H2.
    unfold no_linebreak in Ha2, Hb2, H1, H2 |- *.
    change (u "    ") with [32; 32; 32; 32]%N. unfold line.
    rewrite !forallb_app. rewrite forallb_app in Hb2.
    rewrite H1, Ha2, H2, Hb2. reflexivity.
  - unfold node_fields. rewrite Eid. exact Htok.
Qed.

Lemma splitlines_from_line (l : list N) :
  no_linebreak l = true ->
  forall cur rest, splitlines_from cur (l ++ rest) = splitlines_from (rev l ++ cur) rest.
Proof.
  induction l as [| x l IH]; intros Hl cur rest; [reflexivity |].
  unfold no_linebreak in Hl. cbn [forallb] in Hl. apply andb_true_iff in Hl.
  destruct Hl as [Hx Hl]. apply negb_true_iff in Hx.
  cbn [app splitlines_from rev]. rewrite Hx, (IH Hl), <- app_assoc. reflexivity.
Qed.

Lemma splitlines_join (ls : list (list N)) :
  forall l, Forall (fun s => no_linebreak s = true /\ s <> []) (l :: ls) ->
            splitlines (join [10%N] (l :: ls)) = l :: ls.
Proof.
  unfold splitlines. induction ls as [| l2 ls IH]; intros l Hall.
  - inversion Hall as [| ? ? [Hl Hne] _]; subst. cbn [join].
    rewrite <- (app_nil_r l) at 1. rewrite splitlines_from_line by exact Hl.
    rewrite app_nil_r. cbn [splitlines_from].
    assert (Hr : nonempty (rev l) = true).
    { destruct (rev l) eqn:E; [| reflexivity].
      apply (f_equal (@rev N)) in E. rewrite rev_involutive in E. cbn in E. congruence. }
    rewrite Hr, rev_involutive. reflexivity.
  - inversion Hall as [| ? ? [Hl Hne] Hrest]; subst.
    change (join [10%N] (l :: l2 :: ls)) with (l ++ [10%N] ++ join [10%N] (l2 :: ls)).
    rewrite splitlines_from_line by exact Hl. rewrite app_nil_r.
    cbn [app]. 
    change (splitlines_from (rev l) (10%N :: join [10%N] (l2 :: ls)))
      with (rev (rev l) :: splitlines_from [] (join [10%N] (l2 :: ls))).
    rewrite rev_involutive, (IH l2 Hrest). reflexivity.
Qed.

End GeneratedLines.

(** ** Round trip of a graph without edges *)
Section RoundTrip.
Context `{PyUnicode}.
Local Open Scope nat_scope.

Lemma sorted_perm {A} (lt : A -> A -> bool) (l : list A) : sorted lt l ≡ₚ l.
Proof.
  assert (Hins : forall x l', insert_sorted lt x l' ≡ₚ x :: l').
  { intros x l'. induction l' as [| y l' IH]; [reflexivity |].
    cbn [insert_sorted]. destruct (lt y x); [| reflexivity].
    rewrite IH. apply Permutation_swap. }
  induction l as [| x l IH]; [reflexivity |].
  cbn [sorted fold_right]. fold (sorted lt l). rewrite Hins, IH. reflexivity.
Qed.

Lemma clean_lines_nodes (raws lines : list (list N)) (d : list N) :
  Forall2 (fun raw line => strip raw = line /\ nonempty line = true /\
                           starts_with (u "%%") line = false /\
                           Re.rmatch FLOW_HEADER_RE line = None) raws lines ->
  clean_lines raws d = (lines, d).
Proof.
  induction 1 as [| raw line raws lines (Hs & Hn & Hc & Hh) _ IH]; [reflexivity |].
  cbn [clean_lines]. cbv zeta. rewrite Hs, Hn, Hc, Hh, IH. reflexivity.
Qed.

Lemma clean_lines_header (D : list N) (raws : list (list N)) (d : list N) :
  In D [u "TD"; u "TB"; u "LR"; u "RL"; u "BT"] ->
  clean_lines ((u "flowchart " ++ D) :: raws) d = clean_lines raws (py_upper D).
Proof.
  intros HD. cbn [In] in HD.
  destruct HD as [<- | [<- | [<- | [<- | [<- | []]]]]];
    match goal with
    | |- clean_lines (?hdr :: _) _ = clean_lines _ (py_upper ?D) =>
      assert (E1 : strip hdr = hdr) by (vm_compute; reflexivity);
      assert (E2 : Re.rmatch FLOW_HEADER_RE hdr = Some [("1"%string, D)])
        by (vm_compute; reflexivity);
      cbn [clean_lines]; cbv zeta; rewrite E1, E2; reflexivity
    end.
Qed.

Lemma lstrip_snoc (a : list N) (x : N) : py_isspace x = false -> lstrip (a ++ [x]) <> [].
Proof.
  intros Hx. induction a as [| a0 a IH]; cbn [app lstrip].
  - rewrite Hx. discriminate.
  - destruct (py_isspace a0); [exact IH | discriminate].
Qed.

Lemma strip_nonempty (x : N) (s : list N) :
  py_isspace x = false -> nonempty (strip (x :: s)) = true.
Proof.
  intros Hx. unfold strip. cbn [lstrip]. rewrite Hx. unfold rstrip. cbn [rev].
  pose proof (lstrip_snoc (rev s) x Hx) as Hne.
  destruct (lstrip (rev s ++ [x])) as [| y r]; [congruence |].
  cbn [rev]. destruct (rev r); reflexivity.
Qed.

Lemma join_head (sep p : list N) (ps : list (list N)) :
  exists r, join sep (p :: ps) = p ++ r.
Proof.
  destruct ps as [| q ps]; cbn [join].
  - exists []. symmetry. apply app_nil_r.
  - eexists. reflexivity.
Qed.

Lemma build_flow_nodes_fields (ses : Session) (m : gmap (list N) (list N * list N)) :
  map node_fields (map (normalize_node ses) (build_flow_nodes m))
    ≡ₚ map (fun e => (fst e, str_or (str_or (fst (snd e)) (fst e))
                                   (str_or (node_markdown (str_or (fst (snd e)) (fst e))
                                                          (str_or (snd (snd e)) (u "process")))
                                           (fst e)),
                      str_or (str_or (snd (snd e)) (u "process")) (u "process")))
           (map_to_list m).
Proof.
  unfold build_flow_nodes, enumerate. rewrite !map_map.
  match goal with |- _ ≡ₚ map ?g _ => set (f := g) end.
  set (l := sorted _ (map_to_list m)).
  transitivity (map f l).
  - assert (Hgen : forall (l : list (list N * (list N * list N))) k,
              map (fun x : nat * (list N * (list N * list N)) => node_fields (normalize_node ses
                     (let '(i, (nid, (label, kind))) := x in
                      make_node nid (str_or label nid) (str_or kind (u "process"))
                        (0 + inject_Z (Z.of_nat (i mod 3)) * 220,
                         0 + inject_Z (Z.of_nat (i / 3)) * 120)%Q)))
                  (imap (fun i x => (k + i, x)) l) = map f l).
    { clear. induction l as [| [nid [label kind]] l IH]; intros k; [reflexivity |].
      cbn [imap map]. f_equal.
      rewrite <- (IH (S k)). f_equal. apply imap_ext. intros i x _. cbn. f_equal. lia. }
    rewrite <- (Hgen l 0). reflexivity.
  - apply Permutation_map. apply sorted_perm.
Qed.

(** X1: a graph without edges whose nodes have distinct ids of word
    characters, labels of plain characters and known kinds comes back from
    [parse_mermaid (generate_mermaid G dir)] without edges and with the same
    ids, labels and kinds. *)
Theorem round_trip_without_edges (ses : Session) (G : StreamlitFlowState) (dir : list N) :
  edges G = [] -> nodes G <> [] ->
  List.NoDup (map n_id (nodes G)) ->
  Forall plain_node (nodes G) ->
  In (py_upper (str_or dir DEFAULT_DIRECTION)) [u "TD"; u "TB"; u "LR"; u "RL"; u "BT"] ->
  exists G', parse_mermaid ses (generate_mermaid G dir)
               = Ok (Some G', None, py_upper (py_upper (str_or dir DEFAULT_DIRECTION))) /\
             edges G' = [] /\
             map node_fields (nodes G') ≡ₚ map node_fields (nodes G).
Proof.
  intros He Hne Hnd Hplain Hdir.
  set (D := py_upper (str_or dir DEFAULT_DIRECTION)) in *.
  set (S := sorted node_id_ltb (nodes G)).
  assert (HS : S ≡ₚ nodes G) by apply sorted_perm.
  assert (HSplain : Forall plain_node S) by (rewrite HS; exact Hplain).
  assert (HSnd : List.NoDup (map n_id S)).
  { eapply Permutation_NoDup; [apply Permutation_map; symmetry; exact HS | exact Hnd]. }
  assert (HSne : S <> []).
  { intros E. rewrite E in HS. apply Permutation_nil in HS. congruence. }
  set (raws := map (fun n => u "    " ++ node_to_mermaid n) S).
  set (hdr := u "flowchart " ++ D).
  assert (Htext : generate_mermaid G dir = join [10%N] (hdr :: raws)).
  { unfold generate_mermaid. rewrite He. cbn [sorted fold_right map]. rewrite app_nil_r.
    reflexivity. }
  assert (Hhdr : no_linebreak hdr = true /\ exists r, hdr = 102%N :: r).
  { unfold hdr. cbn [In] in Hdir.
    destruct Hdir as [<- | [<- | [<- | [<- | [<- | []]]]]];
      (split; [vm_compute; reflexivity | eexists; vm_compute; reflexivity]). }
  destruct Hhdr as [Hhdr1 [hr Hhdr2]].
  assert (Hsplit : splitlines (join [10%N] (hdr :: raws)) = hdr :: raws).
  { apply splitlines_join. constructor.
    - split; [exact Hhdr1 | rewrite Hhdr2; discriminate].
    - unfold raws. apply Forall_map. eapply Forall_impl; [exact HSplain |].
      intros n Hn. destruct (generated_line n Hn) as (_ & _ & _ & _ & _ & Hnl & _).
      split; [exact Hnl | norm_u; discriminate]. }
  assert (Hclean : clean_lines (hdr :: raws) (session_direction ses)
                   = (map node_to_mermaid S, py_upper D)).
  { unfold hdr. rewrite clean_lines_header by exact Hdir. apply clean_lines_nodes.
    unfold raws. clear -HSplain. induction HSplain as [| n S Hn _ IH]; constructor; [| exact IH].
    destruct (generated_line n Hn) as (H1 & H2 & H3 & H4 & _). auto. }
  destruct (parse_lines_nodes (map node_fields S) (map node_to_mermaid S)
              {| p_nodes := ∅; p_edges := []; p_alias_map := ∅ |})
    as (ps' & Hrun & Hedges & Hnodes).
  { clear -HSplain. induction HSplain as [| n S Hn _ IH]; constructor; [| exact IH].
    destruct (generated_line n Hn) as (_ & _ & _ & _ & H5 & _ & H7). auto. }
  { rewrite map_map. exact HSnd. }
  { intros t _. apply lookup_empty. }
  { intros key v Hkey. cbn in Hkey. rewrite lookup_empty in Hkey. discriminate Hkey. }
  cbn [p_nodes p_edges] in Hedges, Hnodes.
  rewrite (right_id_L ∅ (∪)) in Hnodes.
  set (entries := map (fun t : list N * list N * list N => (t.1.1, (t.1.2, t.2)))
                      (map node_fields S)) in *.
  assert (Hnonempty : p_nodes ps' <> ∅).
  { rewrite Hnodes. unfold entries. destruct S as [| n S']; [congruence |].
    cbn [map]. rewrite list_to_map_cons. apply insert_non_empty. }
  eexists. split; [| split].
  - unfold parse_mermaid. rewrite Htext.
    destruct (join_head [10%N] hdr raws) as [r Hr0].
    assert (Hr : join [10%N] (hdr :: raws) = 102%N :: (hr ++ r))
      by (rewrite Hr0, Hhdr2; reflexivity).
    assert (Hn1 : nonempty (join [10%N] (hdr :: raws)) = true) by (rewrite Hr; reflexivity).
    assert (Hn2 : nonempty (strip (join [10%N] (hdr :: raws))) = true).
    { rewrite Hr. apply strip_nonempty. reflexivity. }
    rewrite Hn1, Hn2. cbn [negb orb].
    rewrite Hsplit, Hclean, Hrun. cbn [mbind result_bind].
    rewrite bool_decide_false by exact Hnonempty. reflexivity.
  - cbn [edges normalize_state]. rewrite Hedges. reflexivity.
  - cbn [nodes normalize_state].
    rewrite build_flow_nodes_fields, Hnodes.
    rewrite map_to_list_to_map.
    2:{ unfold entries. rewrite <- list_fmap_compose.
        apply NoDup_ListNoDup.
        match goal with |- List.NoDup ?l => replace l with (map n_id S); [exact HSnd |] end.
        clear. induction S as [| n S IH]; [reflexivity |].
        cbn [map fmap list_fmap]. f_equal. exact IH. }
    rewrite <- HS. unfold entries. rewrite !map_map.
    erewrite map_ext_in; [reflexivity |].
    intros n Hin. rewrite Forall_forall in HSplain.
    destruct (HSplain n) as (Hid & [Hlne _] & Hkind).
    { apply list_elem_of_In. exact Hin. }
    unfold node_fields. cbn [fst snd].
    pose proof (kind_nonempty _ Hkind) as Hk.
    assert (Hl : nonempty (n_label n) = true)
      by (destruct (n_label n); [congruence | reflexivity]).
    unfold str_or. rewrite Hl, Hk. cbn [nonempty]. rewrite Hl, Hk. reflexivity.
Qed.

End RoundTrip.

Lemma round_trip_without_edges_witness :
  let ses := {| session_direction := u "TD"; enable_grid_snap := false |} in
  let G := {| nodes := [make_node (u "s") (u "Başla") (u "terminal") (0, 0)%Q;
                        make_node (u "k") (u "Karar") (u "decision") (0, 0)%Q;
                        make_node (u "d") (u "Belge") (u "document") (0, 0)%Q];
              edges := [] |} in
  exists G', parse_mermaid ses (generate_mermaid G (u "LR"))
               = Ok (Some G', None, py_upper (py_upper (str_or (u "LR") DEFAULT_DIRECTION))) /\
             edges G' = [] /\
             map node_fields (nodes G') ≡ₚ map node_fields (nodes G).
Proof.
  intros ses G. apply (round_trip_without_edges ses G (u "LR")).
  - reflexivity.
  - discriminate.
  - vm_compute. repeat constructor; cbn [In]; intuition discriminate.
  - repeat constructor; vm_compute; try reflexivity; discriminate.
  - vm_compute. right. right. left. reflexivity.
Defined.
(** ** Bare ids *)
Section BareTokens.
Local Open Scope nat_scope.

Lemma bare_id_match (id : list N) :
  safe_id id -> Re.rmatch BARE_ID_RE id = Some [("id"%string, id)].
Proof.
  intros [Hne Hall]. destruct id as [| i0 id]; [congruence |].
  cbn [forallb] in Hall. apply andb_true_iff in Hall. destruct Hall as [Hi0 Hall].
  unfold Re.rmatch.
  assert (Hrun : exists n, Re.run BARE_ID_RE Re.accept 0 (i0 :: id) []
                           = Some (n, [("id"%string, i0 :: id)])).
  { eexists. unfold BARE_ID_RE, Re.Seqs, Re.Plus. cbn [fold_right Re.run Nat.eqb].
    rewrite (word_char_id _ Hi0).
    rewrite <- (app_nil_r id) at 1.
    erewrite star_greedy_take;
      [reflexivity | apply (forallb_impl _ _ _ word_char_id), Hall | | exact I].
    cbn [Re.run Re.star_greedy Re.at_end Re.accept].
    replace (1 + length id - 0) with (length (i0 :: id)) by (cbn [length]; lia).
    rewrite firstn_all. reflexivity. }
  destruct Hrun as [n ->]. reflexivity.
Qed.

Lemma no_shape_on_bare_id (id : list N) :
  safe_id id -> match_shapes SHAPES id = None.
Proof.
  intros Hid. rewrite <- (app_nil_r id), <- (app_nil_r SHAPES).
  rewrite match_shapes_skip; [reflexivity | exact Hid | exact I | exact I |].
  unfold SHAPES. norm_u.
  repeat (constructor;
          [split; [eexists _, _; split; [reflexivity | intros x Hx; char_facts]
                  | intros k pos cp; reflexivity] |]).
  constructor.
Qed.

Lemma kind_id_chars (kind : list N) :
  in_NODE_KIND (Some kind) = true -> forallb Re.id_char kind = true.
Proof.
  intros Hk. apply in_NODE_KIND_cases in Hk.
  assert (Hall : forallb (forallb Re.id_char) (map fst NODE_KIND) = true)
    by (vm_compute; reflexivity).
  rewrite forallb_forall in Hall. apply Hall, Hk.
Qed.

Lemma split_node_token_bare (id tag : list N) (ko : option (list N)) :
  safe_id id ->
  (tag = [] /\ ko = None \/
   exists kn, tag = [58; 58; 58]%N ++ kn /\ ko = Some kn /\ kn <> [] /\
              forallb Re.id_char kn = true) ->
  split_node_token (id ++ tag) = Ok (id, id, override_kind ko (u "process")).
Proof.
  intros Hid Htag. pose proof Hid as [Hne Hall].
  assert (Hb : forall t, blocked py_isspace (id ++ t)).
  { intros t. destruct id as [| i0 id']; [congruence |]. cbn.
    apply forallb_head in Hall. apply plain_char_not_space, word_char_plain, Hall. }
  assert (He : exists s' x, id = s' ++ [x] /\ py_isspace x = false).
  { destruct (ends_forallb _ id Hne Hall) as (s' & x & -> & Hx).
    exists s', x. split; [reflexivity | apply plain_char_not_space, word_char_plain, Hx]. }
  assert (Hs : strip id = id).
  { apply strip_ends; [| exact He]. rewrite <- (app_nil_r id). apply Hb. }
  assert (Hc : forallb (fun x => negb (58 =? x)%N) id = true)
    by (apply (forallb_impl _ _ _ word_char_not_colon), Hall).
  unfold split_node_token.
  destruct Htag as [[-> ->] | (kn & -> & -> & Hkn & Hkid)].
  - rewrite app_nil_r, Hs. unfold Re.search.
    rewrite <- (app_nil_r id) at 1. rewrite class_search_skip by exact Hc.
    cbn [Re.search_from].
    replace (Re.run CLASS_RE Re.accept (0 + length id) [] []) with (@None (nat * Re.caps))
      by reflexivity.
    rewrite (no_shape_on_bare_id id Hid), (bare_id_match id Hid). reflexivity.
  - assert (Hs2 : strip (id ++ [58; 58; 58]%N ++ kn) = id ++ [58; 58; 58]%N ++ kn).
    { apply strip_ends; [apply Hb |]. do 2 apply ends_app.
      destruct (ends_forallb _ kn Hkn Hkid) as (s' & x & -> & Hx).
      exists s', x. split; [reflexivity | apply id_char_not_space, Hx]. }
    rewrite Hs2. unfold Re.search.
    rewrite class_search_skip by exact Hc.
    rewrite class_search_tag by assumption.
    replace (firstn (0 + length id) (id ++ [58; 58; 58]%N ++ kn)) with id
      by (cbn [Nat.add]; rewrite firstn_app, Nat.sub_diag, firstn_all; cbn;
          symmetry; apply app_nil_r).
    rewrite Hs, (no_shape_on_bare_id id Hid), (bare_id_match id Hid). reflexivity.
Qed.

(** X2: every node expression that [MERMAID_NODE_TEMPLATES] writes, for any
    of the known kinds, is read back by [split_node_token] as the id, the
    label and the kind it was written from. *)
Theorem node_expression_read_back (kind id label : list N) :
  in_NODE_KIND (Some kind) = true -> safe_id id -> plain_label label ->
  split_node_token (format_template (template_for MERMAID_NODE_TEMPLATES kind) id label)
    = Ok (id, label, kind).
Proof.
  intros Hkind Hid Hlabel.
  apply split_node_token_generated; [apply in_NODE_KIND_cases, Hkind | exact Hid | exact Hlabel].
Qed.

(** X3: an id alone reads as a process node labelled with its own id; with
    a class tag of a known kind it reads as a node of that kind, still
    labelled with its id. *)
Theorem bare_id_reads_as_process (id kind : list N) :
  safe_id id -> in_NODE_KIND (Some kind) = true ->
  split_node_token id = Ok (id, id, u "process") /\
  split_node_token (id ++ u ":::" ++ kind) = Ok (id, id, kind).
Proof.
  intros Hid Hkind. split.
  - rewrite <- (app_nil_r id) at 1.
    apply (split_node_token_bare id [] None Hid). left. auto.
  - rewrite (split_node_token_bare id (u ":::" ++ kind) (Some kind) Hid).
    + unfold override_kind. rewrite Hkind. reflexivity.
    + right. exists kind. repeat split.
      * intros ->. vm_compute in Hkind. discriminate Hkind.
      * apply kind_id_chars, Hkind.
Qed.

End BareTokens.

Lemma node_expression_read_back_witness :
  split_node_token (format_template (template_for MERMAID_NODE_TEMPLATES (u "data_storage"))
                                    (u "n_1") (u "Kayıt"))
    = Ok (u "n_1", u "Kayıt", u "data_storage").
Proof.
  apply node_expression_read_back.
  - vm_compute. reflexivity.
  - split; [discriminate | vm_compute; reflexivity].
  - split; [discriminate | vm_compute; reflexivity].
Defined.

Lemma bare_id_reads_as_process_witness :
  split_node_token (u "a") = Ok (u "a", u "a", u "process") /\
  split_node_token (u "a" ++ u ":::" ++ u "loop") = Ok (u "a", u "a", u "loop").
Proof.
  apply bare_id_reads_as_process.
  - split; [discriminate | vm_compute; reflexivity].
  - vm_compute. reflexivity.
Defined.
(** ** What the escaping removes *)
Section EscapedCharacters.
Local Open Scope nat_scope.

Ltac bool_lia :=
  unfold py_isspace, Re.one_of, Re.space in *; cbn [existsb] in *;
  repeat (progress (rewrite ?andb_true_iff, ?orb_true_iff, ?negb_true_iff, ?orb_false_iff,
                            ?andb_false_iff, ?negb_false_iff, ?N.eqb_eq, ?N.eqb_neq,
                            ?N.leb_le, ?N.leb_gt in *));
  lia.

Lemma replace_single (a : N) (new s : list N) :
  replace [a] new s = flat_map (fun c => if (a =? c)%N then new else [c]) s.
Proof.
  unfold replace. induction s as [| c s IH]; [reflexivity |].
  cbn [replace_from starts_with flat_map length Nat.pred]. rewrite andb_true_r.
  destruct (a =? c)%N; rewrite IH; reflexivity.
Qed.

Lemma sub_chr (p : N -> bool) (repl s : list N) :
  Re.sub (Re.Chr p) repl s = flat_map (fun c => if p c then repl else [c]) s.
Proof.
  unfold Re.sub. generalize 0 at 1. induction s as [| c s IH]; intros pos; [reflexivity |].
  cbn [Re.sub_from Re.run flat_map]. destruct (p c).
  - cbn [Re.accept]. replace (pos <? S pos) with true by (symmetry; apply Nat.ltb_lt; lia).
    replace (S pos - pos - 1) with 0 by lia. rewrite IH. reflexivity.
  - rewrite IH. reflexivity.
Qed.

Lemma flat_map_subst (p P Q : N -> bool) (new s : list N) :
  forallb P s = true -> forallb Q new = true ->
  (forall c, P c = true -> p c = false -> Q c = true) ->
  forallb Q (flat_map (fun c => if p c then new else [c]) s) = true.
Proof.
  intros Hs Hnew HPQ. induction s as [| c s IH]; [reflexivity |].
  cbn [forallb] in Hs. apply andb_true_iff in Hs. destruct Hs as [Hc Hs].
  cbn [flat_map]. rewrite forallb_app, (IH Hs), andb_true_r.
  destruct (p c) eqn:E; [exact Hnew |]. cbn [forallb]. rewrite (HPQ c Hc E). reflexivity.
Qed.

Lemma replace_keeps (P : N -> bool) (old new s : list N) :
  forallb P s = true -> forallb P new = true -> forallb P (replace old new s) = true.
Proof.
  intros Hs Hnew. unfold replace. generalize 0 at 1. induction s as [| c s IH]; intros skip;
    [reflexivity |].
  cbn [forallb] in Hs. apply andb_true_iff in Hs. destruct Hs as [Hc Hs].
  cbn [replace_from]. destruct skip as [| k]; [| apply IH, Hs].
  destruct (starts_with old (c :: s)).
  - rewrite forallb_app, Hnew. apply IH, Hs.
  - cbn [forallb]. rewrite Hc. apply IH, Hs.
Qed.

Lemma sub_keeps (P : N -> bool) (r : Re.regex) (repl s : list N) :
  forallb P s = true -> forallb P repl = true -> forallb P (Re.sub r repl s) = true.
Proof.
  intros Hs Hrepl. unfold Re.sub.
  enough (Hgen : forall pos skip, forallb P (Re.sub_from r repl pos skip s) = true)
    by apply Hgen.
  induction s as [| c s IH]; intros pos skip; [reflexivity |].
  cbn [forallb] in Hs. apply andb_true_iff in Hs. destruct Hs as [Hc Hs].
  cbn [Re.sub_from]. destruct skip as [| k]; [| apply IH, Hs].
  destruct (Re.run r Re.accept pos (c :: s) []) as [[e cp] |].
  - destruct (pos <? e).
    + rewrite forallb_app, Hrepl. apply IH, Hs.
    + cbn [forallb]. rewrite Hc. apply IH, Hs.
  - cbn [forallb]. rewrite Hc. apply IH, Hs.
Qed.

Lemma lstrip_In (x : N) (s : list N) : In x (lstrip s) -> In x s.
Proof.
  induction s as [| c s IH]; [auto |]. cbn [lstrip].
  destruct (py_isspace c); [| auto]. intros Hx. right. apply IH, Hx.
Qed.

Lemma strip_keeps (P : N -> bool) (s : list N) :
  forallb P s = true -> forallb P (strip s) = true.
Proof.
  rewrite !forallb_forall. intros Hs x Hx. apply Hs.
  unfold strip, rstrip in Hx. apply in_rev, lstrip_In, in_rev, lstrip_In in Hx. exact Hx.
Qed.

(** A match of [\s+] at a white-space character ends after where it starts. *)
Lemma star_greedy_accept (p : N -> bool) (s : list N) :
  forall pos c, exists e, Re.star_greedy p Re.accept pos s c = Some (e, c) /\ pos <= e.
Proof.
  induction s as [| x s IH]; intros pos c; cbn [Re.star_greedy].
  - exists pos. split; [reflexivity | lia].
  - destruct (p x).
    + destruct (IH (S pos) c) as (e & -> & He). exists e. split; [reflexivity | lia].
    + exists pos. split; [reflexivity | lia].
Qed.

(** After [re.sub(r"\s+", " ", s)] the only white space left is the space. *)
Lemma sub_spaces (P : N -> bool) (s : list N) :
  forallb P s = true -> P 32%N = true ->
  forallb (fun c => P c && (negb (py_isspace c) || (c =? 32)%N))
          (Re.sub SPACES_RE (u " ") s) = true.
Proof.
  intros Hs H32. unfold Re.sub.
  enough (Hgen : forall pos skip,
             forallb (fun c => P c && (negb (py_isspace c) || (c =? 32)%N))
                     (Re.sub_from SPACES_RE (u " ") pos skip s) = true)
    by apply Hgen.
  induction s as [| c s IH]; intros pos skip; [reflexivity |].
  cbn [forallb] in Hs. apply andb_true_iff in Hs. destruct Hs as [Hc Hs].
  cbn [Re.sub_from]. destruct skip as [| k]; [| apply IH, Hs].
  unfold SPACES_RE, Re.Plus. cbn [Re.run]. unfold Re.space at 1.
  destruct (py_isspace c) eqn:E.
  - destruct (star_greedy_accept Re.space s (S pos) []) as (e & -> & He).
    replace (pos <? e) with true by (symmetry; apply Nat.ltb_lt; lia).
    change (u " ") with [32%N]. cbn [app forallb]. rewrite H32. cbn.
    apply IH, Hs.
  - cbn [forallb]. rewrite Hc, E. cbn. apply IH, Hs.
Qed.

(** X4: whatever the label, [mermaid_escape_label] returns a text without
    [|], brackets, parentheses and braces, in which the only white space is
    the space character: no line break is left. *)
Theorem mermaid_escape_label_chars (label : list N) :
  forallb (fun c => negb (Re.one_of [124; 91; 93; 40; 41; 123; 125]%N c) &&
                    (negb (py_isspace c) || (c =? 32)%N))
          (mermaid_escape_label label) = true.
Proof.
  unfold mermaid_escape_label. norm_u.
  set (Q := fun c => negb (Re.one_of [124; 91; 93; 40; 41; 123; 125]%N c)).
  apply strip_keeps. apply (sub_spaces Q); [| reflexivity].
  apply replace_keeps; [| reflexivity]. apply replace_keeps; [| reflexivity].
  apply sub_keeps; [| reflexivity].
  unfold BRACKETS_RE. norm_u. rewrite sub_chr.
  apply (flat_map_subst _ (fun c => negb (124 =? c)%N)); [| reflexivity |].
  - rewrite replace_single.
    apply (flat_map_subst _ (fun _ => true)); [| reflexivity |].
    + apply forallb_forall. reflexivity.
    + intros c _ Hc. rewrite Hc. reflexivity.
  - intros c Hc Hb. unfold Q. bool_lia.
Qed.

Lemma export_char_not_space (c : N) : export_char c = true -> py_isspace c = false.
Proof. unfold export_char. intros Hc. apply Bool.not_true_iff_false. intros Hs. bool_lia. Qed.

(** X5: [sanitize_export_label] returns either the fallback or a text made
    only of digits, ASCII letters, the Turkish letters, the backslash and
    [. , ; : ! ? + * / = % -]; such a text holds no white space at all. *)
Theorem sanitize_export_label_chars (label fallback : list N) :
  (sanitize_export_label label fallback = fallback /\ fallback <> []) \/
  forallb (fun c => export_char c && negb (py_isspace c))
          (sanitize_export_label label fallback) = true.
Proof.
  unfold sanitize_export_label.
  match goal with
  | |- context [Re.sub UNSAFE_RE [] ?X] => set (x := X)
  end.
  set (Qe := fun c => export_char c && negb (py_isspace c)).
  assert (H1 : forallb Qe (Re.sub UNSAFE_RE [] x) = true).
  { unfold UNSAFE_RE. rewrite sub_chr.
    apply (flat_map_subst _ (fun _ => true)); [apply forallb_forall; reflexivity | reflexivity |].
    intros c _ Hc. apply negb_false_iff in Hc. unfold Qe.
    assert (He : export_char c = true).
    { rewrite <- Hc. unfold export_char. norm_u. unfold Re.one_of. cbn [existsb].
      rewrite !orb_false_r, !orb_assoc. reflexivity. }
    rewrite He, (export_char_not_space c He). reflexivity. }
  assert (H2 : Re.sub SPACES_RE (u " ") (Re.sub UNSAFE_RE [] x) = Re.sub UNSAFE_RE [] x).
  { unfold Re.sub at 1. apply (sub_absent _ _ Qe); [| exact H1].
    intros c t pos Hc. unfold Qe in Hc. apply andb_true_iff in Hc. destruct Hc as [_ Hc].
    apply negb_true_iff in Hc. unfold SPACES_RE, Re.Plus, Re.space. cbn [Re.run].
    rewrite Hc. reflexivity. }
  rewrite H2. set (s := strip (Re.sub UNSAFE_RE [] x)).
  assert (H3 : forallb Qe s = true) by (apply strip_keeps, H1).
  destruct (negb (nonempty s) && nonempty fallback) eqn:E.
  - left. split; [reflexivity |]. apply andb_true_iff in E. destruct E as [_ E].
    intros ->. discriminate E.
  - right. exact H3.
Qed.

End EscapedCharacters.
(** ** Texts without arrows *)
Section ArrowFree.
Context `{PyUnicode}.
Local Open Scope nat_scope.

(** At a line boundary the line read so far is closed; [\r\n] counts as one
    boundary. *)
Lemma splitlines_from_break (cur : list N) (c : N) (r : list N) :
  is_linebreak c = true ->
  exists r', (r' = r \/ exists d, r = d :: r') /\
             splitlines_from cur (c :: r) = rev cur :: splitlines_from [] r'.
Proof.
  intros Hc. cbn [splitlines_from]. rewrite Hc.
  assert (Hdef : forall A (x : A), exists r', (r' = r \/ exists d, r = d :: r') /\
             rev cur :: splitlines_from [] r = rev cur :: splitlines_from [] r').
  { intros _ _. exists r. split; [left; reflexivity | reflexivity]. }
  destruct c as [| p]; [exact (Hdef _ tt) |].
  destruct p as [p | p |]; [| exact (Hdef _ tt) | exact (Hdef _ tt)].
  destruct p as [p | p |]; [exact (Hdef _ tt) | | exact (Hdef _ tt)].
  destruct p as [p | p |]; [| exact (Hdef _ tt) | exact (Hdef _ tt)].
  destruct p as [p | p |]; [exact (Hdef _ tt) | exact (Hdef _ tt) |].
  destruct r as [| d r]; [exact (Hdef _ tt) |].
  destruct d as [| q]; [exact (Hdef _ tt) |].
  destruct q as [q | q |]; [exact (Hdef _ tt) | | exact (Hdef _ tt)].
  destruct q as [q | q |]; [| exact (Hdef _ tt) | exact (Hdef _ tt)].
  destruct q as [q | q |]; [exact (Hdef _ tt) | | exact (Hdef _ tt)].
  destruct q as [q | q |]; [exact (Hdef _ tt) | exact (Hdef _ tt) |].
  exists r. split; [right; eexists; reflexivity | reflexivity].
Qed.

Lemma forallb_rev_keeps {B} (P : B -> bool) (l : list B) :
  forallb P l = true -> forallb P (rev l) = true.
Proof. rewrite !forallb_forall. intros Hl x Hx. apply Hl, in_rev, Hx. Qed.

Lemma splitlines_from_keeps (P : N -> bool) (n : nat) :
  forall s cur, length s <= n -> forallb P cur = true -> forallb P s = true ->
                Forall (fun l => forallb P l = true) (splitlines_from cur s).
Proof.
  induction n as [| n IH]; intros s cur Hn Hcur Hs.
  - destruct s; [| cbn in Hn; lia]. cbn [splitlines_from].
    destruct (nonempty cur); repeat constructor. apply forallb_rev_keeps, Hcur.
  - destruct s as [| c s].
    + cbn [splitlines_from]. destruct (nonempty cur); repeat constructor.
      apply forallb_rev_keeps, Hcur.
    + cbn [forallb] in Hs. apply andb_true_iff in Hs. destruct Hs as [Hc Hs].
      cbn [length] in Hn. destruct (is_linebreak c) eqn:E.
      * destruct (splitlines_from_break cur c s E) as (r' & Hr' & ->).
        constructor; [apply forallb_rev_keeps, Hcur |].
        destruct Hr' as [-> | [d ->]].
        -- apply IH; [lia | reflexivity | exact Hs].
        -- cbn [forallb] in Hs. apply andb_true_iff in Hs. destruct Hs as [_ Hs].
           cbn [length] in Hn. apply IH; [lia | reflexivity | exact Hs].
      * cbn [splitlines_from]. rewrite E.
        apply IH; [lia | cbn [forallb]; rewrite Hc; exact Hcur | exact Hs].
Qed.

Lemma clean_lines_keeps (P : N -> bool) (raws : list (list N)) :
  Forall (fun l => forallb P l = true) raws ->
  forall d, Forall (fun l => forallb P l = true) (fst (clean_lines raws d)).
Proof.
  induction 1 as [| raw raws Hraw _ IH]; intros d; [constructor |].
  cbn [clean_lines]. cbv zeta.
  destruct (negb (nonempty (strip raw))); [apply IH |].
  destruct (starts_with (u "%%") (strip raw)); [apply IH |].
  destruct (Re.rmatch FLOW_HEADER_RE (strip raw)); [apply IH |].
  specialize (IH d). destruct (clean_lines raws d) as [lines d']. cbn [fst] in *.
  constructor; [apply strip_keeps, Hraw | exact IH].
Qed.

Lemma parse_lines_total (lines : list (list N)) :
  Forall (fun l => arrow_free l = true) lines ->
  forall ps, exists ps', parse_lines lines ps = Ok ps'.
Proof.
  induction 1 as [| line lines Hline _ IH]; intros ps.
  - exists ps. reflexivity.
  - cbn [parse_lines]. unfold parse_line.
    rewrite edge_with_pipe_label_none, edge_simple_none by exact Hline.
    cbn [mbind result_bind]. apply IH.
Qed.

(** X6: on a text without the characters [-], [=] and [<], that is without
    any arrow, [parse_mermaid] raises no exception: it returns a result. *)
Theorem parse_mermaid_total_without_arrows (ses : Session) (code_text : list N) :
  arrow_free code_text = true ->
  exists r, parse_mermaid ses code_text = Ok r.
Proof.
  intros Hfree. unfold parse_mermaid.
  destruct (negb (nonempty code_text) || negb (nonempty (strip code_text)));
    [eexists; reflexivity |].
  pose proof (clean_lines_keeps _ _
                (splitlines_from_keeps _ (length code_text) code_text [] (le_n _)
                   eq_refl Hfree) (session_direction ses)) as Hlines.
  unfold splitlines.
  destruct (clean_lines (splitlines_from [] code_text) (session_direction ses))
    as [lines direction].
  cbn [fst] in Hlines.
  destruct (parse_lines_total lines Hlines {| p_nodes := ∅; p_edges := []; p_alias_map := ∅ |})
    as [ps' ->].
  cbn [mbind result_bind]. destruct (bool_decide (p_nodes ps' = ∅)); eexists; reflexivity.
Qed.

End ArrowFree.

Lemma parse_mermaid_total_without_arrows_witness :
  exists r, parse_mermaid {| session_direction := u "TD"; enable_grid_snap := false |}
                          (u "graph LR
  :::x
  a b c") = Ok r.
Proof. apply parse_mermaid_total_without_arrows. vm_compute. reflexivity. Defined.
(** ** What every parsed graph satisfies *)
Section ParsedGraphs.
Context `{PyUnicode}.
Local Open Scope nat_scope.

Lemma upsert_node_edges (nid label kind : list N) (ps : ParseState) :
  p_edges (upsert_node nid label kind ps) = p_edges ps.
Proof. reflexivity. Qed.

Lemma upsert_node_declares (nid label kind : list N) (ps : ParseState) :
  is_Some (p_nodes (upsert_node nid label kind ps) !! nid).
Proof.
  unfold upsert_node. cbn [p_nodes].
  destruct (p_nodes ps !! nid) as [[l0 k0] |]; rewrite lookup_insert_eq; eauto.
Qed.

Lemma upsert_node_keeps (nid label kind x : list N) (ps : ParseState) :
  is_Some (p_nodes ps !! x) -> is_Some (p_nodes (upsert_node nid label kind ps) !! x).
Proof.
  intros Hx. destruct (decide (x = nid)) as [-> | Hne]; [apply upsert_node_declares |].
  unfold upsert_node. cbn [p_nodes].
  destruct (p_nodes ps !! nid) as [[l0 k0] |]; rewrite lookup_insert_ne by congruence;
    exact Hx.
Qed.

Lemma resolve_node_id_nodes (nid label kind : list N) (ps : ParseState) :
  p_nodes (snd (resolve_node_id nid label kind ps)) = p_nodes ps /\
  p_edges (snd (resolve_node_id nid label kind ps)) = p_edges ps.
Proof.
  unfold resolve_node_id.
  destruct (p_alias_map ps !! (nid, label, kind)); [split; reflexivity |].
  destruct (p_nodes ps !! nid); split; reflexivity.
Qed.

Lemma parse_edge_declares (m : Re.caps) (lbl : list N) (ps ps' : ParseState) :
  parse_edge m lbl ps = Ok ps' ->
  edges_declared ps -> edges_declared ps'.
Proof.
  unfold parse_edge. intros Hrun Hinv.
  destruct (split_node_token (strip (Re.group "src" m))) as [[[s0 sl] sk] | e];
    [| discriminate Hrun].
  destruct (split_node_token (strip (Re.group "dst" m))) as [[[d0 dl] dk] | e];
    [| discriminate Hrun].
  cbn [mbind result_bind] in Hrun.
  pose proof (resolve_node_id_nodes s0 sl sk ps) as [Hn1 He1].
  destruct (resolve_node_id s0 sl sk ps) as [src ps1]. cbn [snd] in Hn1, He1.
  pose proof (resolve_node_id_nodes d0 dl dk ps1) as [Hn2 He2].
  destruct (resolve_node_id d0 dl dk ps1) as [dst ps2]. cbn [snd] in Hn2, He2.
  set (ps3 := upsert_node dst dl dk (upsert_node src sl sk ps2)) in Hrun.
  assert (Hsrc : is_Some (p_nodes ps3 !! src))
    by (apply upsert_node_keeps, upsert_node_declares).
  assert (Hdst : is_Some (p_nodes ps3 !! dst)) by apply upsert_node_declares.
  assert (Hold : forall x, is_Some (p_nodes ps !! x) -> is_Some (p_nodes ps3 !! x)).
  { intros x Hx. do 2 apply upsert_node_keeps. rewrite Hn2, Hn1. exact Hx. }
  assert (Hedges : p_edges ps3 = p_edges ps).
  { unfold ps3. rewrite !upsert_node_edges, He2, He1. reflexivity. }
  assert (Hstep : forall es, Forall (fun e => fst (fst (fst e)) = src /\ snd (fst (fst e)) = dst \/
                                              fst (fst (fst e)) = dst /\ snd (fst (fst e)) = src) es ->
                             edges_declared (append_edges es ps3)).
  { intros es Hes e He. unfold append_edges in He |- *. cbn [p_edges p_nodes] in *.
    apply in_app_or in He. destruct He as [He | He].
    - rewrite Hedges in He. destruct (Hinv e He) as [H1 H2]. split; apply Hold; assumption.
    - rewrite Forall_forall in Hes.
      destruct (Hes e) as [[-> ->] | [-> ->]]; [apply list_elem_of_In, He | |]; split; assumption. }
  destruct (str_eqb _ _); injection Hrun as <-; apply Hstep;
    repeat (constructor 2;
            [cbn [fst snd]; first [left; split; reflexivity | right; split; reflexivity] |]);
    constructor 1.
Qed.

Lemma parse_line_declares (line : list N) (ps ps' : ParseState) :
  parse_line line ps = Ok ps' -> edges_declared ps -> edges_declared ps'.
Proof.
  unfold parse_line. intros Hrun Hinv.
  destruct (Re.rmatch EDGE_WITH_PIPE_LABEL_RE line) as [m |];
    [exact (parse_edge_declares _ _ _ _ Hrun Hinv) |].
  destruct (Re.rmatch EDGE_SIMPLE_RE line) as [m |];
    [exact (parse_edge_declares _ _ _ _ Hrun Hinv) |].
  injection Hrun as <-.
  destruct (split_node_token line) as [[[nid lbl] kind] | e]; [| exact Hinv].
  cbn [mbind result_bind].
  pose proof (resolve_node_id_nodes nid lbl kind ps) as [Hn He].
  destruct (resolve_node_id nid lbl kind ps) as [v ps1]. cbn [snd try_pass] in *.
  intros e Hin. rewrite upsert_node_edges, He in Hin.
  destruct (Hinv e Hin) as [H1 H2].
  split; apply upsert_node_keeps; rewrite Hn; assumption.
Qed.

Lemma parse_lines_declares (lines : list (list N)) :
  forall ps ps', parse_lines lines ps = Ok ps' -> edges_declared ps -> edges_declared ps'.
Proof.
  induction lines as [| line lines IH]; intros ps ps' Hrun Hinv; cbn [parse_lines] in Hrun.
  - injection Hrun as <-. exact Hinv.
  - destruct (parse_line line ps) as [ps1 | e] eqn:E; [| discriminate Hrun].
    cbn [mbind result_bind] in Hrun.
    apply (IH ps1 ps' Hrun). apply (parse_line_declares line ps ps1 E Hinv).
Qed.

Lemma build_flow_nodes_ids (ses : Session) (m : gmap (list N) (list N * list N)) :
  map n_id (map (normalize_node ses) (build_flow_nodes m))
    = map fst (sorted (fun a b => str_ltb (fst a) (fst b)) (map_to_list m)).
Proof.
  unfold build_flow_nodes, enumerate. rewrite !map_map.
  set (l := sorted _ (map_to_list m)).
  assert (Hgen : forall (l : list (list N * (list N * list N))) k,
            map (fun x : nat * (list N * (list N * list N)) => n_id (normalize_node ses
                   (let '(i, (nid, (label, kind))) := x in
                    make_node nid (str_or label nid) (str_or kind (u "process"))
                      (0 + inject_Z (Z.of_nat (i mod 3)) * 220,
                       0 + inject_Z (Z.of_nat (i / 3)) * 120)%Q)))
                (imap (fun i x => (k + i, x)) l) = map fst l).
  { clear. induction l as [| [nid [label kind]] l IH]; intros k; [reflexivity |].
    cbn [imap map fst]. f_equal.
    rewrite <- (IH (S k)). f_equal. apply imap_ext. intros i x _. cbn. f_equal. lia. }
  rewrite <- (Hgen l 0). reflexivity.
Qed.

Lemma build_flow_edges_endpoints (es : list (list N * list N * list N * list N)) :
  forall seen, map endpoints (map normalize_edge (build_flow_edges es seen))
               = map (fun e => (fst (fst (fst e)), snd (fst (fst e)))) es.
Proof.
  induction es as [| [[[s d] l] v] es IH]; intros seen; [reflexivity |].
  cbn [build_flow_edges]. destruct (seen !! build_edge_id s d l v []);
    cbn [map fst snd]; rewrite IH; reflexivity.
Qed.

(** X7: a graph that [parse_mermaid] returns comes without an error message,
    has at least one node, pairwise distinct node ids, and every edge of it
    starts and ends at one of its nodes. *)
Theorem parse_mermaid_well_formed (ses : Session) (code_text : list N)
    (G : StreamlitFlowState) (err : option (list N)) (d : list N) :
  parse_mermaid ses code_text = Ok (Some G, err, d) ->
  err = None /\ nodes G <> [] /\ List.NoDup (map n_id (nodes G)) /\ edges_within G.
Proof.
  unfold parse_mermaid. intros Hrun.
  destruct (negb (nonempty code_text) || negb (nonempty (strip code_text)));
    [discriminate Hrun |].
  destruct (clean_lines (splitlines code_text) (session_direction ses)) as [lines direction].
  destruct (parse_lines lines {| p_nodes := ∅; p_edges := []; p_alias_map := ∅ |})
    as [ps | e] eqn:E; [| discriminate Hrun].
  cbn [mbind result_bind] in Hrun.
  destruct (bool_decide (p_nodes ps = ∅)) eqn:Hempty; [discriminate Hrun |].
  apply bool_decide_eq_false in Hempty.
  injection Hrun as <- <- <-.
  assert (Hinv : edges_declared ps).
  { apply (parse_lines_declares lines _ ps E). intros e He. destruct He. }
  set (lt := fun a b : list N * (list N * list N) => str_ltb (fst a) (fst b)).
  assert (Hids : map n_id (nodes (normalize_state ses
                   (make_flow_state (build_flow_nodes (p_nodes ps))
                      (build_flow_edges (sorted edge_tuple_ltb (p_edges ps)) ∅))))
                 = map fst (sorted lt (map_to_list (p_nodes ps))))
    by apply build_flow_nodes_ids.
  assert (Hperm : map fst (sorted lt (map_to_list (p_nodes ps)))
                  ≡ₚ map fst (map_to_list (p_nodes ps)))
    by apply Permutation_map, sorted_perm.
  split; [reflexivity |]. split; [| split].
  - intros Hnil. rewrite Hnil in Hids. cbn [map] in Hids. rewrite <- Hids in Hperm.
    apply Permutation_nil in Hperm. apply map_eq_nil in Hperm.
    apply map_to_list_empty_iff in Hperm. contradiction.
  - rewrite Hids. eapply Permutation_NoDup; [symmetry; exact Hperm |].
    apply NoDup_ListNoDup, NoDup_fst_map_to_list.
  - intros e He. rewrite Hids.
    assert (Hend : In (endpoints e)
                      (map (fun e => (fst (fst (fst e)), snd (fst (fst e)))) (p_edges ps))).
    { apply (in_map endpoints) in He. cbn [edges normalize_state] in He.
      rewrite build_flow_edges_endpoints in He.
      eapply Permutation_in; [apply Permutation_map, sorted_perm | exact He]. }
    apply in_map_iff in Hend. destruct Hend as (t & Ht & Hin).
    destruct (Hinv t Hin) as [[v1 H1] [v2 H2]]. unfold endpoints in Ht.
    injection Ht as Hs Hd. rewrite <- Hs, <- Hd.
    split; (eapply Permutation_in; [symmetry; exact Hperm |]);
      apply in_map_iff; eexists (_, _); (split; [reflexivity |]);
      apply list_elem_of_In, elem_of_map_to_list; eassumption.
Qed.

End ParsedGraphs.

Lemma parse_mermaid_well_formed_witness :
  let ses := {| session_direction := u "TD"; enable_grid_snap := false |} in
  let code := u "flowchart TD
    s([Başla]) --> k{x > 0}
    k -->|Evet| e([Bitir])" in
  exists G, parse_mermaid ses code = Ok (Some G, None, u "TD") /\
            (@None (list N) = None /\ nodes G <> [] /\
             List.NoDup (map n_id (nodes G)) /\ edges_within G).
Proof.
  intros ses code.
  assert (E : exists G, parse_mermaid ses code = Ok (Some G, None, u "TD"))
    by (eexists; vm_compute; reflexivity).
  destruct E as [G E]. exists G. split; [exact E |].
  exact (parse_mermaid_well_formed ses code G None (u "TD") E).
Defined.
(** ** Undo and redo as a pair *)
Section UndoRedo.
Import HistoryManager HistoryFacts.
Local Open Scope nat_scope.

Lemma removelast_snoc {B} (l : list B) (x : B) : removelast (l ++ [x]) = l.
Proof. apply removelast_last. Qed.

Lemma last_removelast {B} (l : list B) (x : B) :
  last l = Some x -> removelast l ++ [x] = l.
Proof.
  intros Hl. apply last_Some in Hl. destruct Hl as [l' ->].
  rewrite removelast_snoc. reflexivity.
Qed.

Lemma tail_length {B} (l : list B) : length (tail l) = length l - 1.
Proof. destruct l; cbn [tail length]; lia. Qed.

Lemma step_capacity (o : op) (h : t) :
  length (undo_stack h) + length (redo_stack h) <= MAX_HISTORY ->
  length (undo_stack (step o h)) + length (redo_stack (step o h)) <= MAX_HISTORY.
Proof.
  intros Hinv. destruct o as [a | |]; cbn [step].
  - unfold push. cbn [undo_stack redo_stack length]. rewrite Nat.add_0_r.
    destruct (MAX_HISTORY <? _) eqn:E.
    + unfold pop_front. rewrite tail_length, length_app. cbn [length]. lia.
    + apply Nat.ltb_ge in E. exact E.
  - unfold undo. destruct (length (undo_stack h) <? 2); [exact Hinv |].
    destruct (last (undo_stack h)) as [cur |] eqn:E; [| exact Hinv].
    cbn [snd undo_stack redo_stack]. apply last_Some in E. destruct E as [l' E].
    rewrite E in *. unfold pop_back. rewrite removelast_snoc.
    rewrite !length_app in *. cbn [length] in *. lia.
  - unfold redo. destruct (last (redo_stack h)) as [e |] eqn:E; [| exact Hinv].
    cbn [snd undo_stack redo_stack]. apply last_Some in E. destruct E as [l' E].
    rewrite E in *. unfold pop_back. rewrite removelast_snoc.
    rewrite !length_app in *. cbn [length] in *. lia.
Qed.

(** X8: whatever the calls of [push], [undo] and [redo] made on a fresh
    manager, the two stacks together never hold more than [MAX_HISTORY]
    entries. *)
Theorem history_capacity (os : list op) :
  length (undo_stack (run_ops os init)) + length (redo_stack (run_ops os init))
    <= MAX_HISTORY.
Proof.
  unfold run_ops.
  assert (Hgen : forall h, length (undo_stack h) + length (redo_stack h) <= MAX_HISTORY ->
                           length (undo_stack (fold_left (fun h o => step o h) os h)) +
                           length (redo_stack (fold_left (fun h o => step o h) os h))
                             <= MAX_HISTORY).
  { induction os as [| o os IH]; intros h Hh; [exact Hh |].
    cbn [fold_left]. apply IH, step_capacity, Hh. }
  apply Hgen. cbn. unfold MAX_HISTORY. lia.
Qed.

(** X9: when [undo] is possible, a [redo] right after it returns the entry
    that was current before the [undo] and puts both stacks back as they
    were. *)
Theorem undo_then_redo (h : t) :
  can_undo h = true ->
  redo (snd (undo h)) = (last (undo_stack h), h).
Proof.
  unfold can_undo, undo. intros Hcan. apply Nat.leb_le in Hcan.
  replace (length (undo_stack h) <? 2) with false by (symmetry; apply Nat.ltb_ge; lia).
  destruct (last (undo_stack h)) as [cur |] eqn:E.
  - cbn [snd]. unfold redo. cbn [undo_stack redo_stack].
    rewrite last_snoc. unfold pop_back. rewrite removelast_snoc, (last_removelast _ _ E).
    destruct h; reflexivity.
  - apply last_None in E. rewrite E in Hcan. cbn in Hcan. lia.
Qed.

(** X10: on a manager whose undo stack is not empty, an [undo] right after
    a possible [redo] returns the entry that was current before the [redo]
    and puts both stacks back as they were. *)
Theorem redo_then_undo (h : t) :
  can_redo h = true -> undo_stack h <> [] ->
  undo (snd (redo h)) = (last (undo_stack h), h).
Proof.
  unfold can_redo, redo. intros Hcan Hne. apply Nat.ltb_lt in Hcan.
  destruct (last (redo_stack h)) as [e |] eqn:E.
  - cbn [snd]. unfold undo. cbn [undo_stack redo_stack].
    replace (length (undo_stack h ++ [e]) <? 2) with false.
    2:{ symmetry. apply Nat.ltb_ge. rewrite length_app. cbn [length].
        destruct (undo_stack h); [congruence | cbn [length]; lia]. }
    rewrite last_snoc. unfold pop_back. rewrite removelast_snoc, (last_removelast _ _ E).
    destruct h; reflexivity.
  - apply last_None in E. rewrite E in Hcan. cbn in Hcan. lia.
Qed.

(** X11: after a [push] on a manager that already holds an entry, [undo]
    returns the entry that was on top before the [push], and the pushed
    entry is the one a [redo] would bring back. *)
Theorem push_then_undo (a : push_args) (h : t) :
  undo_stack h <> [] ->
  fst (undo (push a h)) = last (undo_stack h) /\
  map code_text (redo_stack (snd (undo (push a h)))) = [pa_code_text a].
Proof.
  intros Hne. unfold push.
  set (entry := {| code_text := pa_code_text a;
                   node_snapshot := serialize_nodes (nodes (pa_flow_state a));
                   edge_snapshot := serialize_edges (edges (pa_flow_state a));
                   timestamp := pa_now a; action := pa_action a |}).
  set (U := undo_stack h) in *.
  assert (Hstack : exists U', U' <> [] /\ last U' = last U /\
             (if MAX_HISTORY <? length (U ++ [entry]) then pop_front (U ++ [entry])
              else U ++ [entry]) = U' ++ [entry]).
  { destruct (MAX_HISTORY <? length (U ++ [entry])) eqn:E.
    - apply Nat.ltb_lt in E. rewrite length_app in E. cbn [length] in E.
      unfold MAX_HISTORY in E.
      destruct U as [| u0 [| u1 U']]; [congruence | cbn in E; lia |].
      exists (u1 :: U'). split; [discriminate | split; reflexivity].
    - exists U. split; [exact Hne | split; reflexivity]. }
  destruct Hstack as (U' & HU' & Hlast & ->).
  unfold undo. cbn [undo_stack redo_stack].
  replace (length (U' ++ [entry]) <? 2) with false.
  2:{ symmetry. apply Nat.ltb_ge. rewrite length_app. cbn [length].
      destruct U'; [congruence | cbn [length]; lia]. }
  rewrite last_snoc. unfold pop_back. rewrite removelast_snoc. cbn [fst snd redo_stack].
  split; [exact Hlast | reflexivity].
Qed.

Lemma undo_then_redo_witness :
  let a1 := {| pa_code_text := u "flowchart TD"; pa_flow_state := {| nodes := []; edges := [] |};
               pa_action := u "init"; pa_now := 0%Q |} in
  let a2 := {| pa_code_text := u "flowchart LR"; pa_flow_state := {| nodes := []; edges := [] |};
               pa_action := u "edit"; pa_now := 1%Q |} in
  let h := push a2 (push a1 init) in
  can_undo h = true /\ redo (snd (undo h)) = (last (undo_stack h), h).
Proof.
  intros a1 a2 h. split; [reflexivity |]. apply undo_then_redo. reflexivity.
Defined.

Lemma redo_then_undo_witness :
  let a1 := {| pa_code_text := u "flowchart TD"; pa_flow_state := {| nodes := []; edges := [] |};
               pa_action := u "init"; pa_now := 0%Q |} in
  let a2 := {| pa_code_text := u "flowchart LR"; pa_flow_state := {| nodes := []; edges := [] |};
               pa_action := u "edit"; pa_now := 1%Q |} in
  let h := snd (undo (push a2 (push a1 init))) in
  can_redo h = true /\ undo_stack h <> [] /\
  undo (snd (redo h)) = (last (undo_stack h), h).
Proof.
  intros a1 a2 h. split; [reflexivity |]. split; [discriminate |].
  apply redo_then_undo; [reflexivity | discriminate].
Defined.

Lemma push_then_undo_witness :
  let a1 := {| pa_code_text := u "flowchart TD"; pa_flow_state := {| nodes := []; edges := [] |};
               pa_action := u "init"; pa_now := 0%Q |} in
  let a2 := {| pa_code_text := u "flowchart LR"; pa_flow_state := {| nodes := []; edges := [] |};
               pa_action := u "edit"; pa_now := 1%Q |} in
  let h := push a1 init in
  undo_stack h <> [] /\
  (fst (undo (push a2 h)) = last (undo_stack h) /\
   map code_text (redo_stack (snd (undo (push a2 h)))) = [pa_code_text a2]).
Proof.
  intros a1 a2 h. split; [discriminate |]. apply push_then_undo. discriminate.
Defined.

End UndoRedo.
(** ** The adjacency lists and the search, on their own *)
Section GraphQueries.
Context `{PyUnicode}.
Local Open Scope nat_scope.

Lemma omap_refs_prefix (out : bool) (k : list N) (l rest : list StreamlitFlowEdge) :
  omap (fun i => (l ++ rest) !! i) (refs_of out k l)
    = List.filter (fun e => str_eqb (if out then e_source e else e_target e) k) l.
Proof.
  revert rest. induction l as [| e l IH] using rev_ind; intros rest; [reflexivity |].
  rewrite refs_of_snoc, omap_app, <- app_assoc, IH.
  rewrite List.filter_app. f_equal.
  cbn. destruct (str_eqb _ k); [| reflexivity].
  cbn. rewrite lookup_app_r by lia. rewrite Nat.sub_diag. reflexivity.
Qed.

(** X12: in the two dictionaries of [build_graph], the entry of an id lists
    exactly the edges that leave it, respectively enter it, in the order of
    the edge list; an id without such an edge has the empty list. *)
Theorem build_graph_lists_edges (G : StreamlitFlowState) (k : list N) :
  omap (fun i => edges G !! i) (adj_get (fst (build_graph G)) k)
    = List.filter (fun e => str_eqb (e_source e) k) (edges G) /\
  omap (fun i => edges G !! i) (adj_get (snd (build_graph G)) k)
    = List.filter (fun e => str_eqb (e_target e) k) (edges G).
Proof.
  destruct G as [ns es]. cbn [edges].
  destruct (build_graph_spec ns es k) as [-> ->].
  pose proof (omap_refs_prefix true k es []) as H1.
  pose proof (omap_refs_prefix false k es []) as H2.
  rewrite app_nil_r in H1, H2. split; assumption.
Qed.

(** X13: the breadth-first search of [enforce_connected_flow] empties its
    queue within the rounds counted for it, and the set it returns holds
    exactly the ids that a path of edges joins to one of the roots. *)
Theorem reachability_search_correct (G : StreamlitFlowState) (roots : list StreamlitFlowNode) :
  exists R, reachable_from G (fst (build_graph G)) roots = Some R /\
            forall x, x ∈ R <-> exists r, In r (map n_id roots) /\ path (edges G) r x.
Proof.
  destruct (reachable_from_total G roots) as [R HR].
  exists R. split; [exact HR |]. apply reachable_from_spec, HR.
Qed.

Lemma set_label_at_frame (r : nat) (lbl : list N) (store : list StreamlitFlowEdge) :
  map edge_frame (set_label_at r lbl store) = map edge_frame store.
Proof.
  unfold set_label_at. revert r. induction store as [| e store IH]; intros r; [reflexivity |].
  destruct r as [| r]; cbn [alter list_alter map]; [reflexivity |].
  f_equal. apply IH.
Qed.

Lemma normalize_first_two_frame (refs : list nat) (store : list StreamlitFlowEdge) :
  map edge_frame (normalize_first_two refs store) = map edge_frame store.
Proof.
  unfold normalize_first_two. generalize (firstn 2 refs). intros l. revert store.
  induction l as [| r l IH]; intros store; [reflexivity |].
  cbn [fold_left]. rewrite IH.
  destruct (_ && _); [apply set_label_at_frame | reflexivity].
Qed.

Lemma label_decision_edges_frame (refs : list nat) (store : list StreamlitFlowEdge) :
  map edge_frame (label_decision_edges refs store) = map edge_frame store.
Proof.
  unfold label_decision_edges. destruct refs as [| r0 [| r1 rest]]; try reflexivity.
  repeat match goal with
         | |- context [if ?c then _ else _] => destruct c
         end;
    rewrite ?set_label_at_frame; apply normalize_first_two_frame.
Qed.

(** X14: [ensure_decision_edge_labels] keeps the nodes, the number and the
    order of the edges and, in every edge, the id, the two ends, the type
    and the variant; the label of an edge stays as it was unless the edge
    is one of the first two that leave a node of kind decision. *)
Theorem ensure_decision_edge_labels_frame (G : StreamlitFlowState) :
  let G' := ensure_decision_edge_labels G in
  nodes G' = nodes G /\
  map edge_frame (edges G') = map edge_frame (edges G) /\
  forall i,
    (forall n, In n (nodes G) -> get_node_kind n = u "decision" ->
               ~ In i (firstn 2 (refs_of true (n_id n) (edges G)))) ->
    label_at (edges G') i = label_at (edges G) i.
Proof.
  cbv zeta. split; [| split].
  - unfold ensure_decision_edge_labels. destruct (build_graph G). reflexivity.
  - rewrite ensure_decision_edge_labels_edges.
    generalize (edges G) at 2 3. induction (nodes G) as [| m l IH]; intros store;
      [reflexivity |].
    cbn [fold_left]. rewrite IH.
    destruct (negb _); [reflexivity | apply label_decision_edges_frame].
  - intros i Hi. rewrite ensure_decision_edge_labels_edges.
    generalize (edges G) at 2 3. revert Hi.
    induction (nodes G) as [| m l IH]; intros Hi store; [reflexivity |].
    cbn [fold_left]. rewrite IH by (intros n Hn; apply Hi; right; exact Hn).
    destruct (negb _) eqn:E; [reflexivity |].
    apply label_decision_edges_other. apply (Hi m); [left; reflexivity |].
    apply negb_false_iff, str_eqb_true in E. exact E.
Qed.

End GraphQueries.

Lemma ensure_decision_edge_labels_frame_witness :
  let G := {| nodes := [make_node (u "k") (u "x > 0") (u "decision") (0, 0)%Q;
                        make_node (u "a") (u "A") (u "process") (0, 0)%Q;
                        make_node (u "b") (u "B") (u "process") (0, 0)%Q];
              edges := [make_edge (u "e1") (u "k") (u "a") (u "yes") (u "smoothstep") (u "solid");
                        make_edge (u "e2") (u "k") (u "b") [] (u "smoothstep") (u "solid");
                        make_edge (u "e3") (u "a") (u "b") (u "sonra") (u "smoothstep") (u "solid")] |} in
  map e_label (edges (ensure_decision_edge_labels G)) = [u "Evet"; u "Hayır"; u "sonra"] /\
  label_at (edges (ensure_decision_edge_labels G)) 2%nat = label_at (edges G) 2%nat.
Proof.
  intros G. split; [vm_compute; reflexivity |].
  apply (proj2 (proj2 (ensure_decision_edge_labels_frame G))).
  intros n Hn Hk. cbn [nodes G In] in Hn.
  destruct Hn as [<- | [<- | [<- | []]]].
  - vm_compute. intros [E | [E | []]]; discriminate E.
  - vm_compute in Hk. discriminate Hk.
  - vm_compute in Hk. discriminate Hk.
Defined.
(** ** Decimal numerals and minted ids *)
Section Numerals.
Local Open Scope N_scope.

(** Reading a decimal numeral back, continuing from the value [a]. *)
Lemma digits_fuel_value (f : nat) :
  forall n acc, n < 10 ^ N.of_nat f ->
    fold_left (fun a d => 10 * a + (d - 48)) (digits_fuel f n acc) 0
      = fold_left (fun a d => 10 * a + (d - 48)) acc n.
Proof.
  induction f as [| f IH]; intros n acc Hn.
  - cbn in Hn. assert (n = 0) as -> by lia. reflexivity.
  - cbn [digits_fuel]. cbv zeta. destruct (n <? 10) eqn:E.
    + apply N.ltb_lt in E. cbn [fold_left]. f_equal.
      rewrite N.mod_small by exact E. rewrite (N.add_comm 48), N.add_sub. reflexivity.
    + apply N.ltb_ge in E. rewrite IH.
      * cbn [fold_left]. f_equal.
        rewrite (N.add_comm 48), N.add_sub. symmetry. apply N.div_mod. discriminate.
      * rewrite Nat2N.inj_succ, N.pow_succ_r' in Hn.
        apply N.Div0.div_lt_upper_bound. exact Hn.
Qed.

Lemma str_of_N_value (n : N) :
  fold_left (fun a d => 10 * a + (d - 48)) (str_of_N n) 0 = n.
Proof.
  unfold str_of_N. rewrite digits_fuel_value; [reflexivity |].
  rewrite Nat2N.inj_succ, N2Nat.id.
  destruct (N.eq_dec n 0) as [-> | Hne]; [reflexivity |].
  pose proof (N.log2_spec n ltac:(lia)) as [_ Hlt].
  eapply N.lt_le_trans; [exact Hlt |].
  apply N.pow_le_mono_l. lia.
Qed.

Lemma str_of_N_inj (n m : N) : str_of_N n = str_of_N m -> n = m.
Proof.
  intros E. rewrite <- (str_of_N_value n), <- (str_of_N_value m), E. reflexivity.
Qed.

Lemma suffixed_inj (nid : list N) (i j : N) : suffixed nid i = suffixed nid j -> i = j.
Proof.
  unfold suffixed. intros E. apply app_inv_head in E. apply app_inv_head in E.
  apply str_of_N_inj, E.
Qed.

End Numerals.

Section MintedIds.
Local Open Scope nat_scope.

Lemma free_suffix_taken (nds : gmap (list N) (list N * list N)) (nid : list N) (fuel : nat) :
  forall idx,
    is_Some (nds !! suffixed nid (free_suffix fuel nds nid idx)) ->
    forall j, j < fuel -> is_Some (nds !! suffixed nid (idx + N.of_nat j)%N).
Proof.
  induction fuel as [| fuel IH]; intros idx Htaken j Hj; [lia |].
  cbn [free_suffix] in Htaken. case_bool_decide as Hidx.
  - destruct j as [| j]; [rewrite N.add_0_r; exact Hidx |].
    replace (idx + N.of_nat (S j))%N with (idx + 1 + N.of_nat j)%N by lia.
    apply (IH (idx + 1)%N Htaken). lia.
  - contradiction.
Qed.

(** The search for a free suffix ends on an id that no node has. *)
Lemma free_suffix_fresh (nds : gmap (list N) (list N * list N)) (nid : list N) (idx : N) :
  nds !! suffixed nid (free_suffix (S (size nds)) nds nid idx) = None.
Proof.
  destruct (nds !! suffixed nid (free_suffix (S (size nds)) nds nid idx)) as [v |] eqn:E;
    [| reflexivity].
  exfalso.
  pose proof (free_suffix_taken nds nid (S (size nds)) idx ltac:(rewrite E; eauto)) as Hall.
  set (keys := (fun j => suffixed nid (idx + N.of_nat j)%N) <$> seq 0 (S (size nds))).
  assert (Hnd : NoDup keys).
  { unfold keys. apply NoDup_fmap_2; [| apply NoDup_seq].
    intros a b Hab. apply suffixed_inj in Hab. lia. }
  assert (Hsub : list_to_set (C := gset (list N)) keys ⊆ dom nds).
  { intros k Hk. apply elem_of_list_to_set in Hk. unfold keys in Hk.
    apply list_elem_of_fmap in Hk. destruct Hk as (j & -> & Hj).
    apply elem_of_seq in Hj. apply elem_of_dom. apply Hall. lia. }
  apply subseteq_size in Hsub.
  rewrite size_list_to_set, size_dom in Hsub by exact Hnd.
  unfold keys in Hsub. rewrite length_fmap, length_seq in Hsub. lia.
Qed.

(** X15: the id that [resolve_node_id] gives to a triple (id, label, kind)
    seen for the first time is the id of no node read so far, it is the
    written id itself when that one is free, and asking again for the same
    triple returns the same id. *)
Theorem resolve_node_id_fresh (nid label kind : list N) (ps : ParseState) :
  p_alias_map ps !! (nid, label, kind) = None ->
  let v := fst (resolve_node_id nid label kind ps) in
  let ps' := snd (resolve_node_id nid label kind ps) in
  p_nodes ps !! v = None /\
  (p_nodes ps !! nid = None -> v = nid) /\
  fst (resolve_node_id nid label kind ps') = v.
Proof.
  intros Halias. cbv zeta. unfold resolve_node_id at 1 2 4 5. rewrite Halias.
  destruct (p_nodes ps !! nid) as [e |] eqn:E; cbn [fst snd].
  - split; [apply free_suffix_fresh |]. split; [discriminate |].
    unfold resolve_node_id. cbn [p_alias_map]. rewrite lookup_insert_eq. reflexivity.
  - split; [exact E |]. split; [reflexivity |].
    unfold resolve_node_id. cbn [p_alias_map]. rewrite lookup_insert_eq. reflexivity.
Qed.

End MintedIds.

Lemma resolve_node_id_fresh_witness :
  let ps := {| p_nodes := {[ u "a" := (u "Start", u "process");
                             u "a_2" := (u "Other", u "process") ]};
               p_edges := [];
               p_alias_map := {[ (u "a", u "Start", u "process") := u "a" ]} |} in
  fst (resolve_node_id (u "a") (u "a") (u "process") ps) = u "a_3" /\
  p_alias_map ps !! (u "a", u "a", u "process") = None /\
  (p_nodes ps !! fst (resolve_node_id (u "a") (u "a") (u "process") ps) = None /\
   (p_nodes ps !! u "a" = None -> fst (resolve_node_id (u "a") (u "a") (u "process") ps) = u "a") /\
   fst (resolve_node_id (u "a") (u "a") (u "process")
          (snd (resolve_node_id (u "a") (u "a") (u "process") ps)))
     = fst (resolve_node_id (u "a") (u "a") (u "process") ps)).
Proof.
  intros ps. split; [vm_compute; reflexivity |].
  split; [vm_compute; reflexivity |].
  apply resolve_node_id_fresh. vm_compute. reflexivity.
Defined.

(** ** The ids of the export *)
Section ExportIds.
Context `{PyUnicode}.
Local Open Scope nat_scope.

Lemma export_id_map_snoc (l : list StreamlitFlowNode) (x : StreamlitFlowNode) :
  export_id_map (l ++ [x])
    = <[n_id x := u "n" ++ str_of_N (N.of_nat (length l) + 1)]> (export_id_map l).
Proof.
  unfold export_id_map. rewrite enumerate_snoc, fold_left_app. reflexivity.
Qed.

Lemma export_id_map_lookup (l : list StreamlitFlowNode) :
  List.NoDup (map n_id l) ->
  forall i n, l !! i = Some n ->
              export_id_map l !! n_id n = Some (u "n" ++ str_of_N (N.of_nat i + 1)).
Proof.
  induction l as [| x l IH] using rev_ind; intros Hnd i n Hi; [discriminate Hi |].
  rewrite map_app in Hnd. cbn [map] in Hnd.
  rewrite export_id_map_snoc.
  destruct (Nat.lt_ge_cases i (length l)) as [Hlt | Hge].
  - rewrite lookup_app_l in Hi by exact Hlt.
    rewrite lookup_insert_ne.
    + apply IH; [| exact Hi]. apply NoDup_ListNoDup in Hnd. apply NoDup_app in Hnd.
      apply NoDup_ListNoDup. tauto.
    + intros Heq. apply NoDup_ListNoDup, NoDup_app in Hnd. destruct Hnd as (_ & Hdis & _).
      apply (Hdis (n_id n)).
      * apply list_elem_of_In, in_map, list_elem_of_In, list_elem_of_lookup. eauto.
      * rewrite Heq. apply list_elem_of_singleton. reflexivity.
  - rewrite lookup_app_r in Hi by exact Hge.
    destruct (i - length l) as [| j] eqn:Ej; [| destruct j; discriminate Hi].
    cbn in Hi. injection Hi as <-. rewrite lookup_insert_eq.
    replace i with (length l) by lia. reflexivity.
Qed.

(** X16: when the node ids are pairwise distinct, the export renames the
    nodes, in the order it lists them, to [n1], [n2], ..., and no two nodes
    get the same name. *)
Theorem export_ids_distinct (l : list StreamlitFlowNode) :
  List.NoDup (map n_id l) ->
  let export_id := fun n => default (n_id n) (export_id_map l !! n_id n) in
  map export_id l = map (fun i => u "n" ++ str_of_N (N.of_nat i + 1)) (seq 0 (length l)) /\
  List.NoDup (map export_id l).
Proof.
  intros Hnd export_id.
  assert (Heq : map export_id l
                = map (fun i => u "n" ++ str_of_N (N.of_nat i + 1)) (seq 0 (length l))).
  { apply list_eq. intros i.
    change (map export_id l) with (export_id <$> l).
    change (map (fun i => u "n" ++ str_of_N (N.of_nat i + 1)) (seq 0 (length l)))
      with ((fun i => u "n" ++ str_of_N (N.of_nat i + 1)) <$> seq 0 (length l)).
    rewrite !list_lookup_fmap.
    destruct (l !! i) as [n |] eqn:E.
    - rewrite lookup_seq_lt by (apply lookup_lt_is_Some; eauto).
      cbn. unfold export_id. rewrite (export_id_map_lookup l Hnd i n E). reflexivity.
    - rewrite lookup_seq_ge by (apply lookup_ge_None; exact E). reflexivity. }
  split; [exact Heq |]. rewrite Heq.
  apply NoDup_ListNoDup, NoDup_fmap_2; [| apply NoDup_seq].
  intros a b Hab. apply app_inv_head, str_of_N_inj in Hab. lia.
Qed.

End ExportIds.

Lemma export_ids_distinct_witness :
  let l := [make_node (u "a") (u "A") (u "process") (0, 0)%Q;
            make_node (u "b") (u "B") (u "decision") (0, 0)%Q;
            make_node (u "c") (u "C") (u "terminal") (0, 0)%Q] in
  let export_id := fun n => default (n_id n) (export_id_map l !! n_id n) in
  map export_id l = [u "n1"; u "n2"; u "n3"] /\
  (map export_id l
     = map (fun i => u "n" ++ str_of_N (N.of_nat i + 1)) (seq 0 (length l)) /\
   List.NoDup (map export_id l)).
Proof.
  intros l export_id. split; [vm_compute; reflexivity |].
  apply export_ids_distinct.
  vm_compute. repeat constructor; cbn [In]; intuition discriminate.
Defined.
(** ** Snapshots *)
Section Snapshots.
Local Open Scope nat_scope.

Lemma str_or_nonempty (a b : list N) : nonempty b = true -> nonempty (str_or a b) = true.
Proof. intros Hb. unfold str_or. destruct (nonempty a) eqn:E; assumption. Qed.

Lemma str_or_idem (a b c : list N) :
  nonempty b = true -> str_or (str_or a b) c = str_or a b.
Proof. intros Hb. unfold str_or at 1. rewrite (str_or_nonempty a b Hb). reflexivity. Qed.

(** X17: a state rebuilt from the snapshot of a state whose nodes all have
    a label gives the same snapshot again: ids, positions, labels and kinds
    of the nodes, ids, ends, labels, types and variants of the edges. *)
Theorem snapshot_round_trip (G : StreamlitFlowState) :
  Forall (fun n => get_node_label n <> []) (nodes G) ->
  let G' := build_state_from_snapshot (serialize_nodes (nodes G)) (serialize_edges (edges G)) in
  serialize_nodes (nodes G') = serialize_nodes (nodes G) /\
  serialize_edges (edges G') = serialize_edges (edges G).
Proof.
  intros Hlabels. cbv zeta. unfold build_state_from_snapshot. cbn [nodes edges].
  split.
  - unfold serialize_nodes. rewrite !map_map. apply map_ext_in. intros n Hn.
    rewrite Forall_forall in Hlabels. specialize (Hlabels n (proj2 (list_elem_of_In _ _) Hn)).
    cbn [ns_id ns_kind ns_label ns_pos].
    assert (Hl : nonempty (get_node_label n) = true)
      by (destruct (get_node_label n); [congruence | reflexivity]).
    set (L := get_node_label n) in *. set (K := get_node_kind n).
    replace (str_or L (n_id n)) with L by (unfold str_or; rewrite Hl; reflexivity).
    replace (str_or K (u "process")) with K
      by (unfold K, get_node_kind; rewrite str_or_idem by reflexivity; reflexivity).
    unfold get_node_pos, get_node_label, get_node_kind.
    cbn [make_node n_id n_pos n_label n_kind]. rewrite Hl.
    fold (get_node_pos n).
    replace (str_or K (u "process")) with K
      by (unfold K, get_node_kind; rewrite str_or_idem by reflexivity; reflexivity).
    reflexivity.
  - unfold serialize_edges. rewrite !map_map. apply map_ext. intros e.
    destruct e as [eid src tgt lbl et var].
    unfold get_edge_label, get_edge_type, get_edge_variant.
    cbn [make_edge e_id e_source e_target e_label e_edge_type e_variant
         es_id es_source es_target es_label es_edge_type es_variant].
    rewrite !str_or_idem by reflexivity.
    replace (str_or lbl []) with lbl by (destruct lbl; reflexivity).
    reflexivity.
Qed.

Lemma snapshot_round_trip_witness :
  let G := {| nodes := [make_node (u "a") (u "Başla") (u "terminal") (10, 20)%Q;
                        {| n_id := u "b"; n_pos := (0, 0)%Q; n_label := [];
                           n_content := u "**? Karar**"; n_kind := [] |}];
              edges := [make_edge (u "e1") (u "a") (u "b") [] [] []] |} in
  let G' := build_state_from_snapshot (serialize_nodes (nodes G)) (serialize_edges (edges G)) in
  map n_label (nodes G') = [u "Başla"; u "? Karar"] /\
  (serialize_nodes (nodes G') = serialize_nodes (nodes G) /\
   serialize_edges (edges G') = serialize_edges (edges G)).
Proof.
  intros G G'. split; [vm_compute; reflexivity |].
  apply snapshot_round_trip. repeat constructor; vm_compute; discriminate.
Defined.

End Snapshots.

(** ** Edge ids *)
Section EdgeIds.
Local Open Scope N_scope.

Lemma le_bytes_length (n : nat) (x : N) : length (MD5.le_bytes n x) = n.
Proof. unfold MD5.le_bytes. rewrite length_map, length_seq. reflexivity. Qed.

Lemma le_bytes_below (n : nat) (x : N) : Forall (fun b => b < 256) (MD5.le_bytes n x).
Proof.
  unfold MD5.le_bytes. apply Forall_forall. intros b Hb.
  apply list_elem_of_In, in_map_iff in Hb. destruct Hb as (i & <- & _).
  change 255 with (N.ones 8). rewrite N.land_ones.
  apply N.mod_lt. discriminate.
Qed.

Lemma hex_digit_char (d : N) : d < 16 -> hex_char (MD5.hex_digit d) = true.
Proof.
  intros Hd. unfold MD5.hex_digit, hex_char.
  destruct (d <? 10) eqn:E; [apply N.ltb_lt in E | apply N.ltb_ge in E];
    rewrite orb_true_iff, !andb_true_iff, !N.leb_le; lia.
Qed.

Lemma hexdigest_shape (msg : list N) :
  length (MD5.hexdigest msg) = 32%nat /\ forallb hex_char (MD5.hexdigest msg) = true.
Proof.
  unfold MD5.hexdigest, MD5.digest. cbv zeta.
  destruct (MD5.chunks _ _ _) as [[[a b] c] d].
  set (bytes := MD5.le_bytes 4 a ++ MD5.le_bytes 4 b ++ MD5.le_bytes 4 c ++ MD5.le_bytes 4 d).
  assert (Hlen : length bytes = 16%nat).
  { unfold bytes. rewrite !length_app, !le_bytes_length. reflexivity. }
  assert (Hbelow : Forall (fun b => b < 256) bytes).
  { unfold bytes. rewrite !Forall_app. repeat split; apply le_bytes_below. }
  clearbody bytes. split.
  - assert (Hgen : length (flat_map (fun b => [MD5.hex_digit (b / 16);
                                                MD5.hex_digit (b mod 16)]) bytes)
                   = (2 * length bytes)%nat).
    { clear. induction bytes as [| x l IH]; [reflexivity |].
      cbn [flat_map app length]. rewrite IH. lia. }
    rewrite Hgen, Hlen. reflexivity.
  - clear Hlen. induction Hbelow as [| x l Hx _ IH]; [reflexivity |].
    cbn [flat_map app forallb]. rewrite IH, !hex_digit_char; [reflexivity | |].
    + apply N.mod_lt. discriminate.
    + apply N.Div0.div_lt_upper_bound. exact Hx.
Qed.

(** X18: an edge id built by [build_edge_id] reads [e_], eight hexadecimal
    digits in lower case, [_], the source, [_], the target. *)
Theorem build_edge_id_shape (source target label variant salt : list N) :
  exists hid, build_edge_id source target label variant salt
                = u "e_" ++ hid ++ u "_" ++ source ++ u "_" ++ target /\
              length hid = 8%nat /\ forallb hex_char hid = true.
Proof.
  unfold build_edge_id. cbv zeta. eexists. split; [reflexivity |].
  destruct (hexdigest_shape (utf8_encode (source ++ u "|" ++ target ++ u "|" ++ label ++ u "|"
                                           ++ variant ++ u "|" ++ salt))) as [Hlen Hhex].
  split.
  - rewrite length_take, Hlen. reflexivity.
  - rewrite <- (firstn_skipn 8 (MD5.hexdigest _)) in Hhex.
    rewrite forallb_app in Hhex. apply andb_true_iff in Hhex. tauto.
Qed.

End EdgeIds.
(** ** Normalising twice *)
Section Normalised.
Local Open Scope nat_scope.

Lemma py_round_grid (k : Z) : py_round (inject_Z (k * 20) / inject_Z 20) = k.
Proof.
  unfold py_round.
  assert (Hf : Qfloor (inject_Z (k * 20) / inject_Z 20) = k).
  { unfold Qdiv, Qmult, Qinv, inject_Z, Qfloor. cbn [Qnum Qden Z.mul Pos.mul].
    rewrite Z.mul_1_r. apply Z.div_mul. discriminate. }
  rewrite Hf.
  assert (Hd : (inject_Z (k * 20) / inject_Z 20 - inject_Z k ?= 1 # 2)%Q = Lt).
  { apply Qlt_alt. 
    assert (Hz : (inject_Z (k * 20) / inject_Z 20 - inject_Z k == 0)%Q).
    { unfold Qdiv. rewrite inject_Z_mult. field. }
    rewrite Hz. reflexivity. }
  rewrite Hd. reflexivity.
Qed.

Lemma snap_to_grid_fixed (x y : Q) :
  snap_to_grid (fst (snap_to_grid x y 20)) (snd (snap_to_grid x y 20)) 20
    = snap_to_grid x y 20.
Proof.
  unfold snap_to_grid. cbn [fst snd]. rewrite !py_round_grid. reflexivity.
Qed.

Lemma normalize_node_fixed (ses : Session) (n : StreamlitFlowNode) :
  n_id n <> [] \/ n_label n <> [] \/ n_content n <> [] ->
  normalize_node ses (normalize_node ses n) = normalize_node ses n.
Proof.
  intros Hn. unfold normalize_node at 1.
  set (m := normalize_node ses n).
  assert (Hl : nonempty (n_label m) = true).
  { unfold m, normalize_node. cbn [n_label]. unfold str_or.
    destruct (n_label n) as [| a l]; [| reflexivity]. cbn [nonempty].
    destruct (n_content n) as [| b c]; [| reflexivity]. cbn [nonempty].
    destruct (n_id n); [| reflexivity]. exfalso. destruct Hn as [Hn | [Hn | Hn]]; congruence. }
  assert (Hlabel : str_or (n_label m) (str_or (n_content m) (n_id m)) = n_label m)
    by (unfold str_or at 1; rewrite Hl; reflexivity).
  assert (Hkind : str_or (n_kind m) (u "process") = n_kind m)
    by (unfold m, normalize_node; cbn [n_kind]; apply str_or_idem; reflexivity).
  rewrite Hlabel, Hkind.
  assert (Hpos : (if enable_grid_snap ses
                  then snap_to_grid (fst (get_node_pos m)) (snd (get_node_pos m)) 20
                  else n_pos m) = n_pos m).
  { destruct (enable_grid_snap ses) eqn:E; [| reflexivity].
    unfold m, normalize_node, get_node_pos. cbn [n_pos]. rewrite E.
    apply snap_to_grid_fixed. }
  rewrite Hpos. unfold m, normalize_node. cbn [n_id n_pos n_label n_content n_kind].
  reflexivity.
Qed.

Lemma normalize_edge_fixed (e : StreamlitFlowEdge) :
  normalize_edge (normalize_edge e) = normalize_edge e.
Proof.
  unfold normalize_edge, get_edge_variant.
  cbn [e_id e_source e_target e_label e_edge_type e_variant].
  rewrite str_or_idem by reflexivity. reflexivity.
Qed.

(** X19: on a state in which every node has an id, a label or a content,
    a second [normalize_state] changes nothing. *)
Theorem normalize_state_idempotent (ses : Session) (G : StreamlitFlowState) :
  Forall (fun n => n_id n <> [] \/ n_label n <> [] \/ n_content n <> []) (nodes G) ->
  normalize_state ses (normalize_state ses G) = normalize_state ses G.
Proof.
  intros Hnodes. unfold normalize_state. cbn [nodes edges]. f_equal.
  - rewrite map_map. apply map_ext_in. intros n Hn.
    rewrite Forall_forall in Hnodes.
    apply normalize_node_fixed, Hnodes, list_elem_of_In, Hn.
  - rewrite map_map. apply map_ext. intros e. apply normalize_edge_fixed.
Qed.

Lemma normalize_state_idempotent_witness :
  let ses := {| session_direction := u "TD"; enable_grid_snap := true |} in
  let G := {| nodes := [{| n_id := u "n1"; n_pos := (127, 83)%Q; n_label := [];
                           n_content := []; n_kind := [] |}];
              edges := [make_edge (u "e1") (u "n1") (u "n1") [] [] []] |} in
  map n_label (nodes (normalize_state ses G)) = [u "n1"] /\
  map n_pos (nodes (normalize_state ses G)) = [(inject_Z 120, inject_Z 80)] /\
  normalize_state ses (normalize_state ses G) = normalize_state ses G.
Proof.
  intros ses G. split; [vm_compute; reflexivity |]. split; [vm_compute; reflexivity |].
  apply normalize_state_idempotent. constructor 2; [left; discriminate | constructor 1].
Defined.

(** Once every node has none of the three, the second pass differs: it
    takes the markdown of the first pass for a label. *)
Example normalize_state_blank_node :
  let ses := {| session_direction := u "TD"; enable_grid_snap := false |} in
  let G := {| nodes := [{| n_id := []; n_pos := (0, 0)%Q; n_label := [];
                           n_content := []; n_kind := [] |}];
              edges := [] |} in
  map n_label (nodes (normalize_state ses G)) = [[]] /\
  map n_label (nodes (normalize_state ses (normalize_state ses G))) <> [[]].
Proof. split; [vm_compute; reflexivity | vm_compute; discriminate]. Qed.

End Normalised.
(** ** Editing operations *)
Section EditingFacts.
Context `{PyUnicode}.
Local Open Scope nat_scope.

Lemma normalize_state_ids (ses : Session) (fs : StreamlitFlowState) :
  map n_id (nodes (normalize_state ses fs)) = map n_id (nodes fs).
Proof. unfold normalize_state. cbn [nodes]. rewrite map_map. reflexivity. Qed.

Lemma normalize_state_edge_in (ses : Session) (fs : StreamlitFlowState) (e : StreamlitFlowEdge) :
  In e (edges (normalize_state ses fs)) ->
  exists e0, In e0 (edges fs) /\ e_source e = e_source e0 /\ e_target e = e_target e0 /\
             e_id e = e_id e0 /\ e_label e = e_label e0.
Proof.
  unfold normalize_state. cbn [edges]. intros He. apply in_map_iff in He.
  destruct He as (e0 & <- & He0). exists e0. repeat split. exact He0.
Qed.

Lemma normalize_state_within (ses : Session) (fs : StreamlitFlowState) :
  edges_within fs -> edges_within (normalize_state ses fs).
Proof.
  intros Hw e He. rewrite normalize_state_ids.
  destruct (normalize_state_edge_in ses fs e He) as (e0 & He0 & -> & -> & _).
  apply Hw, He0.
Qed.

Lemma push_last (a : HistoryManager.push_args) (h : HistoryManager.t) :
  exists entry,
    last (HistoryManager.undo_stack (HistoryManager.push a h)) = Some entry /\
    code_text entry = HistoryManager.pa_code_text a /\
    node_snapshot entry = serialize_nodes (nodes (HistoryManager.pa_flow_state a)) /\
    edge_snapshot entry = serialize_edges (edges (HistoryManager.pa_flow_state a)).
Proof.
  unfold HistoryManager.push. cbn [HistoryManager.undo_stack].
  eexists. split.
  - destruct (HistoryManager.MAX_HISTORY <? _) eqn:E; [| apply last_snoc].
    unfold HistoryManager.pop_front.
    destruct (HistoryManager.undo_stack h) as [| x l]; [discriminate E |].
    cbn [app tail]. apply last_snoc.
  - split; [reflexivity |]. split; reflexivity.
Qed.

Lemma normalize_sync_push_in_sync (action : list N) (now : Q) (fs : StreamlitFlowState)
    (ss : SessionState) :
  in_sync (normalize_sync_push action now fs ss).
Proof.
  unfold in_sync, normalize_sync_push.
  cbn [ss_code_text ss_flow_state ss_direction ss_last_code_hash ss_history].
  split; [reflexivity |]. split; [reflexivity |]. apply push_last.
Qed.

(** X20: the text and the history follow the graph through the editing
    operations: after [delete_node] and [delete_edge] the code text is the
    one generated from the new graph, its hash is recorded, and the newest
    history entry holds that text and the snapshot of that graph;
    [reverse_edge] and [add_edge], which may leave everything as it is,
    keep this as it was. *)
Theorem editing_keeps_in_sync (ss : SessionState) (node_id edge_id src tgt lbl et var : list N)
    (now : Q) :
  in_sync (delete_node node_id now ss) /\
  in_sync (delete_edge edge_id now ss) /\
  (in_sync ss -> in_sync (reverse_edge edge_id now ss) /\
                 in_sync (add_edge src tgt lbl et var now ss)).
Proof.
  split; [apply normalize_sync_push_in_sync |].
  split; [apply normalize_sync_push_in_sync |].
  intros Hss. split.
  - unfold reverse_edge. destruct (find_edge edge_id (ss_flow_state ss));
      [apply normalize_sync_push_in_sync | exact Hss].
  - unfold add_edge.
    repeat match goal with
           | |- in_sync (if ?c then _ else _) => destruct c; [exact Hss |]
           end.
    apply normalize_sync_push_in_sync.
Qed.

(** X21: after [delete_node] no node has the deleted id and no edge starts
    or ends at it; a graph whose edges all joined nodes of the graph still
    has this property. *)
Theorem delete_node_leaves_no_trace (x : list N) (now : Q) (ss : SessionState) :
  let fs' := ss_flow_state (delete_node x now ss) in
  ~ In x (map n_id (nodes fs')) /\
  (forall e, In e (edges fs') -> e_source e <> x /\ e_target e <> x) /\
  (edges_within (ss_flow_state ss) -> edges_within fs').
Proof.
  cbv zeta. unfold delete_node, normalize_sync_push. cbn [ss_flow_state].
  set (fs := ss_flow_state ss).
  set (fs1 := {| nodes := List.filter _ (nodes fs); edges := List.filter _ (edges fs) |}).
  set (ses := session_of _).
  assert (Hedge : forall e, In e (edges fs1) ->
                            In e (edges fs) /\ e_source e <> x /\ e_target e <> x).
  { intros e He. unfold fs1 in He. cbn [edges] in He. apply filter_In in He.
    destruct He as [He Hx]. apply andb_true_iff in Hx. destruct Hx as [H1 H2].
    apply negb_true_iff, str_eqb_false in H1, H2. auto. }
  split; [| split].
  - rewrite normalize_state_ids. unfold fs1. cbn [nodes]. intros Hin.
    apply in_map_iff in Hin. destruct Hin as (n & Hid & Hn). apply filter_In in Hn.
    destruct Hn as [_ Hn]. apply negb_true_iff, str_eqb_false in Hn. congruence.
  - intros e He. destruct (normalize_state_edge_in ses fs1 e He) as (e0 & He0 & -> & -> & _).
    apply Hedge, He0.
  - intros Hw. apply normalize_state_within. intros e He.
    destruct (Hedge e He) as (He0 & Hs & Ht). destruct (Hw e He0) as [H1 H2].
    assert (Hkeep : forall k, k <> x -> In k (map n_id (nodes fs)) ->
                              In k (map n_id (nodes fs1))).
    { intros k Hk Hin. apply in_map_iff in Hin. destruct Hin as (n & <- & Hn).
      apply in_map. unfold fs1. cbn [nodes]. apply filter_In. split; [exact Hn |].
      apply negb_true_iff, str_eqb_false. exact Hk. }
    split; apply Hkeep; assumption.
Qed.

Lemma find_node_in (k : list N) (fs : StreamlitFlowState) :
  is_Some (find_node k fs) -> In k (map n_id (nodes fs)).
Proof.
  unfold find_node. intros [n Hn]. apply find_some in Hn. destruct Hn as [Hn Hk].
  apply str_eqb_true in Hk. subst k. apply in_map, Hn.
Qed.

Lemma normalize_state_keys (ses : Session) (fs : StreamlitFlowState) :
  map edge_key (edges (normalize_state ses fs)) = map edge_key (edges fs).
Proof. unfold normalize_state. cbn [edges]. rewrite map_map. reflexivity. Qed.

(** X22: [add_edge] adds no edge from a node to itself, no edge to or from
    an id that is not a node, and no second edge of the same source, target
    and label: each of the three properties, when the graph has it, is kept. *)
Theorem add_edge_keeps_graph_sound (src tgt lbl et var : list N) (now : Q) (ss : SessionState) :
  let fs := ss_flow_state ss in
  let fs' := ss_flow_state (add_edge src tgt lbl et var now ss) in
  (Forall (fun e => e_source e <> e_target e) (edges fs) ->
   Forall (fun e => e_source e <> e_target e) (edges fs')) /\
  (edges_within fs -> edges_within fs') /\
  (List.NoDup (map edge_key (edges fs)) -> List.NoDup (map edge_key (edges fs'))).
Proof.
  cbv zeta. unfold add_edge. set (fs := ss_flow_state ss).
  destruct (str_eqb src tgt) eqn:Eself; [tauto |].
  destruct (negb (bool_decide (is_Some (find_node src fs)))
            || negb (bool_decide (is_Some (find_node tgt fs)))) eqn:Efind; [tauto |].
  destruct (existsb _ (edges fs)) eqn:Edup; [tauto |].
  apply str_eqb_false in Eself.
  apply orb_false_iff in Efind. destruct Efind as [Hs Ht].
  apply negb_false_iff, bool_decide_eq_true in Hs, Ht.
  unfold normalize_sync_push. cbn [ss_flow_state].
  set (ses := session_of _).
  set (new := make_edge _ src tgt lbl et var).
  set (fs1 := {| nodes := nodes fs; edges := edges fs ++ [new] |}).
  split; [| split].
  - intros Hloops. apply Forall_forall. intros e He. apply list_elem_of_In in He.
    destruct (normalize_state_edge_in ses fs1 e He) as (e0 & He0 & -> & -> & _).
    unfold fs1 in He0. cbn [edges] in He0. apply in_app_or in He0.
    destruct He0 as [He0 | [<- | []]]; [| exact Eself].
    rewrite Forall_forall in Hloops. apply Hloops, list_elem_of_In, He0.
  - intros Hw. apply normalize_state_within. intros e He.
    unfold fs1 in He |- *. cbn [edges nodes] in *. apply in_app_or in He.
    destruct He as [He | [<- | []]]; [apply Hw, He |].
    split; apply find_node_in; assumption.
  - intros Hnd. rewrite normalize_state_keys. unfold fs1. cbn [edges].
    rewrite map_app. cbn [map].
    apply NoDup_ListNoDup, NoDup_app. apply NoDup_ListNoDup in Hnd.
    split; [exact Hnd |]. split; [| apply NoDup_singleton].
    intros k Hk Hin. apply list_elem_of_singleton in Hin. subst k.
    apply list_elem_of_In, in_map_iff in Hk. destruct Hk as (e & Hkey & He).
    assert (Hex : existsb (fun e => str_eqb (e_source e) src && str_eqb (e_target e) tgt
                                    && str_eqb (get_edge_label e) lbl) (edges fs) = true).
    { apply existsb_exists. exists e. split; [exact He |].
      unfold edge_key, new in Hkey. cbn [make_edge e_source e_target get_edge_label e_label] in Hkey.
      injection Hkey as -> -> Hl. unfold get_edge_label at 1 in Hl.
      rewrite !str_eqb_refl. cbn [andb]. apply str_eqb_true. exact Hl. }
    congruence.
Qed.

Lemma find_edge_same_ids (x : list N) (l1 : list StreamlitFlowEdge) :
  forall l2, map e_id l1 = map e_id l2 ->
             fst <$> list_find (fun e => e_id e = x) l1
             = fst <$> list_find (fun e => e_id e = x) l2.
Proof.
  induction l1 as [| a l1 IH]; intros [| b l2] Hids; try discriminate Hids; [reflexivity |].
  cbn [map] in Hids. injection Hids as Hab Hids.
  cbn [list_find]. rewrite Hab.
  destruct (decide (e_id b = x)); [reflexivity |].
  specialize (IH l2 Hids).
  destruct (list_find _ l1) as [[i e] |], (list_find _ l2) as [[j e'] |];
    cbn in IH |- *; congruence.
Qed.

Lemma swap_ends_twice (e : StreamlitFlowEdge) : swap_ends (swap_ends e) = e.
Proof. destruct e. reflexivity. Qed.

Lemma alter_swap_ids (r : nat) (l : list StreamlitFlowEdge) :
  map e_id (map normalize_edge (alter swap_ends r l)) = map e_id l.
Proof.
  revert r. induction l as [| e l IH]; intros r; [reflexivity |].
  destruct r as [| r]; cbn [alter list_alter map]; [rewrite map_map; reflexivity |].
  f_equal. apply IH.
Qed.

Lemma alter_swap_normalize (r : nat) (l : list StreamlitFlowEdge) :
  alter swap_ends r (map normalize_edge (alter swap_ends r l)) = map normalize_edge l.
Proof.
  revert r. induction l as [| e l IH]; intros r; [reflexivity |].
  destruct r as [| r]; cbn [alter list_alter map].
  - reflexivity.
  - f_equal. apply IH.
Qed.

(** X23: on a normalised graph, reversing the same edge twice gives the
    graph back: nodes and edges are those before the two calls. *)
Theorem reverse_edge_twice (x : list N) (now1 now2 : Q) (ss : SessionState) :
  normalize_state (session_of ss) (ss_flow_state ss) = ss_flow_state ss ->
  ss_flow_state (reverse_edge x now2 (reverse_edge x now1 ss)) = ss_flow_state ss.
Proof.
  intros Hnorm.
  destruct (find_edge x (ss_flow_state ss)) as [r |] eqn:Er.
  - set (fs := ss_flow_state ss) in *. set (ses := session_of ss) in *.
    set (fs1 := {| nodes := nodes fs; edges := alter swap_ends r (edges fs) |}).
    assert (Hfirst : reverse_edge x now1 ss
                     = normalize_sync_push (u "reverse_edge") now1 fs1 ss).
    { unfold reverse_edge. fold fs. rewrite Er. reflexivity. }
    rewrite Hfirst. set (ss1 := normalize_sync_push (u "reverse_edge") now1 fs1 ss).
    assert (H1 : ss_flow_state ss1 = normalize_state ses fs1) by reflexivity.
    assert (H2 : session_of ss1 = ses) by reflexivity.
    assert (Hfind : find_edge x (ss_flow_state ss1) = Some r).
    { rewrite H1, <- Er. unfold find_edge, normalize_state, fs1. cbn [edges].
      apply find_edge_same_ids, alter_swap_ids. }
    unfold reverse_edge. rewrite Hfind. unfold normalize_sync_push at 1.
    cbn [ss_flow_state]. rewrite H2, H1.
    unfold normalize_state, fs1. cbn [nodes edges].
    rewrite alter_swap_normalize.
    unfold normalize_state in Hnorm. destruct fs as [ns es]. cbn [nodes edges] in *.
    injection Hnorm as Hn He. rewrite Hn, He, Hn, He. reflexivity.
  - unfold reverse_edge. rewrite Er. unfold reverse_edge. rewrite Er. reflexivity.
Qed.

End EditingFacts.

Lemma editing_witness_state :
  { ss : SessionState |
    in_sync ss /\ edges_within (ss_flow_state ss) /\
    normalize_state (session_of ss) (ss_flow_state ss) = ss_flow_state ss /\
    map e_id (edges (ss_flow_state ss)) = [u "e1_a_b"] }.
Proof.
  set (blank := {| ss_flow_state :=
                     {| nodes := [make_node (u "a") (u "A") (u "process") (0, 0)%Q;
                                  make_node (u "b") (u "B") (u "process") (0, 0)%Q;
                                  make_node (u "c") (u "C") (u "process") (0, 0)%Q];
                        edges := [] |};
                   ss_direction := u "TD"; ss_enable_grid_snap := false;
                   ss_code_text := []; ss_last_code_hash := [];
                   ss_history := HistoryManager.init;
                   ss_last_active_node_id := None; ss_auto_connect_anchor := None;
                   ss_edge_counter := 0 |}).
  exists (add_edge (u "a") (u "b") [] (u "smoothstep") (u "solid") 0%Q blank).
  split; [| split; [| split]].
  - split; [vm_compute; reflexivity |]. split; [vm_compute; reflexivity |].
    eexists. split; [vm_compute; reflexivity |]. repeat split.
  - intros e He. vm_compute in He. destruct He as [<- | []]. vm_compute. tauto.
  - vm_compute. reflexivity.
  - vm_compute. reflexivity.
Defined.

Lemma editing_keeps_in_sync_witness :
  let ss := proj1_sig editing_witness_state in
  in_sync ss /\
  (in_sync (delete_node (u "a") 1%Q ss) /\
   in_sync (delete_edge (u "e1_a_b") 1%Q ss) /\
   (in_sync ss -> in_sync (reverse_edge (u "e1_a_b") 1%Q ss) /\
                  in_sync (add_edge (u "b") (u "c") [] (u "smoothstep") (u "solid") 1%Q ss))).
Proof.
  intros ss. split; [exact (proj1 (proj2_sig editing_witness_state)) |].
  apply editing_keeps_in_sync.
Defined.

Lemma delete_node_leaves_no_trace_witness :
  let ss := proj1_sig editing_witness_state in
  let fs' := ss_flow_state (delete_node (u "a") 1%Q ss) in
  edges_within (ss_flow_state ss) /\
  (map n_id (nodes fs') = [u "b"; u "c"] /\ edges fs' = []) /\
  (~ In (u "a") (map n_id (nodes fs')) /\
   (forall e, In e (edges fs') -> e_source e <> u "a" /\ e_target e <> u "a") /\
   (edges_within (ss_flow_state ss) -> edges_within fs')).
Proof.
  intros ss fs'. split; [exact (proj1 (proj2 (proj2_sig editing_witness_state))) |].
  split; [split; vm_compute; reflexivity |].
  apply delete_node_leaves_no_trace.
Defined.

Lemma add_edge_keeps_graph_sound_witness :
  let ss := proj1_sig editing_witness_state in
  let fs := ss_flow_state ss in
  let fs' := ss_flow_state (add_edge (u "b") (u "c") (u "x") (u "smoothstep") (u "solid") 1%Q ss) in
  map endpoints (edges fs') = [(u "a", u "b"); (u "b", u "c")] /\
  ((Forall (fun e => e_source e <> e_target e) (edges fs) ->
    Forall (fun e => e_source e <> e_target e) (edges fs')) /\
   (edges_within fs -> edges_within fs') /\
   (List.NoDup (map edge_key (edges fs)) -> List.NoDup (map edge_key (edges fs')))).
Proof.
  intros ss fs fs'. split; [vm_compute; reflexivity |].
  apply add_edge_keeps_graph_sound.
Defined.

Lemma reverse_edge_twice_witness :
  let ss := proj1_sig editing_witness_state in
  map endpoints (edges (ss_flow_state (reverse_edge (u "e1_a_b") 1%Q ss))) = [(u "b", u "a")] /\
  ss_flow_state (reverse_edge (u "e1_a_b") 2%Q (reverse_edge (u "e1_a_b") 1%Q ss))
    = ss_flow_state ss.
Proof.
  intros ss. split; [vm_compute; reflexivity |].
  apply reverse_edge_twice.
  exact (proj1 (proj2 (proj2 (proj2_sig editing_witness_state)))).
Defined.


(** ** Edge lines *)
Section EdgeLines.
Local Open Scope nat_scope.

Lemma arrow_blocked {A} (k : @Re.cont A) (x : N) (t : list N) (pos : nat) (c : Re.caps) :
  arrow_char x = false -> Re.run ARROW_RE k pos (x :: t) c = None.
Proof.
  intros Hx. unfold arrow_char in Hx.
  apply orb_false_iff in Hx. destruct Hx as [Hx H60].
  apply orb_false_iff in Hx. destruct Hx as [H45 H61].
  unfold ARROW_RE, Re.Alts. norm_u.
  cbn [fold_left Re.run Re.Lit fold_right]. rewrite H45, H61, H60. reflexivity.
Qed.

Lemma suffix_cons_cases {B} (t : list B) (y : B) (l : list B) :
  t `suffix_of` y :: l -> t = y :: l \/ t `suffix_of` l.
Proof.
  destruct t as [| x t]; [right; apply suffix_nil |]. apply suffix_cons_inv.
Qed.

Lemma rejects_suffixes_app {A} (k : @Re.cont A) (P : N -> bool) (s1 s2 : list N) :
  (forall x t pos c, P x = true -> k pos (x :: t) c = None) ->
  forallb P s1 = true -> rejects_suffixes k s2 -> rejects_suffixes k (s1 ++ s2).
Proof.
  intros HP Hs1 Hs2. induction s1 as [| x s1 IH]; [exact Hs2 |].
  cbn [forallb] in Hs1. apply andb_true_iff in Hs1. destruct Hs1 as [Hx Hs1].
  intros t pos c Ht. cbn [app] in Ht. apply suffix_cons_cases in Ht.
  destruct Ht as [-> | Ht]; [apply HP, Hx | apply (IH Hs1), Ht].
Qed.

(** The arrows the generator writes. *)
Lemma arrow_cases (variant arrow : list N) :
  In (variant, arrow) EDGE_VARIANT_TO_ARROW ->
  arrow = [45; 45; 62]%N \/ arrow = [45; 46; 45; 62]%N \/ arrow = [61; 61; 62]%N \/
  arrow = [45; 45; 111]%N \/ arrow = [45; 45; 120]%N.
Proof.
  unfold EDGE_VARIANT_TO_ARROW. norm_u. cbn [In].
  intros [E | [E | [E | [E | [E | []]]]]]; injection E as _ <-; tauto.
Qed.

(** An arrow at the start of the input is read as that arrow. *)
Lemma arrow_match {A} (k : @Re.cont A) (variant arrow : list N) :
  In (variant, arrow) EDGE_VARIANT_TO_ARROW ->
  forall pos rest c,
    Re.run ARROW_RE k pos (arrow ++ rest) c
      = k (pos + length arrow) rest (("arrow"%string, arrow) :: c).
Proof.
  intros Harrow pos rest c. apply arrow_cases in Harrow.
  unfold ARROW_RE, Re.Alts. norm_u.
  destruct Harrow as [-> | [-> | [-> | [-> | ->]]]];
    cbn [fold_left Re.run Re.Lit fold_right app length N.eqb Pos.eqb];
    repeat match goal with
           | |- context [S (S (S (S pos))) - pos] =>
             replace (S (S (S (S pos))) - pos) with 4 by lia
           | |- context [S (S (S pos)) - pos] =>
             replace (S (S (S pos)) - pos) with 3 by lia
           end;
    cbn [firstn];
    repeat match goal with
           | |- context [pos + ?n] => replace (pos + n) with (n + pos) by lia; cbn [Nat.add]
           end;
    change (firstn 0 rest) with (@nil N);
    destruct (k _ rest _); reflexivity.
Qed.

(** No arrow starts inside an arrow or after it. *)
Lemma arrow_inner_rejects {A} (k : @Re.cont A) (variant arrow rest : list N) :
  In (variant, arrow) EDGE_VARIANT_TO_ARROW -> arrow_free rest = true ->
  forall t, t `suffix_of` arrow ++ rest -> t <> arrow ++ rest ->
            forall pos c, Re.run ARROW_RE k pos t c = None.
Proof.
  intros Harrow Hrest t Ht Hne pos c. apply arrow_cases in Harrow.
  destruct Harrow as [-> | [-> | [-> | [-> | ->]]]]; cbn [app] in Ht, Hne;
    repeat (apply suffix_cons_cases in Ht;
            destruct Ht as [-> | Ht]; [first [congruence | reflexivity] |]);
    apply (arrow_rejects k rest Hrest t pos c Ht).
Qed.

Lemma word_not_arrow (x : N) : word_char x = true -> arrow_char x = false.
Proof. intros Hx. unfold arrow_char. char_facts. Qed.

Lemma word_dot (s : list N) : forallb word_char s = true -> forallb Re.dot s = true.
Proof. apply forallb_impl. intros x Hx. apply plain_char_dot, word_char_plain, Hx. Qed.

Lemma word_not_space (x : N) : word_char x = true -> py_isspace x = false.
Proof. intros Hx. apply plain_char_not_space, word_char_plain, Hx. Qed.

(** The line [a <arrow> b] of two ids is an edge without a label. *)
Lemma edge_simple_match (variant arrow a b : list N) :
  In (variant, arrow) EDGE_VARIANT_TO_ARROW -> safe_id a -> safe_id b ->
  Re.rmatch EDGE_SIMPLE_RE (a ++ [32%N] ++ arrow ++ [32%N] ++ b)
    = Some [("dst"%string, b); ("arrow"%string, arrow); ("src"%string, a)].
Proof.
  intros Harrow [Ha_ne Ha] [Hb_ne Hb].
  destruct a as [| a0 a']; [congruence |]. destruct b as [| b0 b']; [congruence |].
  cbn [forallb] in Ha, Hb. apply andb_true_iff in Ha, Hb.
  destruct Ha as [Ha0 Ha'], Hb as [Hb0 Hb'].
  assert (Harrow_sp : blocked Re.space (arrow ++ [32%N] ++ b0 :: b')).
  { apply arrow_cases in Harrow.
    destruct Harrow as [-> | [-> | [-> | [-> | ->]]]]; reflexivity. }
  unfold Re.rmatch.
  enough (Hrun : exists n, Re.run EDGE_SIMPLE_RE Re.accept 0
                             ((a0 :: a') ++ [32%N] ++ arrow ++ [32%N] ++ b0 :: b') []
                           = Some (n, [("dst"%string, b0 :: b'); ("arrow"%string, arrow);
                                       ("src"%string, a0 :: a')]))
    by (destruct Hrun as [n ->]; reflexivity).
  eexists. unfold EDGE_SIMPLE_RE, Re.Seqs, Re.Plus.
  cbn [fold_right Re.run Nat.eqb app].
  rewrite star_greedy_blocked by (cbn; apply word_not_space, Ha0).
  cbn [Re.run]. rewrite (plain_char_dot a0 (word_char_plain a0 Ha0)).
  set (rest := 32%N :: arrow ++ 32%N :: b0 :: b').
  rewrite star_lazy_skip.
  - apply star_lazy_here.
    change (1 + length a' - 0) with (0 + length (a0 :: a') - 0).
    change (a0 :: a' ++ rest) with ((a0 :: a') ++ rest).
    rewrite firstn_consumed. unfold rest.
    change (32%N :: arrow ++ 32%N :: b0 :: b') with ([32%N] ++ arrow ++ [32%N] ++ b0 :: b').
    erewrite star_greedy_take; [reflexivity | reflexivity | | exact Harrow_sp].
    rewrite (arrow_match _ variant arrow Harrow).
    erewrite star_greedy_take; [reflexivity | reflexivity | | cbn; apply word_not_space, Hb0].
    cbn [Re.run]. rewrite (plain_char_dot b0 (word_char_plain b0 Hb0)).
    rewrite <- (app_nil_r b') at 1. rewrite star_lazy_skip.
    + apply star_lazy_here. cbn [Re.run Re.star_greedy Re.at_end Re.accept].
      match goal with
      | |- context [firstn ?n (b0 :: b')] =>
        replace n with (length (b0 :: b')) by (cbn [length]; lia)
      end.
      rewrite firstn_all. reflexivity.
    + apply word_dot, Hb'.
    + intros x y Hxy Hy. destruct y as [| y0 y]; [congruence |].
      assert (Hy0 : word_char y0 = true).
      { rewrite Hxy, forallb_app in Hb'. apply andb_true_iff in Hb'.
        destruct Hb' as [_ Hb']. eapply forallb_head, Hb'. }
      cbn [app]. rewrite star_greedy_blocked by (cbn; apply word_not_space, Hy0).
      cbn [Re.run Re.at_end]. destruct (y ++ []).
      * replace (y0 =? 10)%N with false by (symmetry; char_facts). reflexivity.
      * reflexivity.
  - apply word_dot, Ha'.
  - intros x y Hxy Hy. destruct y as [| y0 y]; [congruence |].
    assert (Hy0 : word_char y0 = true).
    { rewrite Hxy, forallb_app in Ha'. apply andb_true_iff in Ha'.
      destruct Ha' as [_ Ha']. eapply forallb_head, Ha'. }
    cbn [app]. rewrite star_greedy_blocked by (cbn; apply word_not_space, Hy0).
    apply arrow_blocked, word_not_arrow, Hy0.
Qed.

(** Without a [|] after the arrow, the line is no labelled edge. *)
Lemma edge_with_pipe_label_unlabeled (variant arrow a b : list N) :
  In (variant, arrow) EDGE_VARIANT_TO_ARROW -> safe_id a -> safe_id b ->
  Re.rmatch EDGE_WITH_PIPE_LABEL_RE (a ++ [32%N] ++ arrow ++ [32%N] ++ b) = None.
Proof.
  intros Harrow [Ha_ne Ha] [Hb_ne Hb]. unfold Re.rmatch.
  set (line := a ++ [32%N] ++ arrow ++ [32%N] ++ b).
  change (Re.run EDGE_WITH_PIPE_LABEL_RE Re.accept 0 line [])
    with (Re.run (Re.Seqs [Re.Bos; Re.Star true Re.space;
                           Re.Group "src" (Re.Plus false Re.dot); Re.Star true Re.space])
            (Re.run ARROW_RE
               (Re.run (Re.Seqs [Re.Star true Re.space;
                                 Re.Lit (u "|"); Re.Star true Re.space;
                                 Re.Group "label" (Re.Plus false (fun c => negb (c =? 124)%N));
                                 Re.Star true Re.space; Re.Lit (u "|"); Re.Star true Re.space;
                                 Re.Group "dst" (Re.Plus false Re.dot);
                                 Re.Star true Re.space; Re.Eos]) Re.accept))
            0 line []).
  set (post := Re.run (Re.Seqs _) Re.accept).
  enough (Hrej : rejects_suffixes (Re.run ARROW_RE post) line)
    by (rewrite (run_rejects _ _ line Hrej line 0 []); reflexivity).
  assert (Hfree : arrow_free ([32%N] ++ b) = true).
  { unfold arrow_free. cbn [app forallb]. apply (word_arrow_free b Hb). }
  unfold line.
  apply (rejects_suffixes_app _ (fun x => negb (arrow_char x)));
    [| apply (word_arrow_free a Ha) |].
  { intros x t pos c Hx. apply arrow_blocked, negb_true_iff, Hx. }
  apply (rejects_suffixes_app _ (fun x => negb (arrow_char x)) [32%N]); [| reflexivity |].
  { intros x t pos c Hx. apply arrow_blocked, negb_true_iff, Hx. }
  intros t pos c Ht.
  destruct (decide (t = arrow ++ [32%N] ++ b)) as [-> | Hne];
    [| exact (arrow_inner_rejects post variant arrow _ Harrow Hfree t Ht Hne pos c)].
  rewrite (arrow_match post variant arrow Harrow).
  unfold post, Re.Seqs. cbn [fold_right Re.run].
  apply star_greedy_none.
  - intros x y Hxy. norm_u. apply run_Lit_blocked.
    destruct x as [| x0 x]; cbn [app] in Hxy.
    + subst y. reflexivity.
    + injection Hxy as _ Hxy. symmetry in Hxy. apply app_eq_nil in Hxy.
      destruct Hxy as [_ ->]. destruct b as [| b0 b']; [congruence |].
      change ((124 =? b0)%N = false). apply forallb_head in Hb. char_facts.
  - destruct b as [| b0 b']; [congruence |]. cbn. apply forallb_head in Hb.
    apply word_not_space, Hb.
Qed.

(** A line that goes on with a space and something else than a direction
    after its first word is no header. *)
Lemma litci_then_other {A} (k : @Re.cont A) (w : list N) (rest : list N) :
  (forall pos c, k pos rest c = None) ->
  (forall pos s c, blocked Re.space s -> k pos s c = None) ->
  Forall (fun ch => forall x, Re.ci ch x = true -> word_char x = true) w ->
  blocked word_char rest ->
  forall (id : list N) pos c,
    forallb word_char id = true ->
    Re.run (Re.LitCI w) k pos (id ++ rest) c = None.
Proof.
  intros Hrest Hk Hw Hr. induction Hw as [| ch w Hch _ IH]; intros id pos c Hid.
  - cbn [Re.LitCI fold_right Re.run]. destruct id as [| i0 id]; [apply Hrest |].
    apply Hk. cbn. apply forallb_head in Hid. apply word_not_space, Hid.
  - change (Re.LitCI (ch :: w)) with (Re.Seq (Re.Chr (Re.ci ch)) (Re.LitCI w)).
    cbn [Re.run]. destruct id as [| i0 id].
    + cbn [app]. destruct rest as [| x rest']; [reflexivity |].
      destruct (Re.ci ch x) eqn:E; [| reflexivity].
      apply Hch in E. cbn in Hr. congruence.
    + cbn [app]. destruct (Re.ci ch i0); [| reflexivity].
      cbn [forallb] in Hid. apply andb_true_iff in Hid. destruct Hid as [_ Hid].
      apply IH, Hid.
Qed.

Lemma flow_header_none_edge (variant arrow a b : list N) :
  In (variant, arrow) EDGE_VARIANT_TO_ARROW -> safe_id a ->
  Re.rmatch FLOW_HEADER_RE (a ++ [32%N] ++ arrow ++ [32%N] ++ b) = None.
Proof.
  intros Harrow [Hne Ha]. unfold Re.rmatch, FLOW_HEADER_RE, Re.Seqs.
  cbn [fold_right]. cbn [Re.run Nat.eqb].
  rewrite star_greedy_blocked.
  2:{ destruct a as [| a0 a']; [congruence |]. cbn.
      apply forallb_head in Ha. apply word_not_space, Ha. }
  set (k := Re.run (Re.Plus true Re.space) _).
  assert (Hk : forall pos s c, blocked Re.space s -> k pos s c = None).
  { intros pos s c Hs. unfold k, Re.Plus. cbn [Re.run].
    destruct s as [| x s]; [reflexivity |]. cbn in Hs. rewrite Hs. reflexivity. }
  assert (Hrest : forall pos c, k pos ([32%N] ++ arrow ++ [32%N] ++ b) c = None).
  { intros pos c. apply arrow_cases in Harrow. unfold k.
    destruct Harrow as [-> | [-> | [-> | [-> | ->]]]]; reflexivity. }
  assert (Hletters : forall w, Forall (fun ch => (97 <= ch <= 122)%N \/ (65 <= ch <= 90)%N) w ->
                               Forall (fun ch => forall x, Re.ci ch x = true -> word_char x = true) w).
  { intros w Hw. eapply Forall_impl; [exact Hw |]. intros ch Hch x Hx.
    exact (ci_letter ch x Hch Hx). }
  norm_u.
  rewrite !(litci_then_other k _ _ Hrest Hk); try exact Ha; try reflexivity;
    apply Hletters; repeat (constructor 2; [lia |]); constructor 1.
Qed.

End EdgeLines.

Section EdgeLineParsed.
Context `{PyUnicode}.
Local Open Scope nat_scope.

Lemma split_node_token_id (id : list N) :
  safe_id id -> split_node_token id = Ok (id, id, u "process").
Proof.
  intros Hid. rewrite <- (app_nil_r id) at 1.
  apply (split_node_token_bare id [] None Hid). left. auto.
Qed.

Lemma strip_id (id : list N) : safe_id id -> strip id = id.
Proof.
  intros [Hne Hall]. apply strip_ends.
  - destruct id as [| i0 id]; [congruence |]. cbn. apply forallb_head in Hall.
    apply word_not_space, Hall.
  - destruct (ends_forallb _ id Hne Hall) as (s' & x & -> & Hx).
    exists s', x. split; [reflexivity | apply word_not_space, Hx].
Qed.

(** What the parser collects from the line of an edge between two ids. *)
Lemma parse_line_edge (variant arrow a b : list N) :
  In (variant, arrow) EDGE_VARIANT_TO_ARROW -> safe_id a -> safe_id b -> a <> b ->
  parse_line (a ++ [32%N] ++ arrow ++ [32%N] ++ b)
             {| p_nodes := ∅; p_edges := []; p_alias_map := ∅ |}
    = Ok {| p_nodes := <[b := (b, u "process")]> (<[a := (a, u "process")]> ∅);
            p_edges := [(a, b, [], variant)];
            p_alias_map := <[(b, b, u "process") := b]>
                             (<[(a, a, u "process") := a]> ∅) |}.
Proof.
  intros Harrow Ha Hb Hab. unfold parse_line.
  rewrite (edge_with_pipe_label_unlabeled variant arrow a b Harrow Ha Hb).
  rewrite (edge_simple_match variant arrow a b Harrow Ha Hb).
  unfold parse_edge.
  change (Re.group "src" _) with a. change (Re.group "dst" _) with b.
  change (Re.group "arrow" _) with arrow.
  rewrite (strip_id a Ha), (strip_id b Hb).
  rewrite (split_node_token_id a Ha), (split_node_token_id b Hb).
  cbn [mbind result_bind].
  unfold resolve_node_id at 1. cbn [p_alias_map p_nodes p_edges].
  rewrite !lookup_empty.
  unfold resolve_node_id at 1. cbn [p_alias_map p_nodes p_edges].
  rewrite lookup_insert_ne by congruence. rewrite !lookup_empty.
  unfold upsert_node. cbn [p_alias_map p_nodes p_edges].
  rewrite lookup_empty. rewrite lookup_insert_ne by congruence. rewrite lookup_empty.
  unfold EDGE_VARIANT_TO_ARROW in Harrow. cbn [In] in Harrow.
  destruct Harrow as [E | [E | [E | [E | [E | []]]]]]; injection E as <- <-;
    reflexivity.
Qed.

(** X24: the line that [generate_mermaid] writes for an edge without a
    label between two different ids is read back by [parse_mermaid] as two
    process nodes, each labelled with its id, joined by one edge of the
    variant the arrow stands for. *)
Theorem edge_line_read_back (ses : Session) (variant arrow a b : list N) :
  In (variant, arrow) EDGE_VARIANT_TO_ARROW -> safe_id a -> safe_id b -> a <> b ->
  exists G, parse_mermaid ses (edge_line a b arrow []) = Ok (Some G, None, session_direction ses) /\
            map node_fields (nodes G) ≡ₚ [(a, a, u "process"); (b, b, u "process")] /\
            map (fun e => (e_source e, e_target e, e_label e, e_variant e)) (edges G)
              = [(a, b, [], variant)].
Proof.
  intros Harrow Ha Hb Hab.
  set (line := a ++ [32%N] ++ arrow ++ [32%N] ++ b).
  assert (Htext : edge_line a b arrow [] = [32; 32; 32; 32]%N ++ line).
  { unfold edge_line. cbn [nonempty]. norm_u. unfold line. reflexivity. }
  pose proof Ha as [Ha_ne Ha_all]. pose proof Hb as [Hb_ne Hb_all].
  assert (Harrow_nl : no_linebreak arrow = true).
  { pose proof Harrow as Harrow'.
    unfold EDGE_VARIANT_TO_ARROW in Harrow'. cbn [In] in Harrow'.
    destruct Harrow' as [E | [E | [E | [E | [E | []]]]]]; injection E as <- <-;
      reflexivity. }
  assert (Hline_strip : strip line = line).
  { apply strip_ends.
    - unfold line. destruct a as [| a0 a']; [congruence |]. cbn.
      apply forallb_head in Ha_all. apply word_not_space, Ha_all.
    - unfold line. do 4 apply ends_app.
      destruct (ends_forallb _ b Hb_ne Hb_all) as (s' & x & -> & Hx).
      exists s', x. split; [reflexivity | apply word_not_space, Hx]. }
  assert (Hline_ne : exists x r, line = x :: r /\ word_char x = true).
  { unfold line. destruct a as [| a0 a']; [congruence |].
    exists a0, (a' ++ [32%N] ++ arrow ++ [32%N] ++ b). split; [reflexivity |].
    apply forallb_head in Ha_all. exact Ha_all. }
  destruct Hline_ne as (l0 & lr & Hl0 & Hl0w).
  assert (Hsplit : splitlines ([32; 32; 32; 32]%N ++ line) = [[32; 32; 32; 32]%N ++ line]).
  { apply (splitlines_join [] ([32; 32; 32; 32]%N ++ line)). constructor 2; [| constructor 1].
    split; [| discriminate].
    unfold no_linebreak. rewrite forallb_app. unfold line. rewrite !forallb_app.
    pose proof (plain_no_linebreak _ (word_plain _ Ha_all)) as H1.
    pose proof (plain_no_linebreak _ (word_plain _ Hb_all)) as H2.
    unfold no_linebreak in H1, H2, Harrow_nl. rewrite H1, H2, Harrow_nl. reflexivity. }
  assert (Hclean : clean_lines [[32; 32; 32; 32]%N ++ line] (session_direction ses)
                   = ([line], session_direction ses)).
  { apply clean_lines_nodes. constructor 2; [| constructor 1].
    split; [| split; [| split]].
    - change (strip ([32; 32; 32; 32]%N ++ line)) with (strip line). exact Hline_strip.
    - rewrite Hl0. reflexivity.
    - rewrite Hl0. norm_u. cbn [starts_with].
      replace (37 =? l0)%N with false by (symmetry; char_facts). reflexivity.
    - apply (flow_header_none_edge variant arrow a b Harrow Ha). }
  eexists. split; [| split].
  - unfold parse_mermaid. rewrite Htext.
    assert (Hn2 : nonempty (strip ([32; 32; 32; 32]%N ++ line)) = true).
    { change (strip ([32; 32; 32; 32]%N ++ line)) with (strip line).
      rewrite Hline_strip, Hl0. reflexivity. }
    rewrite Hn2. cbn [app nonempty negb orb].
    change (32 :: 32 :: 32 :: 32 :: line)%N with ([32; 32; 32; 32]%N ++ line).
    rewrite Hsplit, Hclean. cbn [parse_lines].
    unfold line. rewrite (parse_line_edge variant arrow a b Harrow Ha Hb Hab).
    cbn [mbind result_bind p_nodes p_edges].
    rewrite bool_decide_false by apply insert_non_empty.
    reflexivity.
  - cbn [nodes normalize_state]. rewrite build_flow_nodes_fields.
    rewrite map_to_list_insert by (rewrite lookup_insert_ne by congruence; apply lookup_empty).
    rewrite map_to_list_insert by apply lookup_empty.
    rewrite map_to_list_empty. cbn [map fst snd].
    assert (Hself : forall s, s <> [] -> str_or (str_or s s) (str_or (node_markdown (str_or s s)
                        (str_or (u "process") (u "process"))) s) = s).
    { intros s Hs. destruct s; [congruence | reflexivity]. }
    rewrite !Hself by assumption.
    change (str_or (str_or (u "process") (u "process")) (u "process")) with (u "process").
    apply perm_swap.
  - cbn [edges normalize_state sorted fold_right insert_sorted build_flow_edges].
    rewrite lookup_empty. cbn [map normalize_edge make_edge e_source e_target e_label e_variant].
    unfold EDGE_VARIANT_TO_ARROW in Harrow. cbn [In] in Harrow.
    destruct Harrow as [E | [E | [E | [E | [E | []]]]]]; injection E as <- <-;
      reflexivity.
Qed.

End EdgeLineParsed.

Lemma edge_line_read_back_witness :
  let ses := {| session_direction := u "LR"; enable_grid_snap := false |} in
  exists G, parse_mermaid ses (edge_line (u "n1") (u "n2") (u "-.->") [])
              = Ok (Some G, None, session_direction ses) /\
            map node_fields (nodes G) ≡ₚ [(u "n1", u "n1", u "process");
                                          (u "n2", u "n2", u "process")] /\
            map (fun e => (e_source e, e_target e, e_label e, e_variant e)) (edges G)
              = [(u "n1", u "n2", [], u "dotted")].
Proof.
  intros ses. apply (edge_line_read_back ses (u "dotted") (u "-.->") (u "n1") (u "n2")).
  - vm_compute. tauto.
  - split; [discriminate | vm_compute; reflexivity].
  - split; [discriminate | vm_compute; reflexivity].
  - discriminate.
Defined.

(** ** File names *)
Section FileNames.
Local Open Scope nat_scope.

Lemma lstrip_head (s : list N) : blocked py_isspace (lstrip s).
Proof.
  induction s as [| c s IH]; [exact I |]. cbn [lstrip].
  destruct (py_isspace c) eqn:E; [exact IH | exact E].
Qed.

Lemma lstrip_suffix (s : list N) : exists p, s = p ++ lstrip s.
Proof.
  induction s as [| c s [p IH]]; [exists []; reflexivity |]. cbn [lstrip].
  destruct (py_isspace c).
  - exists (c :: p). cbn [app]. f_equal. exact IH.
  - exists []. reflexivity.
Qed.

(** A stripped string has no white space at either end: stripping it again
    changes nothing. *)
Lemma strip_strip (s : list N) : strip (strip s) = strip s.
Proof.
  unfold strip at 2 3. unfold rstrip. set (L := lstrip s).
  set (M := lstrip (rev L)).
  assert (HM : blocked py_isspace M) by apply lstrip_head.
  assert (HL : blocked py_isspace L) by apply lstrip_head.
  destruct (lstrip_suffix (rev L)) as [p Hp]. fold M in Hp.
  assert (HLM : L = rev M ++ rev p).
  { rewrite <- (rev_involutive L), Hp, rev_app_distr. reflexivity. }
  assert (Hb : blocked py_isspace (rev M)).
  { destruct (rev M) as [| x b]; [exact I |]. rewrite HLM in HL. exact HL. }
  unfold strip, rstrip. rewrite (lstrip_blocked _ Hb), rev_involutive.
  rewrite (lstrip_blocked _ HM). reflexivity.
Qed.

Lemma strip_starts (s : list N) :
  strip s <> [] -> exists x r, strip s = x :: r /\ py_isspace x = false.
Proof.
  intros Hne. pose proof (strip_strip s) as Hs.
  destruct (strip s) as [| x r]; [congruence |]. exists x, r. split; [reflexivity |].
  unfold strip in Hs. cbn [lstrip] in Hs. destruct (py_isspace x) eqn:E; [| reflexivity].
  exfalso.
  assert (Hlen : forall t, length (lstrip t) <= length t).
  { induction t as [| c t IH]; [reflexivity |]. cbn [lstrip].
    destruct (py_isspace c); cbn [length]; lia. }
  apply (f_equal (@length N)) in Hs. unfold rstrip in Hs.
  rewrite length_rev in Hs. pose proof (Hlen (rev (lstrip r))) as H1.
  rewrite length_rev in H1. pose proof (Hlen r) as H2. cbn [length] in Hs. lia.
Qed.

Lemma sub_spaces_head (x : N) (s : list N) :
  py_isspace x = false ->
  exists t, Re.sub SPACES_RE (u " ") (x :: s) = x :: t.
Proof.
  intros Hx. unfold Re.sub. cbn [Re.sub_from]. unfold SPACES_RE, Re.Plus.
  cbn [Re.run]. unfold Re.space at 1. rewrite Hx. eexists. reflexivity.
Qed.

(** X25: the name [safe_filename] returns is a base followed by the suffix
    as given; the base is never empty, holds only digits, ASCII letters, the
    Turkish letters, the space, [_] and [-], and has no white space at
    either end. *)
Theorem safe_filename_base (name suffix : list N) :
  exists base, safe_filename name suffix = base ++ suffix /\
               base <> [] /\
               forallb filename_char base = true /\
               strip base = base.
Proof.
  unfold safe_filename. eexists. split; [reflexivity |].
  set (name0 := str_or (strip name) (u "akis_semasi")).
  assert (H0 : exists x r, name0 = x :: r /\ py_isspace x = false).
  { unfold name0, str_or. destruct (nonempty (strip name)) eqn:E.
    - apply strip_starts. destruct (strip name); [discriminate E | discriminate].
    - norm_u. eexists _, _. split; reflexivity. }
  split; [| split].
  - destruct H0 as (x & r & -> & Hx). unfold FILENAME_UNSAFE_RE. rewrite sub_chr.
    cbn [flat_map].
    match goal with
    | |- context [(if ?c then u "_" else [x]) ++ ?t] =>
      assert (Hy : exists y, (if c then u "_" else [x]) = [y] /\ py_isspace y = false)
        by (destruct c; norm_u; eexists; split; try reflexivity; exact Hx);
      destruct Hy as (y & -> & Hy); generalize t; intros t'
    end.
    cbn [app]. destruct (sub_spaces_head y t' Hy) as [t ->].
    pose proof (strip_nonempty y t Hy) as Hn.
    destruct (strip (y :: t)); [discriminate Hn | discriminate].
  - apply strip_keeps. apply sub_keeps; [| reflexivity].
    unfold FILENAME_UNSAFE_RE. rewrite sub_chr.
    apply (flat_map_subst _ (fun _ => true));
      [apply forallb_forall; reflexivity | reflexivity |].
    intros c _ Hc. apply negb_false_iff in Hc. rewrite <- Hc.
    unfold filename_char. norm_u. unfold Re.one_of. cbn [existsb].
    rewrite !orb_false_r, !orb_assoc. reflexivity.
  - apply strip_strip.
Qed.

End FileNames.

(** ** The direction of a generated text *)
Section DirectionRoundTrip.
Context `{PyUnicode}.
Local Open Scope nat_scope.

Lemma join_first (sep p : list N) (ps : list (list N)) :
  join sep (p :: ps) = p \/ exists r, join sep (p :: ps) = p ++ sep ++ r.
Proof.
  destruct ps as [| q ps]; cbn [join]; [left; reflexivity | right; eexists; reflexivity].
Qed.

Lemma splitlines_first (l rest : list N) :
  no_linebreak l = true -> l <> [] ->
  exists ls, splitlines (l ++ [10%N] ++ rest) = l :: ls.
Proof.
  intros Hl Hne. unfold splitlines. rewrite (splitlines_from_line l Hl).
  cbn [app]. destruct (splitlines_from_break (rev l ++ []) 10%N rest eq_refl)
    as (r' & _ & ->).
  rewrite app_nil_r, rev_involutive. eexists. reflexivity.
Qed.

(** X26: the direction read back from a generated text is the one it was
    generated with: whatever the graph, [extract_direction_from_code] finds
    the header that [generate_mermaid] wrote. *)
Theorem extract_direction_of_generated (G : StreamlitFlowState) (direction : list N) :
  let D := py_upper (str_or direction DEFAULT_DIRECTION) in
  In D [u "TD"; u "TB"; u "LR"; u "RL"; u "BT"] ->
  extract_direction_from_code (generate_mermaid G direction) = Some (py_upper D).
Proof.
  intros D HD. unfold generate_mermaid. cbv zeta. fold D.
  match goal with
  | |- context [join _ ([?h] ++ ?rest)] =>
    change ([h] ++ rest) with (h :: rest); set (hdr := h); generalize rest; intros ps
  end.
  assert (Hhdr : no_linebreak hdr = true /\ hdr <> [] /\ nonempty hdr = true /\
                 strip hdr = hdr /\
                 Re.rmatch FLOW_HEADER_RE hdr = Some [("1"%string, D)]).
  { unfold hdr. cbn [In] in HD.
    destruct HD as [<- | [<- | [<- | [<- | [<- | []]]]]];
      (split; [vm_compute; reflexivity |]); (split; [discriminate |]);
      (split; [reflexivity |]); (split; vm_compute; reflexivity). }
  destruct Hhdr as (Hnl & Hne & Hn & Hstrip & Hmatch).
  assert (Hlines : exists ls, splitlines (join [10%N] (hdr :: ps)) = hdr :: ls).
  { destruct (join_first [10%N] hdr ps) as [-> | [r ->]].
    - exists []. apply (splitlines_join [] hdr). constructor 2; [| constructor 1].
      split; assumption.
    - apply splitlines_first; assumption. }
  destruct Hlines as [ls Hlines].
  unfold extract_direction_from_code. rewrite Hlines.
  assert (Htext : nonempty (join [10%N] (hdr :: ps)) = true).
  { destruct (join_first [10%N] hdr ps) as [-> | [r ->]]; [exact Hn |].
    destruct hdr; [discriminate Hn | reflexivity]. }
  rewrite Htext. cbn [negb extract_direction_lines]. rewrite Hstrip, Hmatch.
  reflexivity.
Qed.

End DirectionRoundTrip.

Lemma extract_direction_of_generated_witness :
  let G := {| nodes := [make_node (u "a") (u "A") (u "process") (0, 0)%Q];
              edges := [] |} in
  In (py_upper (str_or (u "lr") DEFAULT_DIRECTION)) [u "TD"; u "TB"; u "LR"; u "RL"; u "BT"] /\
  extract_direction_from_code (generate_mermaid G (u "lr")) = Some (u "LR").
Proof.
  intros G. split; [vm_compute; tauto |].
  assert (E : py_upper (py_upper (str_or (u "lr") DEFAULT_DIRECTION)) = u "LR")
    by (vm_compute; reflexivity).
  rewrite <- E. apply (extract_direction_of_generated G (u "lr")). vm_compute. tauto.
Defined.

(** ** Counters and fresh ids *)
Section CounterFacts.
Context `{PyDigits}.

Lemma digits_fuel_ascii (f : nat) :
  forall n acc, forallb ascii_digit acc = true ->
                forallb ascii_digit (digits_fuel f n acc) = true.
Proof.
  induction f as [| f IH]; intros n acc Hacc; [exact Hacc |].
  cbn [digits_fuel]. cbv zeta.
  assert (Hd : ascii_digit (48 + n mod 10) = true).
  { assert (Hm : (n mod 10 < 10)%N) by (apply N.mod_lt; discriminate).
    revert Hm. generalize (n mod 10)%N. intros r Hr.
    unfold ascii_digit. apply andb_true_iff. split; apply N.leb_le; lia. }
  destruct (n <? 10)%N.
  - cbn [forallb]. rewrite Hd, Hacc. reflexivity.
  - apply IH. cbn [forallb]. rewrite Hd, Hacc. reflexivity.
Qed.

Lemma digits_fuel_nonempty (f : nat) :
  forall n acc, acc <> [] -> digits_fuel f n acc <> [].
Proof.
  induction f as [| f IH]; intros n acc Hacc; [exact Hacc |].
  cbn [digits_fuel]. cbv zeta. destruct (n <? 10)%N; [discriminate |].
  apply IH. discriminate.
Qed.

Lemma str_of_N_ascii (k : N) :
  forallb ascii_digit (str_of_N k) = true /\ str_of_N k <> [].
Proof.
  unfold str_of_N. split; [apply digits_fuel_ascii; reflexivity |].
  cbn [digits_fuel]. cbv zeta. destruct (k <? 10)%N; [discriminate |].
  apply digits_fuel_nonempty. discriminate.
Qed.

Hypothesis Hlaw : digits_lawful.

Lemma ascii_is_digit (c : N) : ascii_digit c = true -> is_digit c = true.
Proof.
  unfold ascii_digit. intros Hc. apply andb_true_iff in Hc. destruct Hc as [H1 H2].
  apply N.leb_le in H1, H2. unfold is_digit. rewrite (proj1 Hlaw c H1 H2). reflexivity.
Qed.

Lemma int_of_str_of_N (k : N) : int_of_digits (str_of_N k) = k.
Proof.
  rewrite <- (str_of_N_value k) at 2. unfold int_of_digits.
  enough (Hgen : forall s a, forallb ascii_digit s = true ->
                   fold_left (fun a c => 10 * a + default 0 (py_digit c)) s a
                   = fold_left (fun a d => 10 * a + (d - 48)) s a)
    by (apply Hgen, str_of_N_ascii).
  induction s as [| c s IH]; intros a Hall; [reflexivity |].
  cbn [forallb] in Hall. apply andb_true_iff in Hall. destruct Hall as [Hc Hs].
  cbn [fold_left]. rewrite (IH _ Hs). f_equal.
  unfold ascii_digit in Hc. apply andb_true_iff in Hc. destruct Hc as [H1 H2].
  apply N.leb_le in H1, H2. rewrite (proj1 Hlaw c H1 H2). reflexivity.
Qed.

Local Open Scope nat_scope.

Lemma node_counter_match (k : N) :
  Re.rmatch NODE_COUNTER_RE (next_node_id k) = Some [("1"%string, str_of_N k)].
Proof.
  destruct (str_of_N_ascii k) as [Hall Hne]. unfold next_node_id.
  destruct (str_of_N k) as [| d ds]; [congruence |].
  cbn [forallb] in Hall. apply andb_true_iff in Hall. destruct Hall as [Hd Hds].
  unfold Re.rmatch, NODE_COUNTER_RE, Re.Seqs, Re.Plus. norm_u.
  cbn [fold_right Re.Lit Re.run Nat.eqb app N.eqb Pos.eqb].
  rewrite (ascii_is_digit d Hd).
  match goal with
  | |- snd <$> ?t = _ =>
    enough (E : t = Some (2 + length ds, [("1"%string, d :: ds)]))
      by (rewrite E; reflexivity)
  end.
  rewrite <- (app_nil_r ds) at 1.
  apply star_greedy_take; [| | exact I].
  - apply forallb_forall. intros x Hx. apply ascii_is_digit.
    rewrite forallb_forall in Hds. apply Hds, Hx.
  - cbn [Re.at_end Re.accept]. replace (2 + length ds - 1) with (length (d :: ds))
      by (cbn [length]; lia).
    rewrite firstn_all. reflexivity.
Qed.

Lemma edge_counter_match (k : N) (source target : list N) :
  Re.rmatch EDGE_COUNTER_RE (next_edge_id source target k) = Some [("1"%string, str_of_N k)].
Proof.
  destruct (str_of_N_ascii k) as [Hall Hne]. unfold next_edge_id.
  destruct (str_of_N k) as [| d ds]; [congruence |].
  cbn [forallb] in Hall. apply andb_true_iff in Hall. destruct Hall as [Hd Hds].
  unfold Re.rmatch, EDGE_COUNTER_RE, Re.Seqs, Re.Plus. norm_u.
  cbn [fold_right Re.Lit Re.run Nat.eqb app N.eqb Pos.eqb].
  rewrite (ascii_is_digit d Hd).
  match goal with
  | |- snd <$> ?t = _ =>
    enough (E : t = Some (S (2 + length ds), [("1"%string, d :: ds)]))
      by (rewrite E; reflexivity)
  end.
  apply star_greedy_take.
  - apply forallb_forall. intros x Hx. apply ascii_is_digit.
    rewrite forallb_forall in Hds. apply Hds, Hx.
  - cbn [Re.accept N.eqb Pos.eqb].
    replace (2 + length ds - 1) with (length (d :: ds)) by (cbn [length]; lia).
    change (d :: ds ++ 95%N :: source ++ 95%N :: target)
      with ((d :: ds) ++ 95%N :: source ++ 95%N :: target).
    rewrite firstn_app, firstn_all, Nat.sub_diag. cbn [firstn]. rewrite app_nil_r.
    reflexivity.
  - cbn [blocked]. unfold is_digit. rewrite (proj2 Hlaw). reflexivity.
Qed.

Lemma fold_max_ge {A : Type} (value : A -> option N) (l : list A) :
  forall mx,
    (mx <= fold_left (fun mx x => match value x with
                                  | Some v => N.max mx v
                                  | None => mx
                                  end) l mx)%N /\
    forall x v, In x l -> value x = Some v ->
      (v <= fold_left (fun mx x => match value x with
                                   | Some v => N.max mx v
                                   | None => mx
                                   end) l mx)%N.
Proof.
  induction l as [| y l IH]; intros mx; cbn [fold_left].
  - split; [reflexivity | intros x v []].
  - destruct (IH (match value y with Some v => N.max mx v | None => mx end)) as [H1 H2].
    split.
    + etransitivity; [| exact H1]. destruct (value y); lia.
    + intros x v [<- | Hx] Hv; [| exact (H2 x v Hx Hv)].
      etransitivity; [| exact H1]. rewrite Hv. lia.
Qed.

(** X27: after [sync_counters_from_state] the ids minted next are new:
    both counters are at least 1, no node of the state has the id
    [next_node_id] gives for a larger counter, and no edge has an id that
    [next_edge_id] gives for a larger counter, whatever its ends. *)
Theorem sync_counters_mint_fresh_ids (fs : StreamlitFlowState) :
  let max_node := fst (sync_counters_from_state fs) in
  let max_edge := snd (sync_counters_from_state fs) in
  (1 <= max_node)%N /\ (1 <= max_edge)%N /\
  (forall k, (max_node < k)%N -> ~ In (next_node_id k) (map n_id (nodes fs))) /\
  (forall k source target, (max_edge < k)%N ->
     ~ In (next_edge_id source target k) (map e_id (edges fs))).
Proof.
  cbv zeta. unfold sync_counters_from_state. cbn [fst snd].
  set (vn := fun n => (fun m => int_of_digits (Re.group "1" m))
                        <$> Re.rmatch NODE_COUNTER_RE (n_id n)).
  set (ve := fun e => (fun m => int_of_digits (Re.group "1" m))
                        <$> Re.rmatch EDGE_COUNTER_RE (e_id e)).
  assert (En : forall l mx,
             fold_left (fun max_node n =>
                          match Re.rmatch NODE_COUNTER_RE (n_id n) with
                          | Some m => N.max max_node (int_of_digits (Re.group "1" m))
                          | None => max_node
                          end) l mx
             = fold_left (fun mx x => match vn x with
                                      | Some v => N.max mx v
                                      | None => mx
                                      end) l mx).
  { induction l as [| n l IH]; intros mx; [reflexivity |]. cbn [fold_left].
    rewrite IH. f_equal. unfold vn.
    destruct (Re.rmatch NODE_COUNTER_RE (n_id n)); reflexivity. }
  assert (Ee : forall l mx,
             fold_left (fun max_edge e =>
                          match Re.rmatch EDGE_COUNTER_RE (e_id e) with
                          | Some m => N.max max_edge (int_of_digits (Re.group "1" m))
                          | None => max_edge
                          end) l mx
             = fold_left (fun mx x => match ve x with
                                      | Some v => N.max mx v
                                      | None => mx
                                      end) l mx).
  { induction l as [| e l IH]; intros mx; [reflexivity |]. cbn [fold_left].
    rewrite IH. f_equal. unfold ve.
    destruct (Re.rmatch EDGE_COUNTER_RE (e_id e)); reflexivity. }
  rewrite En, Ee.
  destruct (fold_max_ge vn (nodes fs) 1%N) as [Hn1 Hn2].
  destruct (fold_max_ge ve (edges fs) 1%N) as [He1 He2].
  split; [exact Hn1 |]. split; [exact He1 |]. split.
  - intros k Hk Hin. apply in_map_iff in Hin. destruct Hin as (n & Hid & Hn).
    assert (Hv : vn n = Some k).
    { unfold vn. rewrite Hid, node_counter_match. cbn. f_equal. apply int_of_str_of_N. }
    specialize (Hn2 n k Hn Hv). lia.
  - intros k source target Hk Hin. apply in_map_iff in Hin. destruct Hin as (e & Hid & He).
    assert (Hv : ve e = Some k).
    { unfold ve. rewrite Hid, edge_counter_match. cbn. f_equal. apply int_of_str_of_N. }
    specialize (He2 e k He Hv). lia.
Qed.

End CounterFacts.

Lemma ascii_digits_lawful : digits_lawful.
Proof.
  split; [| reflexivity]. intros c H1 H2. cbn [py_digit ascii_digits].
  apply N.leb_le in H1, H2. rewrite H1, H2. reflexivity.
Qed.

Lemma sync_counters_mint_fresh_ids_witness :
  let fs := {| nodes := [make_node (u "n7") (u "A") (u "process") (0, 0)%Q;
                         make_node (u "start") (u "B") (u "process") (0, 0)%Q];
               edges := [make_edge (u "e12_n7_start") (u "n7") (u "start") []
                                   (u "smoothstep") (u "solid")] |} in
  digits_lawful /\
  sync_counters_from_state fs = (7, 12) /\
  ~ In (next_node_id 8) (map n_id (nodes fs)) /\
  ~ In (next_edge_id (u "n7") (u "start") 13) (map e_id (edges fs)).
Proof.
  intros fs. split; [exact ascii_digits_lawful |].
  split; [vm_compute; reflexivity |].
  pose proof (sync_counters_mint_fresh_ids ascii_digits_lawful fs) as (_ & _ & Hn & He).
  split; [apply Hn | apply He]; vm_compute; reflexivity.
Defined.
